(** * Orbit: great-circle solver and satellite footprint projector

    A shallow embedding of [src/gpredict/locator.ts] and
    [src/gpredict/satmap.ts], and of the components [Footprint] and
    [Grid] and of the animation of [src/App.tsx].

    Numbers.  The TypeScript code computes on IEEE-754 doubles.  Here a
    [number] is a real number of the Standard Library: the arithmetic,
    the comparisons and the trigonometric functions are the exact ones.
    Rounding, infinities and NaN are outside the model, and every
    concrete input used below was chosen so that the comparisons the
    code makes on it are decided far away from any rounding error.

    React.  Of [App.tsx] the file keeps the numbers: a component is
    the list of what it draws, and the two states of [Map] are a
    record, updated once by each tick of its interval. *)

From Stdlib Require Import Reals Machin Lra Lia ZArith List String Bool Sorted.
From stdpp Require Import base list.
Import ListNotations.

Open Scope R_scope.

(** ** The subset of JavaScript numbers the program uses *)

Module Js.

Definition gtb (a b : R) : bool := if Rgt_dec a b then true else false.
Definition ltb (a b : R) : bool := if Rlt_dec a b then true else false.
Definition geb (a b : R) : bool := if Rge_dec a b then true else false.
Definition leb (a b : R) : bool := if Rle_dec a b then true else false.
Definition eqb (a b : R) : bool := if Req_dec_T a b then true else false.
Definition neqb (a b : R) : bool := negb (eqb a b).

(** Rounding towards zero, the quotient behind the [%] operator. *)
Definition trunc (x : R) : Z :=
  if Rle_dec 0 x then Int_part x else (- Int_part (- x))%Z.

(** [a % b]: the remainder has the sign of the dividend. *)
Definition rem (a b : R) : R := a - b * IZR (trunc (a / b)).

(** [Math.atan2 (y, x)], the angle of the point [(x, y)] in
    [(-PI, PI]].  The reals have one zero, so the four signed-zero
    cases of the language collapse: [atan2 0 0 = 0], and
    [atan2 0 x = PI] for a negative [x]. *)
Definition atan2 (y x : R) : R :=
  if Rlt_dec 0 x then atan (y / x)
  else if Rlt_dec x 0 then
    (if Rle_dec 0 y then atan (y / x) + PI else atan (y / x) - PI)
  else if Rlt_dec 0 y then PI / 2
  else if Rlt_dec y 0 then - (PI / 2)
  else 0.

End Js.

Declare Scope js_scope.
Delimit Scope js_scope with js.
Infix ">?" := Js.gtb (at level 70, no associativity) : js_scope.
Infix "<?" := Js.ltb (at level 70, no associativity) : js_scope.
Infix ">=?" := Js.geb (at level 70, no associativity) : js_scope.
Infix "<=?" := Js.leb (at level 70, no associativity) : js_scope.
Infix "==?" := Js.eqb (at level 70, no associativity) : js_scope.
Infix "!=?" := Js.neqb (at level 70, no associativity) : js_scope.
Open Scope js_scope.

(** ** locator.ts *)

Module Locator.

Definition RADIAN : R := 180 / PI.

(** arc length for 1 degree, 60 Nautical Miles *)
Definition ARC_IN_KM : R := 111.2.

Inductive rig_status : Set := RIG_OK | RIG_EINVAL.

Record qrb_result : Type := mk_qrb {
  res : rig_status;
  distance : R;
  azimuth : R
}.

(** "Prevent ACOS() Domain Error": a latitude on a pole is moved
    1e-9 degree towards the equator. *)
Definition off_pole (lat : R) : R :=
  if lat ==? 90 then 89.999999999
  else if lat ==? -90 then -89.999999999
  else lat.

(** The value [tmp] of [qrb], the cosine of the arc between the two
    points, from the coordinates already in radians. *)
Definition cos_arc (lon1 lat1 lon2 lat2 : R) : R :=
  let delta_long := lon2 - lon1 in
  sin lat1 * sin lat2 + cos lat1 * cos lat2 * cos delta_long.

Definition qrb (lon1 lat1 lon2 lat2 : R) : qrb_result :=
  let distance := 0 in
  let azimuth := 0 in
  if ((lat1 >? 90) || (lat1 <? -90)) || ((lat2 >? 90) || (lat2 <? -90))
  then mk_qrb RIG_EINVAL distance azimuth
  else if ((lon1 >? 180) || (lon1 <? -180)) || ((lon2 >? 180) || (lon2 <? -180))
  then mk_qrb RIG_EINVAL distance azimuth
  else
    let lat1 := off_pole lat1 in
    let lat2 := off_pole lat2 in
    let lat1 := lat1 / RADIAN in
    let lon1 := lon1 / RADIAN in
    let lat2 := lat2 / RADIAN in
    let lon2 := lon2 / RADIAN in
    let tmp := cos_arc lon1 lat1 lon2 lat2 in
    if tmp >? 0.999999999999999 then mk_qrb RIG_OK 0 0
    else if tmp <? -0.999999 then mk_qrb RIG_OK (180 * ARC_IN_KM) 0
    else
      let arc := acos tmp in
      let distance := ARC_IN_KM * RADIAN * arc in
      let az := Js.atan2 (sin (lon1 - lon2) * cos lat2)
                  (cos lat1 * sin lat2
                   - sin lat1 * cos lat2 * cos (lon1 - lon2)) in
      let az := Js.rem az 2 * PI in
      let az := RADIAN * az in
      if lon1 >? lon2 then
        let az := az - 360 in
        mk_qrb RIG_OK distance (- az)
      else if az >=? 0 then mk_qrb RIG_OK distance az
      else mk_qrb RIG_OK distance (- az).

(** *** Vocabulary of the statements about [qrb] *)

Definition valid_lat (lat : R) : Prop := -90 <= lat <= 90.
Definition valid_lon (lon : R) : Prop := -180 <= lon <= 180.

(** The tests of the two guards of [qrb], as one boolean. *)
Definition out_of_range (lon1 lat1 lon2 lat2 : R) : bool :=
  (((lat1 >? 90) || (lat1 <? -90)) || ((lat2 >? 90) || (lat2 <? -90)))
  || (((lon1 >? 180) || (lon1 <? -180)) || ((lon2 >? 180) || (lon2 <? -180))).

End Locator.


(** ** Effects: the console, exceptions and loops *)

Module Effect.

(** What the program writes on the console. *)
Inductive console : Type :=
| console_error (msg : string) (lon lat : R)
| console_log (msg : string).

(** How a call ends: with a value, with the [TypeError] of a property
    read on [undefined], or with its fuel spent inside a loop. *)
Inductive outcome (A : Type) : Type :=
| Return (a : A)
| TypeError
| OutOfFuel.
Arguments Return {A} a.
Arguments TypeError {A}.
Arguments OutOfFuel {A}.

(** A computation: its outcome and the lines it printed. *)
Definition M (A : Type) : Type := (outcome A * list console)%type.

Definition ret {A : Type} (a : A) : M A := (Return a, []).
Definition throw {A : Type} : M A := (TypeError, []).
Definition print (c : console) : M unit := (Return tt, [c]).

Definition bind {A B : Type} (m : M A) (f : A -> M B) : M B :=
  match m with
  | (Return a, out) => let (r, out') := f a in (r, out ++ out')
  | (TypeError, out) => (TypeError, out)
  | (OutOfFuel, out) => (OutOfFuel, out)
  end.

(** [while (cond) body], at most [fuel] tests of the condition. *)
Fixpoint while {S : Type} (fuel : nat) (cond : S -> M bool)
    (body : S -> M S) (s : S) : M S :=
  match fuel with
  | O => (OutOfFuel, [])
  | Datatypes.S fuel' =>
      bind (cond s) (fun b =>
        if b then bind (body s) (while fuel' cond body) else ret s)
  end.

(** [for (x of l) body], threading the state. *)
Fixpoint for_each {S T : Type} (l : list T) (body : S -> T -> M S)
    (s : S) : M S :=
  match l with
  | [] => ret s
  | t :: l' => bind (body s t) (for_each l' body)
  end.

(** A loop on one number with a pure test and a pure body. *)
Definition while_num (fuel : nat) (cond : R -> bool) (body : R -> R)
    (v : R) : M R :=
  while fuel (fun v => ret (cond v)) (fun v => ret (body v)) v.

(** A computation that takes fuel converges to [r] when every large
    enough amount of fuel gives [r]. *)
Definition converges {A : Type} (m : nat -> M A) (r : M A) : Prop :=
  exists n : nat, forall fuel : nat, (n <= fuel)%nat -> m fuel = r.

(** It terminates when it converges to a value. *)
Definition terminates {A : Type} (m : nat -> M A) : Prop :=
  exists (a : A) (out : list console), converges m (Return a, out).

(** It halts when it converges to a result: a value or a [TypeError],
    whatever the fuel above some amount. *)
Definition halts {A : Type} (m : nat -> M A) : Prop :=
  exists r : M A, fst r <> OutOfFuel /\ converges m r.

End Effect.

Import Effect.

Notation "x <- m ;; k" := (bind m (fun x => k))
  (at level 100, m at next level, right associativity).
Notation "m ;;; k" := (bind m (fun _ => k))
  (at level 100, right associativity).

(** ** satmap.ts *)

Module Satmap.

Import Locator.

Definition de2ra : R := PI / 180.

(** Earth radius km *)
Definition xkmper : R := 6378.135.

Record Sat : Type := mk_sat {
  ssplat : R;
  ssplon : R;
  footprint : R
}.

Record SatMap : Type := mk_satmap {
  left_side_lon : R;
  width : R;
  height : R;
  x0 : R;
  y0 : R
}.

Record XY : Type := mk_xy { x : R; y : R }.

(** *** Arrays of points

    An array is a list.  Each element of the arrays of this file is
    an object of its own (every slot of [points1] is assigned a fresh
    [{x, y}], and [split_points] copies each of them to one place
    only), so writing a property of one element changes no other
    element, and the elements are plain values here.  A read
    [a[i].x] outside the array is a property read on [undefined].
    A write [a[i] = v] is the insertion of stdpp; the program writes
    so only at indices below 360 of an array of 360 elements, where
    the array is not extended. *)

Definition get (a : list XY) (i : Z) : M XY :=
  if (i <? 0)%Z then throw
  else match a !! Z.to_nat i with
       | Some p => ret p
       | None => throw
       end.

(** [a[i].x = v] and [a[i].y = v] *)
Definition set_x (a : list XY) (i : Z) (v : R) : M (list XY) :=
  p <- get a i ;; ret (<[Z.to_nat i := mk_xy v (y p)]> a).

Definition set_y (a : list XY) (i : Z) (v : R) : M (list XY) :=
  p <- get a i ;; ret (<[Z.to_nat i := mk_xy (x p) v]> a).

(** [a.sort (compare)] with [compare (a, b) = key a - key b]: the
    sort of the language is stable, and on keys that are real
    numbers this is what insertion in front of the first element
    that is not smaller computes. *)
Fixpoint insert_by (key : XY -> R) (p : XY) (a : list XY) : list XY :=
  match a with
  | [] => [p]
  | q :: a' =>
      if key p <=? key q then p :: q :: a' else q :: insert_by key p a'
  end.

Fixpoint sort_by (key : XY -> R) (a : list XY) : list XY :=
  match a with
  | [] => []
  | p :: a' => insert_by key p (sort_by key a')
  end.

Definition goo_canvas_points_new (n : nat) : list XY :=
  replicate n (mk_xy 0 0).

(** [Math.abs (num / dem) > 1.0].  With a zero divisor the quotient
    of the language is an infinity, above 1, unless [num] is zero
    too: then it is NaN, and the test fails. *)
Definition abs_quotient_above_1 (num dem : R) : bool :=
  if dem ==? 0 then num !=? 0 else Rabs (num / dem) >? 1.

(** *** The functions of the file *)

(** Check whether the footprint covers the North pole. *)
Definition north_pole_is_covered (sat : Sat) : M bool :=
  let res := qrb (ssplon sat) (ssplat sat) 0 90 in
  (match Locator.res res with
   | RIG_OK => ret tt
   | RIG_EINVAL =>
       print (console_error "Bad data measuring distance to North Pole"
                (ssplon sat) (ssplat sat))
   end) ;;;
  ret (distance res <=? 0.5 * footprint sat).

(** Check whether the footprint covers the South pole. *)
Definition south_pole_is_covered (sat : Sat) : M bool :=
  let res := qrb (ssplon sat) (ssplat sat) 0 (-90) in
  (match Locator.res res with
   | RIG_OK => ret tt
   | RIG_EINVAL =>
       print (console_error "Bad data measuring distance to South Pole"
                (ssplon sat) (ssplat sat))
   end) ;;;
  ret (distance res <=? 0.5 * footprint sat).

(** Check whether the footprint covers the North or South pole. *)
Definition pole_is_covered (sat : Sat) : M bool :=
  north <- north_pole_is_covered sat ;;
  if north then ret true else south_pole_is_covered sat.

Definition arccos (x y : R) : R :=
  if (x !=? 0) && (y !=? 0) then
    if y >? 0 then acos (x / y)
    else if y <? 0 then PI + acos (x / y)
    else 0
  else 0.

(** Assumes that -180 <= lon <= 180 and -90 <= lat <= 90 *)
Definition lonlat_to_xy (fuel : nat) (p : SatMap) (lon lat : R) : M (R * R) :=
  let x := x0 p + (lon - left_side_lon p) * width p / 360 in
  let y := y0 p + (90 - lat) * height p / 180 in
  x <- while_num fuel (fun x => x <? 0) (fun x => x + width p) x ;;
  x <- while_num fuel (fun x => x >? width p) (fun x => x - width p) x ;;
  ret (x, y).

(** Sort points according to X coordinates. *)
Definition sort_points_x (satmap : SatMap) (sat : Sat) (points : list XY)
    : M (list XY) :=
  let points := sort_by x points in
  let len := Z.of_nat (length points) in
  (* move point at position 0 to position 1 *)
  p0 <- get points 0 ;;
  let points := <[1%nat := mk_xy (x0 satmap) (y p0)]> points in
  (* move point at position N to position N-1 *)
  points <- set_x points (len - 2) (x0 satmap + width satmap) ;;
  pN <- get points (len - 1) ;;
  points <- set_y points (len - 2) (y pN) ;;
  if ssplat sat >? 0 then
    points <- set_x points 0 (x0 satmap) ;;
    points <- set_y points 0 (y0 satmap) ;;
    points <- set_x points (len - 1) (x0 satmap + width satmap) ;;
    set_y points (len - 1) (y0 satmap)
  else
    points <- set_x points 0 (x0 satmap) ;;
    points <- set_y points 0 (y0 satmap + height satmap) ;;
    points <- set_x points (len - 1) (x0 satmap + width satmap) ;;
    set_y points (len - 1) (y0 satmap + height satmap).

(** Sort points according to Y coordinates. *)
Definition sort_points_y (satmap : SatMap) (sat : Sat) (points : list XY)
    : list XY :=
  sort_by y points.

(** The test of [mirror_lon] that a longitude is on the left half of
    the map, written out three times in the source. *)
Definition left_of_break (lon mapbreak : R) : bool :=
  ((lon >=? mapbreak) && (lon <? mapbreak + 180))
  || ((lon <? mapbreak - 180) && (lon >=? mapbreak - 360)).

(** Mirror the footprint longitude. *)
Definition mirror_lon (fuel : nat) (sat : Sat) (rangelon mapbreak : R)
    : M (bool * R) :=
  (* make it so rangelon is on left of ssplon *)
  let diff := ssplon sat - rangelon in
  diff <- while_num fuel (fun d => d <? 0) (fun d => d + 360) diff ;;
  diff <- while_num fuel (fun d => d >? 360) (fun d => d - 360) diff ;;
  let mlon := ssplon sat + Rabs diff in
  mlon <- while_num fuel (fun m => m >? 180) (fun m => m - 360) mlon ;;
  mlon <- while_num fuel (fun m => m <? -180) (fun m => m + 360) mlon ;;
  let warped :=
    if left_of_break (ssplon sat) mapbreak then
      if left_of_break rangelon mapbreak then false else true
    else
      if left_of_break mlon mapbreak then true else false in
  ret (warped, mlon).

(** The state of the scans of [split_points]: the index [i] and the
    arrays [tps1] and [tps2]. *)
Record scan : Type := mk_scan {
  scan_i : Z;
  scan_tps1 : list XY;
  scan_tps2 : list XY
}.

(** The three procedures of [split_points], and its last step.  The
    counters [n1] and [n2] of the source count the pushes to [tps1] and
    [tps2]: they are the lengths of the two arrays.  Every push reads
    [points1] at an index that the tests before it keep inside the
    array. *)

(** sslon = +/-180 deg.
    - copy points with (x > satmap->x0+satmap->width/2) to tps1
    - copy points with (x < satmap->x0+satmap->width/2) to tps2
    - sort tps1 and tps2 *)
Definition split_on_seam (satmap : SatMap) (sat : Sat) (points1 : list XY)
    : M (list XY * list XY) :=
  let mid := x0 satmap + width satmap / 2 in
  tps <- for_each points1 (fun (tps : list XY * list XY) p =>
           if x p >? mid then ret (fst tps ++ [p], snd tps)
           else ret (fst tps, snd tps ++ [p])) ([], []) ;;
  ret (sort_points_y satmap sat (fst tps),
       sort_points_y satmap sat (snd tps)).

(** We are on the left side of the map.
    Scan through points1 until we get to x > sspx (i=ns):
    - copy the points forwards until x < (x0+w/2) => tps2
    - continue to copy until the end => tps1
    - copy the points from i=0 to i=ns => tps1. *)
Definition split_left_of_center (fuel : nat) (satmap : SatMap)
    (points1 : list XY) : M (list XY * list XY) :=
  let n := Z.of_nat (length points1) in
  let mid := x0 satmap + width satmap / 2 in
  s <- while fuel
         (fun s => p <- get points1 (scan_i s) ;; ret (x p <=? mid))
         (fun s => ret (mk_scan (scan_i s + 1) (scan_tps1 s) (scan_tps2 s)))
         (mk_scan 0 [] []) ;;
  let ns := (scan_i s - 1)%Z in
  s <- while fuel
         (fun s => p <- get points1 (scan_i s) ;; ret (x p >? mid))
         (fun s => p <- get points1 (scan_i s) ;;
                   ret (mk_scan (scan_i s + 1) (scan_tps1 s)
                          (scan_tps2 s ++ [p])))
         s ;;
  s <- while fuel
         (fun s => ret (scan_i s <? n)%Z)
         (fun s => p <- get points1 (scan_i s) ;;
                   ret (mk_scan (scan_i s + 1) (scan_tps1 s ++ [p])
                          (scan_tps2 s)))
         s ;;
  s <- while fuel
         (fun s => ret (scan_i s <=? ns)%Z)
         (fun s => p <- get points1 (scan_i s) ;;
                   ret (mk_scan (scan_i s + 1) (scan_tps1 s ++ [p])
                          (scan_tps2 s)))
         (mk_scan 0 (scan_tps1 s) (scan_tps2 s)) ;;
  ret (scan_tps1 s, scan_tps2 s).

(** We are on the right side of the map.
    Scan backwards through points1 until x < sspx (i=ns):
    - copy the points i=ns,i-- until x >= x0+w/2  => tps2
    - copy the points until we reach i=0          => tps1
    - copy the points from i=n to i=ns            => tps1 *)
Definition split_right_of_center (fuel : nat) (satmap : SatMap)
    (points1 : list XY) : M (list XY * list XY) :=
  let n := Z.of_nat (length points1) in
  let mid := x0 satmap + width satmap / 2 in
  s <- while fuel
         (fun s => p <- get points1 (scan_i s) ;; ret (x p >=? mid))
         (fun s => ret (mk_scan (scan_i s - 1) (scan_tps1 s) (scan_tps2 s)))
         (mk_scan (n - 1) [] []) ;;
  let ns := (scan_i s + 1)%Z in
  s <- while fuel
         (fun s => p <- get points1 (scan_i s) ;; ret (x p <? mid))
         (fun s => p <- get points1 (scan_i s) ;;
                   ret (mk_scan (scan_i s - 1) (scan_tps1 s)
                          (scan_tps2 s ++ [p])))
         s ;;
  s <- while fuel
         (fun s => ret (scan_i s >=? 0)%Z)
         (fun s => p <- get points1 (scan_i s) ;;
                   ret (mk_scan (scan_i s - 1) (scan_tps1 s ++ [p])
                          (scan_tps2 s)))
         s ;;
  s <- while fuel
         (fun s => ret (scan_i s >=? ns)%Z)
         (fun s => p <- get points1 (scan_i s) ;;
                   ret (mk_scan (scan_i s - 1) (scan_tps1 s ++ [p])
                          (scan_tps2 s)))
         (mk_scan (n - 1) (scan_tps1 s) (scan_tps2 s)) ;;
  ret (scan_tps1 s, scan_tps2 s).

(** free points and copy new contents; stretch end points to map
    borders *)
Definition stretch_end_points (satmap : SatMap) (tps : list XY * list XY)
    : M (list XY * list XY) :=
  let mid := x0 satmap + width satmap / 2 in
  let n1 := Z.of_nat (length (fst tps)) in
  let n2 := Z.of_nat (length (snd tps)) in
  let points1 := take (Z.to_nat n1) (fst tps) in
  let points2 := take (Z.to_nat n2) (snd tps) in
  p <- get points1 0 ;;
  if x p >? mid then
    points1 <- set_x points1 0 (x0 satmap + width satmap) ;;
    points1 <- set_x points1 (n1 - 1) (x0 satmap + width satmap) ;;
    points2 <- set_x points2 0 (x0 satmap) ;;
    points2 <- set_x points2 (n2 - 1) (x0 satmap) ;;
    ret (points1, points2)
  else
    points2 <- set_x points2 0 (x0 satmap + width satmap) ;;
    points2 <- set_x points2 (n2 - 1) (x0 satmap + width satmap) ;;
    points1 <- set_x points1 0 (x0 satmap) ;;
    points1 <- set_x points1 (n1 - 1) (x0 satmap) ;;
    ret (points1, points2).

(** Split and sort polyline points. *)
Definition split_points (fuel : nat) (satmap : SatMap) (sat : Sat)
    (sspx : R) (points1 : list XY) : M (list XY * list XY) :=
  tps <-
    (if (ssplon sat >=? 179.4) || (ssplon sat <=? -179.4) then
       print (console_log "split 1") ;;;
       split_on_seam satmap sat points1
     else if sspx <? (x0 satmap + width satmap / 2) then
       print (console_log "split 2") ;;;
       split_left_of_center fuel satmap points1
     else
       print (console_log "split 3") ;;;
       split_right_of_center fuel satmap points1) ;;
  stretch_end_points satmap tps.

(** What one turn of the loop of [calculate_footprint] computes on
    the azimuth [azi]: the flag [warpedT], the point [(sx, sy)] and
    its mirror [(msx, msy)]. *)
Record sample : Type := mk_sample {
  warpedT : bool;
  point : XY;
  mirror : XY
}.

Definition footprint_sample (fuel : nat) (satmap : SatMap) (sat : Sat)
    (azi : nat) : M sample :=
  let ssplat := ssplat sat * de2ra in
  let ssplon := ssplon sat * de2ra in
  let beta := (0.5 * footprint sat) / xkmper in
  let azimuth := de2ra * INR azi in
  let rangelat := asin (sin ssplat * cos beta
                        + cos azimuth * sin beta * cos ssplat) in
  let num := cos beta - sin ssplat * sin rangelat in
  let dem := cos ssplat * cos rangelat in
  north <- (if (azi =? 0)%nat then north_pole_is_covered sat
            else ret false) ;;
  let rangelon :=
    if north then ssplon + PI
    else if abs_quotient_above_1 num dem then ssplon
    else if 180 - INR azi >=? 0 then ssplon - arccos num dem
    else ssplon + arccos num dem in
  rangelon <- while_num fuel (fun r => r <? - PI) (fun r => r + PI * 2)
                rangelon ;;
  rangelon <- while_num fuel (fun r => r >? PI) (fun r => r - PI * 2)
                rangelon ;;
  let rangelat := rangelat / de2ra in
  let rangelon := rangelon / de2ra in
  (* mirror longitude *)
  wm <- mirror_lon fuel sat rangelon (left_side_lon satmap) ;;
  let mlon := snd wm in
  s <- lonlat_to_xy fuel satmap rangelon rangelat ;;
  ms <- lonlat_to_xy fuel satmap mlon rangelat ;;
  ret (mk_sample (fst wm) (mk_xy (fst s) (snd s)) (mk_xy (fst ms) (snd ms))).

(** The turn itself: the state is the array [points1] and the flag
    [warped]. *)
Definition footprint_step (fuel : nat) (satmap : SatMap) (sat : Sat)
    (st : list XY * bool) (azi : nat) : M (list XY * bool) :=
  r <- footprint_sample fuel satmap sat azi ;;
  let warped := snd st || warpedT r in
  let points1 := <[azi := point r]> (fst st) in
  (* Add mirrored point *)
  let points1 := <[(359 - azi)%nat := mirror r]> points1 in
  ret (points1, warped).

(** The loop [for (azi = 0; azi < 180; azi++)]. *)
Definition footprint_points (fuel : nat) (satmap : SatMap) (sat : Sat)
    : M (list XY * bool) :=
  for_each (seq 0 180) (footprint_step fuel satmap sat)
    (goo_canvas_points_new 360, false).

(** Calculate satellite footprint and coverage area. *)
Definition calculate_footprint (fuel : nat) (satmap : SatMap) (sat : Sat)
    : M (list XY * list XY) :=
  let points2 := [] in
  st <- footprint_points fuel satmap sat ;;
  let points1 := fst st in
  let warped := snd st in
  (* points1 now contains 360 pairs of map-based XY coordinates.
     Check whether actions 1, 2 or 3 have to be performed. *)
  covered <- pole_is_covered sat ;;
  if covered then
    (* pole is covered => sort points1 and add additional points *)
    points1 <- sort_points_x satmap sat points1 ;;
    ret (points1, points2)
  else if warped then
    (* pole not covered but range circle has been warped => split points *)
    print (console_log "WARPED") ;;;
    ss <- lonlat_to_xy fuel satmap (ssplon sat) (ssplat sat) ;;
    split_points fuel satmap sat (fst ss) points1
  else
    (* the nominal condition => points1 is adequate *)
    ret (points1, points2).

(** *** Vocabulary of the statements about the polylines *)

(** The two warnings of the pole tests. *)
Definition north_warning (sat : Sat) : console :=
  console_error "Bad data measuring distance to North Pole"
    (ssplon sat) (ssplat sat).

Definition south_warning (sat : Sat) : console :=
  console_error "Bad data measuring distance to South Pole"
    (ssplon sat) (ssplat sat).

(** The map of [App.tsx], on a viewport of 720 by 360, and the same map
    drawn from the origin x0 = 1000. *)
Definition app_map : SatMap := mk_satmap (-180) 720 360 0 0.
Definition shifted_map : SatMap := mk_satmap (-180) 720 360 1000 0.

(** The y of the two corner anchors of [sort_points_x]: the top of
    the map when the sub-satellite latitude is positive, the bottom
    otherwise. *)
Definition corner_y (satmap : SatMap) (sat : Sat) : R :=
  if ssplat sat >? 0 then y0 satmap else y0 satmap + height satmap.

(** A polyline whose x never decreases along the points. *)
Definition nondecreasing_x (a : list XY) : Prop :=
  forall (i j : nat) (p q : XY),
    (i <= j)%nat -> a !! i = Some p -> a !! j = Some q -> x p <= x q.

(** A polyline whose first and last points have the x [v]. *)
Definition pinned (a : list XY) (v : R) : Prop :=
  exists first_point last_point : XY,
    a !! 0%nat = Some first_point /\
    a !! (length a - 1)%nat = Some last_point /\
    x first_point = v /\ x last_point = v.

(** What [calculate_footprint] does with the sampled array in each of
    its three branches. *)
Definition pole_covered_branch (satmap : SatMap) (sat : Sat)
    (st : list XY * bool) : M (list XY * list XY) :=
  points1 <- sort_points_x satmap sat (fst st) ;;
  ret (points1, []).

Definition warped_branch (fuel : nat) (satmap : SatMap) (sat : Sat)
    (st : list XY * bool) : M (list XY * list XY) :=
  print (console_log "WARPED") ;;;
  ss <- lonlat_to_xy fuel satmap (ssplon sat) (ssplat sat) ;;
  split_points fuel satmap sat (fst ss) (fst st).

Definition nominal_branch (st : list XY * bool) : M (list XY * list XY) :=
  ret (fst st, []).

(** A point on the map: inside the rectangle from (x0, y0) to
    (x0 + width, y0 + height). *)
Definition in_map (satmap : SatMap) (q : XY) : Prop :=
  x0 satmap <= x q <= x0 satmap + width satmap /\
  y0 satmap <= y q <= y0 satmap + height satmap.

(** Two polylines that differ at most by the x of their first and of
    their last point. *)
Definition same_but_ends (a b : list XY) : Prop :=
  map y a = map y b /\
  forall i : nat, (0 < i)%nat -> (i + 1 < length a)%nat -> a !! i = b !! i.

End Satmap.

(** ** App.tsx *)

Module App.

Import Locator Satmap.

(** *** The component [Footprint] *)

(** A point of a polyline as a vertex of a line of the scene: the
    origin of the scene is the centre of the viewport, of width [w] and
    height [h], and its y axis points upwards. *)
Definition to_line (w h : R) (points : list XY) : list (R * R) :=
  map (fun p => (x p - w / 2, h / 2 - y p)) points.

(** The lines that [Footprint] draws, each as the list of its
    vertices: a polyline is drawn when it is not empty. *)
Definition Footprint (fuel : nat) (w h : R) (dlon dlat footprint : R)
    : M (list (list (R * R))) :=
  let satmap := mk_satmap (-180) w h 0 0 in
  let sat := mk_sat dlat dlon footprint in
  pointss <- calculate_footprint fuel satmap sat ;;
  let line1 := to_line w h (fst pointss) in
  let line2 := to_line w h (snd pointss) in
  ret ((if Nat.ltb 0 (length line1) then [line1] else []) ++
       (if Nat.ltb 0 (length line2) then [line2] else [])).

(** *** The component [Grid] *)

(** A line of the grid, from one vertex to the other, and a label: its
    position and the number it shows.  The third coordinate of every
    position of [Grid] is 0, and is left out. *)
Record line : Type := mk_line { line_from : R * R; line_to : R * R }.




(** *** The animation of [Map] *)

Record LatLon : Type := mk_latlon { lat : R; lon : R }.

(** The two states of [Map]. *)
Record MapState : Type := mk_map_state {
  position : LatLon;
  direction : LatLon
}.

Definition initial : MapState :=
  mk_map_state (mk_latlon 0 0) (mk_latlon 1 1).

(** The function that a tick of the interval gives to [setPosition],
    with the [direction] it was created with: the new position. *)
Definition newPosition (direction prevPosition : LatLon) : LatLon :=
  let newPosition :=
    mk_latlon (lat prevPosition + lat direction)
      (lon prevPosition + lon direction) in
  if lon newPosition <=? -180 then
    mk_latlon (lat newPosition) (lon newPosition + 360)
  else if lon newPosition >=? 180 then
    mk_latlon (lat newPosition) (lon newPosition - 360)
  else newPosition.

(** Reverse direction if the ball hits the edge of the screen: whether
    that function asks for it. *)
Definition hits_edge (direction prevPosition : LatLon) : bool :=
  let newPosition :=
    mk_latlon (lat prevPosition + lat direction)
      (lon prevPosition + lon direction) in
  (lat newPosition <=? -80) || (lat newPosition >=? 80).

(** The function given to [setDirection]. *)
Definition reverse (prevDirection : LatLon) : LatLon :=
  mk_latlon (- lat prevDirection) (lon prevDirection).

(** One tick of the interval on the two states: the position is
    updated with the direction of the state, and the direction is
    reversed when the update asks for it, before the next tick. *)
Definition tick (s : MapState) : MapState :=
  mk_map_state (newPosition (direction s) (position s))
    (if hits_edge (direction s) (position s) then reverse (direction s)
     else direction s).

(** The state after [n] ticks. *)
Definition frame (n : nat) : MapState := Nat.iter n tick initial.

(** The footprint that [Map] draws in a state, on a viewport of width
    [w] and height [h]. *)
Definition Map_footprint (fuel : nat) (w h : R) (s : MapState)
    : M (list (list (R * R))) :=
  Footprint fuel w h (lon (position s)) (lat (position s)) 2000.

(** *** Vocabulary *)

(** The place in the scene of a point of longitude [lon] and of
    latitude [lat]: the centre of the viewport is the point (0, 0), and
    the North is upwards. *)
Definition scene (w h : R) (lon lat : R) : R * R :=
  (lon * w / 360, lat * h / 180).



(** A vertex inside the viewport. *)
Definition in_viewport (w h : R) (v : R * R) : Prop :=
  - (w / 2) <= fst v <= w / 2 /\ - (h / 2) <= snd v <= h / 2.

End App.

(** * Properties *)

Import Locator Satmap.

(** ** Comparisons *)

Lemma gtb_true (a b : R) : (a >? b) = true <-> a > b.
Proof. unfold Js.gtb; destruct (Rgt_dec a b); split; intros; try easy; lra. Qed.

Lemma gtb_false (a b : R) : (a >? b) = false <-> a <= b.
Proof. unfold Js.gtb; destruct (Rgt_dec a b); split; intros; try easy; lra. Qed.

Lemma ltb_true (a b : R) : (a <? b) = true <-> a < b.
Proof. unfold Js.ltb; destruct (Rlt_dec a b); split; intros; try easy; lra. Qed.

Lemma ltb_false (a b : R) : (a <? b) = false <-> b <= a.
Proof. unfold Js.ltb; destruct (Rlt_dec a b); split; intros; try easy; lra. Qed.

Lemma geb_true (a b : R) : (a >=? b) = true <-> a >= b.
Proof. unfold Js.geb; destruct (Rge_dec a b); split; intros; try easy; lra. Qed.

Lemma geb_false (a b : R) : (a >=? b) = false <-> a < b.
Proof. unfold Js.geb; destruct (Rge_dec a b); split; intros; try easy; lra. Qed.

Lemma leb_true (a b : R) : (a <=? b) = true <-> a <= b.
Proof. unfold Js.leb; destruct (Rle_dec a b); split; intros; try easy; lra. Qed.

Lemma leb_false (a b : R) : (a <=? b) = false <-> b < a.
Proof. unfold Js.leb; destruct (Rle_dec a b); split; intros; try easy; lra. Qed.

Lemma eqb_true (a b : R) : (a ==? b) = true <-> a = b.
Proof. unfold Js.eqb; destruct (Req_dec_T a b); split; intros; easy. Qed.

Lemma eqb_false (a b : R) : (a ==? b) = false <-> a <> b.
Proof. unfold Js.eqb; destruct (Req_dec_T a b); split; intros; easy. Qed.

(** Decide every comparison in sight and move its meaning to the context. *)
Ltac js_cmp :=
  repeat match goal with
  | |- context [?a >? ?b] =>
      let E := fresh "E" in
      destruct (a >? b) eqn:E;
      [apply gtb_true in E | apply gtb_false in E]
  | |- context [?a <? ?b] =>
      let E := fresh "E" in
      destruct (a <? b) eqn:E;
      [apply ltb_true in E | apply ltb_false in E]
  | |- context [?a >=? ?b] =>
      let E := fresh "E" in
      destruct (a >=? b) eqn:E;
      [apply geb_true in E | apply geb_false in E]
  | |- context [?a <=? ?b] =>
      let E := fresh "E" in
      destruct (a <=? b) eqn:E;
      [apply leb_true in E | apply leb_false in E]
  | |- context [?a ==? ?b] =>
      let E := fresh "E" in
      destruct (a ==? b) eqn:E;
      [apply eqb_true in E | apply eqb_false in E]
  end.

(** ** The validation of [qrb] *)

Lemma out_of_range_true (lon1 lat1 lon2 lat2 : R) :
  out_of_range lon1 lat1 lon2 lat2 = true <->
  (lat1 > 90 \/ lat1 < -90) \/ (lat2 > 90 \/ lat2 < -90) \/
  (lon1 > 180 \/ lon1 < -180) \/ (lon2 > 180 \/ lon2 < -180).
Proof.
  unfold out_of_range. js_cmp; simpl; split; intros H; try easy; try lra; tauto.
Qed.

Lemma out_of_range_false (lon1 lat1 lon2 lat2 : R) :
  out_of_range lon1 lat1 lon2 lat2 = false <->
  valid_lat lat1 /\ valid_lat lat2 /\ valid_lon lon1 /\ valid_lon lon2.
Proof.
  unfold out_of_range, valid_lat, valid_lon.
  js_cmp; simpl; split; intros H; try easy; lra.
Qed.

(** [qrb] behind its two guards. *)
Lemma qrb_guard (lon1 lat1 lon2 lat2 : R) :
  qrb lon1 lat1 lon2 lat2 =
  if out_of_range lon1 lat1 lon2 lat2 then mk_qrb RIG_EINVAL 0 0
  else
    let la1 := off_pole lat1 / RADIAN in
    let lo1 := lon1 / RADIAN in
    let la2 := off_pole lat2 / RADIAN in
    let lo2 := lon2 / RADIAN in
    let tmp := cos_arc lo1 la1 lo2 la2 in
    if tmp >? 0.999999999999999 then mk_qrb RIG_OK 0 0
    else if tmp <? -0.999999 then mk_qrb RIG_OK (180 * ARC_IN_KM) 0
    else
      let az := RADIAN * (Js.rem (Js.atan2 (sin (lo1 - lo2) * cos la2)
                  (cos la1 * sin la2 - sin la1 * cos la2 * cos (lo1 - lo2))) 2 * PI) in
      let d := ARC_IN_KM * RADIAN * acos tmp in
      if lo1 >? lo2 then mk_qrb RIG_OK d (- (az - 360))
      else if az >=? 0 then mk_qrb RIG_OK d az
      else mk_qrb RIG_OK d (- az).
Proof.
  unfold qrb, out_of_range.
  destruct ((lat1 >? 90) || (lat1 <? -90) || ((lat2 >? 90) || (lat2 <? -90))); simpl; [reflexivity|].
  destruct ((lon1 >? 180) || (lon1 <? -180) || ((lon2 >? 180) || (lon2 <? -180))); reflexivity.
Qed.

(** C3. [qrb] answers [RIG_EINVAL], with distance 0 and azimuth 0,
    exactly when a latitude is outside [-90, 90] or a longitude is
    outside [-180, 180]; on every other input it answers [RIG_OK]. *)
Theorem qrb_einval_iff (lon1 lat1 lon2 lat2 : R) :
  let r := qrb lon1 lat1 lon2 lat2 in
  let outside :=
    (lat1 > 90 \/ lat1 < -90) \/ (lat2 > 90 \/ lat2 < -90) \/
    (lon1 > 180 \/ lon1 < -180) \/ (lon2 > 180 \/ lon2 < -180) in
  (res r = RIG_EINVAL /\ distance r = 0 /\ azimuth r = 0 <-> outside) /\
  (res r = RIG_OK <-> ~ outside).
Proof.
  intros r outside. subst r outside.
  rewrite <- out_of_range_true, qrb_guard.
  destruct (out_of_range lon1 lat1 lon2 lat2); cbv zeta.
  - simpl. split; split; intros; try easy.
  - repeat match goal with
           | |- context [if ?c then _ else _] => destruct c
           end; simpl; (split; split; intros H; try easy; destruct H; easy).
Qed.

(** ** Degrees and radians *)

(** Two terms of Machin's series are enough for every bound below. *)
Lemma PI_bounds : 3.13 < PI < 3.24.
Proof.
  pose proof (PI_2_3_7_ineq 0) as [Hl Hu].
  unfold sum_f_R0, tg_alt, PI_2_3_7_tg, Ratan_seq in Hl, Hu.
  simpl in Hl, Hu. lra.
Qed.

Lemma RADIAN_pos : 0 < RADIAN.
Proof. unfold RADIAN. pose proof PI_bounds. apply Rdiv_lt_0_compat; lra. Qed.

Lemma div_RADIAN (x : R) : x / RADIAN = x * PI / 180.
Proof. unfold RADIAN. pose proof PI_bounds. field. lra. Qed.

Lemma off_pole_id (lat : R) : lat <> 90 -> lat <> -90 -> off_pole lat = lat.
Proof. intros H1 H2. unfold off_pole. js_cmp; lra. Qed.

Lemma out_of_range_sym (lon1 lat1 lon2 lat2 : R) :
  out_of_range lon2 lat2 lon1 lat1 = out_of_range lon1 lat1 lon2 lat2.
Proof.
  unfold out_of_range.
  destruct (lat1 >? 90), (lat1 <? -90), (lat2 >? 90), (lat2 <? -90),
    (lon1 >? 180), (lon1 <? -180), (lon2 >? 180), (lon2 <? -180); reflexivity.
Qed.

Lemma cos_arc_sym (lon1 lat1 lon2 lat2 : R) :
  cos_arc lon2 lat2 lon1 lat1 = cos_arc lon1 lat1 lon2 lat2.
Proof.
  unfold cos_arc.
  replace (lon1 - lon2) with (- (lon2 - lon1)) by ring.
  rewrite cos_neg. ring.
Qed.

Lemma cos_arc_same (lon lat : R) : cos_arc lon lat lon lat = 1.
Proof.
  unfold cos_arc. replace (lon - lon) with 0 by ring. rewrite cos_0.
  pose proof (sin2_cos2 lat) as H. unfold Rsqr in H. lra.
Qed.

(** The distance of [qrb] does not depend on the azimuth branch. *)
Lemma qrb_distance (lon1 lat1 lon2 lat2 : R) :
  distance (qrb lon1 lat1 lon2 lat2) =
  if out_of_range lon1 lat1 lon2 lat2 then 0
  else
    let tmp := cos_arc (lon1 / RADIAN) (off_pole lat1 / RADIAN)
                 (lon2 / RADIAN) (off_pole lat2 / RADIAN) in
    if tmp >? 0.999999999999999 then 0
    else if tmp <? -0.999999 then 180 * ARC_IN_KM
    else ARC_IN_KM * RADIAN * acos tmp.
Proof.
  rewrite qrb_guard. cbv zeta.
  repeat match goal with
         | |- context [if ?c then _ else _] => destruct c
         end; reflexivity.
Qed.

(** C8. For valid coordinates the distance of [qrb] is the same in
    both directions: from A to B and from B to A. *)
Theorem qrb_distance_symmetric (lon1 lat1 lon2 lat2 : R) :
  valid_lat lat1 -> valid_lon lon1 -> valid_lat lat2 -> valid_lon lon2 ->
  distance (qrb lon1 lat1 lon2 lat2) = distance (qrb lon2 lat2 lon1 lat1).
Proof.
  intros _ _ _ _.
  rewrite !qrb_distance, out_of_range_sym. cbv zeta.
  now rewrite cos_arc_sym.
Qed.

Lemma qrb_distance_symmetric_witness :
  distance (qrb 10 20 (-30) 40) = distance (qrb (-30) 40 10 20).
Proof.
  apply (qrb_distance_symmetric 10 20 (-30) 40);
    unfold valid_lat, valid_lon; lra.
Defined.

(** C9. When the cosine of the arc is below the antipodal threshold
    -0.999999, [qrb] answers [RIG_OK] with the distance
    180 * 111.2 = 20016 km and the azimuth 0. *)
Theorem qrb_antipodal (lon1 lat1 lon2 lat2 : R) :
  valid_lat lat1 -> valid_lon lon1 -> valid_lat lat2 -> valid_lon lon2 ->
  cos_arc (lon1 / RADIAN) (off_pole lat1 / RADIAN)
    (lon2 / RADIAN) (off_pole lat2 / RADIAN) < -0.999999 ->
  qrb lon1 lat1 lon2 lat2 = mk_qrb RIG_OK 20016 0 /\
  180 * ARC_IN_KM = 20016.
Proof.
  intros Ha1 Ho1 Ha2 Ho2 Hc.
  assert (Hd : 180 * ARC_IN_KM = 20016) by (unfold ARC_IN_KM; lra).
  split; [|exact Hd].
  rewrite qrb_guard.
  replace (out_of_range lon1 lat1 lon2 lat2) with false
    by (symmetry; apply out_of_range_false; auto).
  cbv zeta.
  destruct (_ >? _) eqn:E1; [apply gtb_true in E1; lra|].
  destruct (_ <? _) eqn:E2; [|apply ltb_false in E2; lra].
  now rewrite Hd.
Qed.

(** The exact antipodal pair (0,0) and (180,0). *)
Lemma qrb_antipodal_witness :
  qrb 0 0 180 0 = mk_qrb RIG_OK 20016 0 /\ 180 * ARC_IN_KM = 20016.
Proof.
  apply (qrb_antipodal 0 0 180 0); unfold valid_lat, valid_lon; try lra.
  rewrite off_pole_id by lra.
  rewrite !div_RADIAN. unfold cos_arc.
  replace (0 * PI / 180) with 0 by lra.
  replace (180 * PI / 180 - 0) with PI by lra.
  rewrite sin_0, cos_0, cos_PI. lra.
Defined.

(** C10. A valid point given twice: [qrb] answers [RIG_OK] with
    distance 0 and azimuth 0, through the coincidence threshold. *)
Theorem qrb_same_point (lon lat : R) :
  valid_lat lat -> valid_lon lon ->
  cos_arc (lon / RADIAN) (off_pole lat / RADIAN)
    (lon / RADIAN) (off_pole lat / RADIAN) > 0.999999999999999 /\
  qrb lon lat lon lat = mk_qrb RIG_OK 0 0.
Proof.
  intros Ha Ho.
  assert (Hc : cos_arc (lon / RADIAN) (off_pole lat / RADIAN)
                 (lon / RADIAN) (off_pole lat / RADIAN) > 0.999999999999999)
    by (rewrite cos_arc_same; lra).
  split; [exact Hc|].
  rewrite qrb_guard.
  replace (out_of_range lon lat lon lat) with false
    by (symmetry; apply out_of_range_false; auto).
  cbv zeta.
  destruct (_ >? _) eqn:E1; [reflexivity | apply gtb_false in E1; lra].
Qed.

(** The north pole itself, which [qrb] first moves off the pole. *)
Lemma qrb_same_point_witness :
  cos_arc (0 / RADIAN) (off_pole 90 / RADIAN)
    (0 / RADIAN) (off_pole 90 / RADIAN) > 0.999999999999999 /\
  qrb 0 90 0 90 = mk_qrb RIG_OK 0 0.
Proof.
  apply (qrb_same_point 0 90); unfold valid_lat, valid_lon; lra.
Defined.

(** ** The azimuth of [qrb] *)

Lemma trunc_small (x : R) : -1 < x < 1 -> Js.trunc x = 0%Z.
Proof.
  intros H. unfold Js.trunc.
  destruct (Rle_dec 0 x).
  - symmetry. apply Int_part_spec. simpl. lra.
  - replace (Int_part (- x)) with 0%Z; [reflexivity|].
    apply Int_part_spec. simpl. lra.
Qed.

Lemma rem_small (a b : R) : 0 < b -> - b < a < b -> Js.rem a b = a.
Proof.
  intros Hb H. unfold Js.rem. rewrite trunc_small; [simpl; ring|].
  split.
  - apply Rmult_lt_reg_r with b; [lra|]. unfold Rdiv.
    rewrite Rmult_assoc, Rinv_l by lra. lra.
  - apply Rmult_lt_reg_r with b; [lra|]. unfold Rdiv.
    rewrite Rmult_assoc, Rinv_l by lra. lra.
Qed.

Lemma atan2_neg_zero (y : R) : y < 0 -> Js.atan2 y 0 = - (PI / 2).
Proof.
  intros H. unfold Js.atan2.
  destruct (Rlt_dec 0 0); [lra|].
  destruct (Rlt_dec 0 y); [lra|].
  destruct (Rlt_dec y 0); [reflexivity | lra].
Qed.

(** C2, on the code.  From (180,0) to (-90,0) the points are a quarter
    of a circle apart, neither coincident nor antipodal, and the
    azimuth [qrb] returns is 360 + 90 * PI, above 640 degrees. *)
Theorem qrb_azimuth_above_360 :
  let r := qrb 180 0 (-90) 0 in
  cos_arc (180 / RADIAN) (off_pole 0 / RADIAN)
    (-90 / RADIAN) (off_pole 0 / RADIAN) = 0 /\
  res r = RIG_OK /\ distance r = 10008 /\
  azimuth r = 360 + 90 * PI /\ 640 < azimuth r.
Proof.
  pose proof PI_bounds as HPI.
  assert (Hlo1 : 180 / RADIAN = PI) by (rewrite div_RADIAN; lra).
  assert (Hlo2 : -90 / RADIAN = - (PI / 2)) by (rewrite div_RADIAN; lra).
  assert (Hla : off_pole 0 / RADIAN = 0)
    by (rewrite off_pole_id by lra; rewrite div_RADIAN; lra).
  assert (Hc : cos_arc (180 / RADIAN) (off_pole 0 / RADIAN)
                 (-90 / RADIAN) (off_pole 0 / RADIAN) = 0).
  { rewrite Hlo1, Hlo2, Hla. unfold cos_arc.
    replace (- (PI / 2) - PI) with (- (3 * (PI / 2))) by lra.
    rewrite cos_neg, cos_3PI2, sin_0. lra. }
  cbv zeta. split; [exact Hc|].
  rewrite qrb_guard.
  replace (out_of_range 180 0 (-90) 0) with false
    by (symmetry; apply out_of_range_false;
        unfold valid_lat, valid_lon; lra).
  cbv zeta. rewrite Hc.
  destruct (0 >? _) eqn:E1; [apply gtb_true in E1; lra|].
  destruct (0 <? _) eqn:E2; [apply ltb_true in E2; lra|].
  rewrite Hlo1, Hlo2, Hla.
  destruct (PI >? - (PI / 2)) eqn:E3; [|apply gtb_false in E3; lra].
  replace (PI - - (PI / 2)) with (3 * (PI / 2)) by lra.
  rewrite sin_3PI2, cos_3PI2, sin_0, cos_0.
  replace (1 * 0 - 0 * 1 * 0) with 0 by lra.
  rewrite atan2_neg_zero by lra.
  rewrite rem_small by lra.
  simpl. rewrite acos_0.
  assert (Haz : RADIAN * (- (PI / 2) * PI) = - (90 * PI))
    by (unfold RADIAN; field; lra).
  rewrite Haz.
  repeat split; try reflexivity.
  - assert (H90 : RADIAN * (PI / 2) = 90) by (unfold RADIAN; field; lra).
    rewrite Rmult_assoc, H90. unfold ARC_IN_KM. lra.
  - lra.
  - lra.
Qed.

(** The remainder by 2 lies strictly between -2 and 2. *)
Lemma rem_2_bounds (a : R) : -2 < Js.rem a 2 < 2.
Proof.
  unfold Js.rem, Js.trunc. destruct (Rle_dec 0 (a / 2)) as [Ha | Ha].
  - destruct (base_Int_part (a / 2)) as [H1 H2]. lra.
  - destruct (base_Int_part (- (a / 2))) as [H1 H2].
    rewrite opp_IZR. lra.
Qed.

(** What the code computes instead of an azimuth in [0, 360): a value
    in [0, 720), below 360 when the first longitude is not greater than
    the second. *)
Lemma qrb_azimuth_range (lon1 lat1 lon2 lat2 : R) :
  0 <= azimuth (qrb lon1 lat1 lon2 lat2) < 720 /\
  (lon1 <= lon2 -> azimuth (qrb lon1 lat1 lon2 lat2) < 360).
Proof.
  pose proof PI_bounds as HPI. pose proof RADIAN_pos as HR.
  rewrite qrb_guard.
  destruct (out_of_range _ _ _ _); [simpl; lra|]. cbv zeta.
  destruct (_ >? _); [simpl; lra|].
  destruct (_ <? _); [simpl; lra|].
  set (a := Js.atan2 _ _).
  pose proof (rem_2_bounds a) as Hrem.
  assert (Haz : RADIAN * (Js.rem a 2 * PI) = 180 * Js.rem a 2)
    by (unfold RADIAN; field; lra).
  rewrite Haz.
  destruct (_ >? _) eqn:E1.
  - apply gtb_true in E1. simpl. split; [lra|].
    intros Hle. exfalso.
    assert (lon1 / RADIAN <= lon2 / RADIAN); [|lra].
    unfold Rdiv. apply Rmult_le_compat_r; [|exact Hle].
    apply Rlt_le, Rinv_0_lt_compat, HR.
  - destruct (_ >=? _) eqn:E2; simpl.
    + apply geb_true in E2. lra.
    + apply geb_false in E2. lra.
Qed.

(** ** Computations *)

Lemma bind_ret {A B : Type} (a : A) (f : A -> M B) : bind (ret a) f = f a.
Proof. unfold bind, ret. destruct (f a). reflexivity. Qed.

Lemma bind_Return {A B : Type} (a : A) (out : list console) (f : A -> M B) :
  bind (Return a, out) f = (fst (f a), out ++ snd (f a)).
Proof. unfold bind. destruct (f a). reflexivity. Qed.

Lemma bind_TypeError {A B : Type} (out : list console) (f : A -> M B) :
  bind (TypeError, out) f = (TypeError, out).
Proof. reflexivity. Qed.

Lemma bind_Return_inv {A B : Type} (m : M A) (f : A -> M B) (b : B)
    (out : list console) :
  bind m f = (Return b, out) ->
  exists a o1 o2,
    m = (Return a, o1) /\ f a = (Return b, o2) /\ out = o1 ++ o2.
Proof.
  destruct m as [[a| |] o1]; simpl; try discriminate.
  destruct (f a) as [r o2] eqn:E. intros H. injection H as -> <-.
  now exists a, o1, o2.
Qed.

Lemma converges_const {A : Type} (r : M A) : converges (fun _ => r) r.
Proof. now exists 0%nat. Qed.

Lemma converges_bind {A B : Type} (m : nat -> M A) (f : nat -> A -> M B)
    (a : A) (out : list console) (r : M B) :
  converges m (Return a, out) ->
  converges (fun fuel => f fuel a) r ->
  converges (fun fuel => bind (m fuel) (f fuel)) (fst r, out ++ snd r).
Proof.
  intros [n1 H1] [n2 H2]. exists (Nat.max n1 n2). intros fuel Hf.
  rewrite H1, bind_Return, H2 by lia. reflexivity.
Qed.

Lemma converges_bind_TypeError {A B : Type} (m : nat -> M A)
    (f : nat -> A -> M B) (out : list console) :
  converges m (TypeError, out) ->
  converges (fun fuel => bind (m fuel) (f fuel)) (TypeError, out).
Proof.
  intros [n1 H1]. exists n1. intros fuel Hf. now rewrite H1.
Qed.

Lemma converges_unique {A : Type} (m : nat -> M A) (r r' : M A) :
  converges m r -> converges m r' -> r = r'.
Proof.
  intros [n1 H1] [n2 H2].
  rewrite <- (H1 (Nat.max n1 n2)), <- (H2 (Nat.max n1 n2)) by lia.
  reflexivity.
Qed.

Lemma terminates_const {A : Type} (a : A) (out : list console) :
  terminates (fun _ => (Return a, out)).
Proof. exists a, out. apply converges_const. Qed.

Lemma terminates_bind {A B : Type} (m : nat -> M A) (f : nat -> A -> M B) :
  terminates m ->
  (forall a, terminates (fun fuel => f fuel a)) ->
  terminates (fun fuel => bind (m fuel) (f fuel)).
Proof.
  intros (a & o1 & Hm) Hf. destruct (Hf a) as (b & o2 & Hb).
  exists b, (o1 ++ o2). apply (converges_bind m f a o1 _ Hm Hb).
Qed.

(** *** Loops on one number *)

Lemma while_num_S (fuel : nat) (cond : R -> bool) (body : R -> R) (v : R) :
  while_num (S fuel) cond body v =
  if cond v then while_num fuel cond body (body v) else ret v.
Proof.
  unfold while_num. cbn [while]. rewrite bind_ret.
  destruct (cond v); [now rewrite bind_ret | reflexivity].
Qed.

(** The rule of the invariant: what a loop returns satisfies the
    invariant and fails the test, and a loop prints nothing. *)
Lemma while_num_inv (P : R -> Prop) (fuel : nat) (cond : R -> bool)
    (body : R -> R) (v v' : R) (out : list console) :
  while_num fuel cond body v = (Return v', out) ->
  P v -> (forall u, P u -> cond u = true -> P (body u)) ->
  P v' /\ cond v' = false /\ out = [].
Proof.
  intros H Hv Hstep. revert v H Hv.
  induction fuel as [|fuel IH]; intros v H Hv; [discriminate|].
  rewrite while_num_S in H. destruct (cond v) eqn:E.
  - apply (IH (body v)); auto.
  - injection H as <- <-. auto.
Qed.

Lemma while_num_stop (fuel : nat) (cond : R -> bool) (body : R -> R) (v : R) :
  cond v = false -> (0 < fuel)%nat -> while_num fuel cond body v = ret v.
Proof.
  intros H Hf. destruct fuel; [lia|]. now rewrite while_num_S, H.
Qed.

(** A loop that adds a positive step until a lower bound is reached. *)
Lemma while_add_terminates (lo step v : R) :
  0 < step ->
  terminates (fun fuel =>
    while_num fuel (fun u => u <? lo) (fun u => u + step) v).
Proof.
  intros Hs.
  destruct (INR_archimed step (lo - v) Hs) as [k Hk].
  revert v Hk. induction k as [|k IH]; intros v Hk.
  - exists v, []. exists 1%nat. intros fuel Hf.
    apply while_num_stop; [|lia]. apply ltb_false. simpl in Hk. lra.
  - destruct (v <? lo) eqn:E.
    + destruct (IH (v + step)) as (v' & out & n & Hn).
      { rewrite S_INR in Hk. lra. }
      exists v', out, (S n). intros fuel Hf.
      destruct fuel as [|fuel]; [lia|].
      rewrite while_num_S, E. apply Hn. lia.
    + exists v, []. exists 1%nat. intros fuel Hf.
      now apply while_num_stop; [|lia].
Qed.

(** A loop that subtracts a positive step until an upper bound is reached. *)
Lemma while_sub_terminates (hi step v : R) :
  0 < step ->
  terminates (fun fuel =>
    while_num fuel (fun u => u >? hi) (fun u => u - step) v).
Proof.
  intros Hs.
  destruct (INR_archimed step (v - hi) Hs) as [k Hk].
  revert v Hk. induction k as [|k IH]; intros v Hk.
  - exists v, []. exists 1%nat. intros fuel Hf.
    apply while_num_stop; [|lia]. apply gtb_false. simpl in Hk. lra.
  - destruct (v >? hi) eqn:E.
    + destruct (IH (v - step)) as (v' & out & n & Hn).
      { rewrite S_INR in Hk. lra. }
      exists v', out, (S n). intros fuel Hf.
      destruct fuel as [|fuel]; [lia|].
      rewrite while_num_S, E. apply Hn. lia.
    + exists v, []. exists 1%nat. intros fuel Hf.
      now apply while_num_stop; [|lia].
Qed.

(** *** Loops over a list *)

Lemma for_each_inv {S T : Type} (I : S -> Prop) (l : list T)
    (body : S -> T -> M S) (s s' : S) (out : list console) :
  (forall s t s' o, In t l -> I s -> body s t = (Return s', o) -> I s') ->
  I s -> for_each l body s = (Return s', out) -> I s'.
Proof.
  revert s out. induction l as [|t l IH]; intros s out Hb Hs H.
  - simpl in H. injection H as <- _. exact Hs.
  - simpl in H. apply bind_Return_inv in H as (s1 & o1 & o2 & H1 & H2 & _).
    apply (IH s1 o2); auto.
    + intros. eapply Hb; eauto. now right.
    + eapply Hb; eauto. now left.
Qed.

Lemma for_each_terminates {S T : Type} (l : list T)
    (body : nat -> S -> T -> M S) (s : S) :
  (forall s t, In t l -> terminates (fun fuel => body fuel s t)) ->
  terminates (fun fuel => for_each l (body fuel) s).
Proof.
  revert s. induction l as [|t l IH]; intros s Hb.
  - apply terminates_const.
  - simpl. apply (terminates_bind (fun fuel => body fuel s t)
                    (fun fuel => for_each l (body fuel))).
    + apply Hb. now left.
    + intros a. apply IH. intros. apply Hb. now right.
Qed.

(** ** The projection [lonlat_to_xy] *)

(** Whatever [lonlat_to_xy] returns, its x lies in [0, width]: the two
    loops wrap it between 0 and [width], not between [x0] and
    [x0 + width]. *)
Lemma lonlat_to_xy_range (fuel : nat) (p : SatMap) (lon lat x' y' : R)
    (out : list console) :
  lonlat_to_xy fuel p lon lat = (Return (x', y'), out) ->
  0 <= x' <= width p /\
  y' = y0 p + (90 - lat) * height p / 180 /\ out = [].
Proof.
  unfold lonlat_to_xy. intros H.
  apply bind_Return_inv in H as (x1 & o1 & o2 & H1 & H & ->).
  apply bind_Return_inv in H as (x2 & o3 & o4 & H2 & H & ->).
  injection H as -> <- <-.
  apply (while_num_inv (fun _ => True)) in H1 as (_ & C1 & ->); auto.
  apply (while_num_inv (fun u => 0 <= u)) in H2 as (P2 & C2 & ->).
  - apply gtb_false in C2. auto.
  - apply ltb_false in C1. lra.
  - intros u Hu Hc. apply gtb_true in Hc. lra.
Qed.

Lemma lonlat_to_xy_terminates (p : SatMap) (lon lat : R) :
  0 < width p ->
  terminates (fun fuel => lonlat_to_xy fuel p lon lat).
Proof.
  intros Hw. unfold lonlat_to_xy.
  apply (terminates_bind
           (fun fuel => while_num fuel (fun u => u <? 0)
                          (fun u => u + width p) _)).
  { now apply while_add_terminates. }
  intros x1.
  apply (terminates_bind
           (fun fuel => while_num fuel (fun u => u >? width p)
                          (fun u => u - width p) _)).
  { now apply while_sub_terminates. }
  intros x2. apply terminates_const.
Qed.

(** ** The mirror [mirror_lon] *)

Lemma mirror_lon_terminates (sat : Sat) (rangelon mapbreak : R) :
  terminates (fun fuel => mirror_lon fuel sat rangelon mapbreak).
Proof.
  unfold mirror_lon.
  apply (terminates_bind
           (fun fuel => while_num fuel (fun d => d <? 0)
                          (fun d => d + 360) _)).
  { apply while_add_terminates. lra. }
  intros d1.
  apply (terminates_bind
           (fun fuel => while_num fuel (fun d => d >? 360)
                          (fun d => d - 360) _)).
  { apply while_sub_terminates. lra. }
  intros d2.
  apply (terminates_bind
           (fun fuel => while_num fuel (fun m => m >? 180)
                          (fun m => m - 360) _)).
  { apply while_sub_terminates. lra. }
  intros m1.
  apply (terminates_bind
           (fun fuel => while_num fuel (fun m => m <? -180)
                          (fun m => m + 360) _)).
  { apply while_add_terminates. lra. }
  intros m2. apply terminates_const.
Qed.

(** ** The pole tests *)

Lemma north_pole_is_covered_eq (sat : Sat) :
  north_pole_is_covered sat =
  (Return (distance (qrb (ssplon sat) (ssplat sat) 0 90)
           <=? 0.5 * footprint sat),
   match res (qrb (ssplon sat) (ssplat sat) 0 90) with
   | RIG_OK => []
   | RIG_EINVAL =>
       [console_error "Bad data measuring distance to North Pole"
          (ssplon sat) (ssplat sat)]
   end).
Proof.
  unfold north_pole_is_covered.
  destruct (res (qrb (ssplon sat) (ssplat sat) 0 90)); reflexivity.
Qed.

Lemma south_pole_is_covered_eq (sat : Sat) :
  south_pole_is_covered sat =
  (Return (distance (qrb (ssplon sat) (ssplat sat) 0 (-90))
           <=? 0.5 * footprint sat),
   match res (qrb (ssplon sat) (ssplat sat) 0 (-90)) with
   | RIG_OK => []
   | RIG_EINVAL =>
       [console_error "Bad data measuring distance to South Pole"
          (ssplon sat) (ssplat sat)]
   end).
Proof.
  unfold south_pole_is_covered.
  destruct (res (qrb (ssplon sat) (ssplat sat) 0 (-90))); reflexivity.
Qed.

(** ** The sampling loop *)

Lemma footprint_sample_terminates (satmap : SatMap) (sat : Sat) (azi : nat) :
  0 < width satmap ->
  terminates (fun fuel => footprint_sample fuel satmap sat azi).
Proof.
  intros Hw. pose proof PI_bounds as HPI. unfold footprint_sample.
  apply (terminates_bind (fun _ => _) (fun fuel north => _)).
  { destruct (azi =? 0)%nat.
    - rewrite north_pole_is_covered_eq. apply terminates_const.
    - apply terminates_const. }
  intros north.
  apply (terminates_bind
           (fun fuel => while_num fuel (fun r => r <? - PI)
                          (fun r => r + PI * 2) _)).
  { apply while_add_terminates. lra. }
  intros r1.
  apply (terminates_bind
           (fun fuel => while_num fuel (fun r => r >? PI)
                          (fun r => r - PI * 2) _)).
  { apply while_sub_terminates. lra. }
  intros r2.
  apply (terminates_bind (fun fuel => mirror_lon fuel sat _ _)).
  { apply mirror_lon_terminates. }
  intros wm.
  apply (terminates_bind (fun fuel => lonlat_to_xy fuel satmap _ _)).
  { now apply lonlat_to_xy_terminates. }
  intros s.
  apply (terminates_bind (fun fuel => lonlat_to_xy fuel satmap _ _)).
  { now apply lonlat_to_xy_terminates. }
  intros ms. apply terminates_const.
Qed.

(** The points of a sample have their x in [0, width]. *)
Lemma footprint_sample_range (fuel : nat) (satmap : SatMap) (sat : Sat)
    (azi : nat) (r : sample) (out : list console) :
  footprint_sample fuel satmap sat azi = (Return r, out) ->
  0 <= x (point r) <= width satmap /\ 0 <= x (mirror r) <= width satmap.
Proof.
  unfold footprint_sample. intros H.
  apply bind_Return_inv in H as (north & o1 & o1' & _ & H & _).
  apply bind_Return_inv in H as (r1 & o2 & o2' & _ & H & _).
  apply bind_Return_inv in H as (r2 & o3 & o3' & _ & H & _).
  apply bind_Return_inv in H as (wm & o4 & o4' & _ & H & _).
  apply bind_Return_inv in H as ([sx sy] & o5 & o5' & Hs & H & _).
  apply bind_Return_inv in H as ([msx msy] & o6 & o6' & Hms & H & _).
  injection H as <- _. simpl.
  apply lonlat_to_xy_range in Hs, Hms. tauto.
Qed.

Lemma footprint_step_terminates (satmap : SatMap) (sat : Sat)
    (st : list XY * bool) (azi : nat) :
  0 < width satmap ->
  terminates (fun fuel => footprint_step fuel satmap sat st azi).
Proof.
  intros Hw. unfold footprint_step.
  apply (terminates_bind (fun fuel => footprint_sample fuel satmap sat azi)
           (fun _ r => _)).
  - now apply footprint_sample_terminates.
  - intros r. apply terminates_const.
Qed.

Lemma footprint_points_terminates (satmap : SatMap) (sat : Sat) :
  0 < width satmap ->
  terminates (fun fuel => footprint_points fuel satmap sat).
Proof.
  intros Hw. unfold footprint_points.
  apply (for_each_terminates (seq 0 180)
           (fun fuel => footprint_step fuel satmap sat)).
  intros s t _. now apply footprint_step_terminates.
Qed.

(** The array of the loop keeps its 360 elements, all with x in
    [0, width]. *)
Lemma footprint_points_range (fuel : nat) (satmap : SatMap) (sat : Sat)
    (points1 : list XY) (warped : bool) (out : list console) :
  0 <= width satmap ->
  footprint_points fuel satmap sat = (Return (points1, warped), out) ->
  length points1 = 360%nat /\
  Forall (fun p => 0 <= x p <= width satmap) points1.
Proof.
  intros Hw H. unfold footprint_points in H.
  apply (for_each_inv
           (fun st => length (fst st) = 360%nat /\
                      Forall (fun p => 0 <= x p <= width satmap) (fst st)))
    in H; [exact H | | ].
  - intros [pts w] azi [pts' w'] o _ [Hlen Hall] Hstep. simpl in *.
    unfold footprint_step in Hstep.
    apply bind_Return_inv in Hstep as (r & o1 & o2 & Hr & Hret & _).
    injection Hret as <- _.
    apply footprint_sample_range in Hr as [Hp Hm].
    split.
    + now rewrite !length_insert.
    + apply Forall_insert; [apply Forall_insert|]; auto.
  - cbn [fst]. unfold goo_canvas_points_new. split.
    + apply length_replicate.
    + apply Forall_replicate. simpl. lra.
Qed.

(** ** Arrays *)

Lemma get_lookup (a : list XY) (i : nat) (p : XY) :
  a !! i = Some p -> get a (Z.of_nat i) = ret p.
Proof.
  intros H. unfold get.
  destruct (Z.ltb_spec (Z.of_nat i) 0); [lia|].
  now rewrite Nat2Z.id, H.
Qed.

Lemma get_outside (a : list XY) (i : Z) :
  (i < 0 \/ Z.of_nat (length a) <= i)%Z -> get a i = throw.
Proof.
  intros H. unfold get. destruct (Z.ltb_spec i 0); [reflexivity|].
  rewrite lookup_ge_None_2; [reflexivity | lia].
Qed.

Lemma get_Return_inv (a : list XY) (i : Z) (p : XY) (out : list console) :
  get a i = (Return p, out) ->
  (0 <= i)%Z /\ a !! Z.to_nat i = Some p /\ out = [].
Proof.
  unfold get. destruct (Z.ltb_spec i 0); [discriminate|].
  destruct (a !! Z.to_nat i) eqn:E; [|discriminate].
  intros Hg. injection Hg as <- <-. auto.
Qed.

Lemma set_x_lookup (a : list XY) (i : nat) (p : XY) (v : R) :
  a !! i = Some p ->
  set_x a (Z.of_nat i) v = ret (<[i := mk_xy v (y p)]> a).
Proof.
  intros H. unfold set_x. rewrite (get_lookup a i p H), bind_ret.
  now rewrite Nat2Z.id.
Qed.

Lemma set_y_lookup (a : list XY) (i : nat) (p : XY) (v : R) :
  a !! i = Some p ->
  set_y a (Z.of_nat i) v = ret (<[i := mk_xy (x p) v]> a).
Proof.
  intros H. unfold set_y. rewrite (get_lookup a i p H), bind_ret.
  now rewrite Nat2Z.id.
Qed.

(** *** Sorting *)

Lemma insert_by_Permutation (key : XY -> R) (p : XY) (a : list XY) :
  Permutation (insert_by key p a) (p :: a).
Proof.
  induction a as [|q a IH]; simpl; [reflexivity|].
  destruct (key p <=? key q); [reflexivity|].
  rewrite IH. apply perm_swap.
Qed.

Lemma sort_by_Permutation (key : XY -> R) (a : list XY) :
  Permutation (sort_by key a) a.
Proof.
  induction a as [|p a IH]; simpl; [reflexivity|].
  now rewrite insert_by_Permutation, IH.
Qed.

Lemma sort_by_length (key : XY -> R) (a : list XY) :
  length (sort_by key a) = length a.
Proof. apply Permutation_length, sort_by_Permutation. Qed.

Lemma sort_by_Forall (P : XY -> Prop) (key : XY -> R) (a : list XY) :
  Forall P a -> Forall P (sort_by key a).
Proof. intros H. now rewrite sort_by_Permutation. Qed.

Lemma insert_by_sorted (key : XY -> R) (p : XY) (a : list XY) :
  StronglySorted (fun u v => key u <= key v) a ->
  StronglySorted (fun u v => key u <= key v) (insert_by key p a).
Proof.
  induction 1 as [|q a Hs IH Hq]; simpl.
  - repeat constructor.
  - destruct (key p <=? key q) eqn:E.
    + apply leb_true in E. constructor; [now constructor|].
      constructor; [exact E|].
      eapply Forall_impl; [exact Hq|]. simpl. intros. lra.
    + apply leb_false in E. constructor; [exact IH|].
      rewrite insert_by_Permutation. constructor; [lra | exact Hq].
Qed.

Lemma sort_by_sorted (key : XY -> R) (a : list XY) :
  StronglySorted (fun u v => key u <= key v) (sort_by key a).
Proof.
  induction a as [|p a IH]; simpl; [constructor|].
  now apply insert_by_sorted.
Qed.

Lemma StronglySorted_lookup (key : XY -> R) (a : list XY) (i j : nat)
    (p q : XY) :
  StronglySorted (fun u v => key u <= key v) a ->
  (i <= j)%nat -> a !! i = Some p -> a !! j = Some q -> key p <= key q.
Proof.
  intros Hs. revert i j. induction Hs as [|r a Hs IH Hr]; intros i j Hij Hi Hj.
  - discriminate.
  - destruct i as [|i], j as [|j]; simpl in *; try lia.
    + injection Hi as <-. injection Hj as <-. apply Rle_refl.
    + injection Hi as <-. rewrite Forall_forall in Hr.
      apply Hr. eapply list_elem_of_lookup_2; eauto.
    + apply (IH i j); [lia | exact Hi | exact Hj].
Qed.

(** ** The pole-covered branch: [sort_points_x] *)

(** On an array of at least four points [sort_points_x] returns the
    sorted array with its two first and two last points rewritten. *)
Lemma sort_points_x_eq (satmap : SatMap) (sat : Sat) (points : list XY)
    (n : nat) (p0 pN : XY) :
  length points = n -> (4 <= n)%nat ->
  sort_by x points !! 0%nat = Some p0 ->
  sort_by x points !! (n - 1)%nat = Some pN ->
  sort_points_x satmap sat points =
  ret (<[(n - 1)%nat := mk_xy (x0 satmap + width satmap) (corner_y satmap sat)]>
       (<[0%nat := mk_xy (x0 satmap) (corner_y satmap sat)]>
        (<[(n - 2)%nat := mk_xy (x0 satmap + width satmap) (y pN)]>
         (<[1%nat := mk_xy (x0 satmap) (y p0)]> (sort_by x points))))).
Proof.
  intros Hn Hn4 H0 HN. unfold sort_points_x, corner_y.
  set (sorted := sort_by x points) in *.
  assert (Hlen : length sorted = n) by (subst sorted; now rewrite sort_by_length).
  rewrite Hlen.
  replace (Z.of_nat n - 2)%Z with (Z.of_nat (n - 2)) by lia.
  replace (Z.of_nat n - 1)%Z with (Z.of_nat (n - 1)) by lia.
  change 0%Z with (Z.of_nat 0).
  rewrite (get_lookup sorted 0 p0 H0), bind_ret.
  set (a1 := <[1%nat := mk_xy (x0 satmap) (y p0)]> sorted).
  destruct (lookup_lt_is_Some_2 sorted (n - 2)) as [q Hq]; [lia|].
  assert (Hq1 : a1 !! (n - 2)%nat = Some q).
  { subst a1. rewrite list_lookup_insert_ne by lia. exact Hq. }
  rewrite (set_x_lookup a1 (n - 2) q _ Hq1), bind_ret.
  set (a2 := <[(n - 2)%nat := _]> a1).
  assert (HN2 : a2 !! (n - 1)%nat = Some pN).
  { subst a2 a1. rewrite !list_lookup_insert_ne by lia. exact HN. }
  rewrite (get_lookup a2 (n - 1) pN HN2), bind_ret.
  assert (Hq2 : a2 !! (n - 2)%nat = Some (mk_xy (x0 satmap + width satmap) (y q))).
  { subst a2. apply list_lookup_insert_eq. subst a1.
    rewrite length_insert. lia. }
  rewrite (set_y_lookup a2 (n - 2) _ _ Hq2), bind_ret.
  subst a2. rewrite list_insert_insert_eq. cbn [x].
  set (a3 := <[(n - 2)%nat := _]> a1).
  assert (H03 : a3 !! 0%nat = Some p0).
  { subst a3 a1. rewrite !list_lookup_insert_ne by lia. exact H0. }
  assert (Hlen3 : length a3 = n).
  { subst a3 a1. now rewrite !length_insert. }
  assert (Hend : forall yc,
    (points <- set_x a3 0 (x0 satmap) ;;
     points <- set_y points 0 yc ;;
     points <- set_x points (Z.of_nat (n - 1)) (x0 satmap + width satmap) ;;
     set_y points (Z.of_nat (n - 1)) yc) =
    ret (<[(n - 1)%nat := mk_xy (x0 satmap + width satmap) yc]>
         (<[0%nat := mk_xy (x0 satmap) yc]> a3))).
  { intros yc. change 0%Z with (Z.of_nat 0).
    rewrite (set_x_lookup a3 0 p0 _ H03), bind_ret.
    rewrite (set_y_lookup _ 0 (mk_xy (x0 satmap) (y p0))), bind_ret
      by (apply list_lookup_insert_eq; lia).
    rewrite list_insert_insert_eq. cbn [x].
    set (a4 := <[0%nat := _]> a3).
    assert (HN4 : a4 !! (n - 1)%nat = Some pN).
    { subst a4 a3 a1. rewrite !list_lookup_insert_ne by lia. exact HN. }
    rewrite (set_x_lookup a4 (n - 1) pN _ HN4), bind_ret.
    rewrite (set_y_lookup _ (n - 1) (mk_xy (x0 satmap + width satmap) (y pN)))
      by (apply list_lookup_insert_eq; subst a4; rewrite length_insert; lia).
    now rewrite list_insert_insert_eq. }
  destruct (ssplat sat >? _); [exact (Hend (y0 satmap))|].
  exact (Hend (y0 satmap + height satmap)).
Qed.

Lemma bind_ext {A B : Type} (m : M A) (f g : A -> M B) :
  (forall a, f a = g a) -> bind m f = bind m g.
Proof. intros H. destruct m as [[a| |] out]; simpl; now rewrite ?H. Qed.

Lemma for_each_out {S T : Type} (g : T -> list console) (l : list T)
    (body : S -> T -> M S) (s s' : S) (out : list console) :
  (forall s t s' o, In t l -> body s t = (Return s', o) -> o = g t) ->
  for_each l body s = (Return s', out) -> out = concat (map g l).
Proof.
  revert s out. induction l as [|t l IH]; intros s out Hb H.
  - simpl in H. now injection H as _ <-.
  - simpl in H. apply bind_Return_inv in H as (s1 & o1 & o2 & H1 & H2 & ->).
    simpl. f_equal.
    + eapply Hb; eauto. now left.
    + eapply IH; eauto. intros. eapply Hb; eauto. now right.
Qed.

(** ** Invalid coordinates in the pole tests *)

Lemma qrb_einval_eq (lon1 lat1 lon2 lat2 : R) :
  res (qrb lon1 lat1 lon2 lat2) = RIG_EINVAL ->
  qrb lon1 lat1 lon2 lat2 = mk_qrb RIG_EINVAL 0 0.
Proof.
  rewrite qrb_guard. destruct (out_of_range _ _ _ _); [reflexivity|].
  cbv zeta.
  repeat match goal with
         | |- context [if ?c then _ else _] => destruct c
         end; simpl; discriminate.
Qed.

(** What a sample prints: the warning of the North pole test, on the
    azimuth 0 only. *)
Lemma footprint_sample_out (fuel : nat) (satmap : SatMap) (sat : Sat)
    (azi : nat) (r : sample) (out : list console) :
  footprint_sample fuel satmap sat azi = (Return r, out) ->
  out = if (azi =? 0)%nat then snd (north_pole_is_covered sat) else [].
Proof.
  unfold footprint_sample. intros H.
  apply bind_Return_inv in H as (north & o1 & o1' & Hn & H & ->).
  apply bind_Return_inv in H as (r1 & o2 & o2' & H1 & H & ->).
  apply bind_Return_inv in H as (r2 & o3 & o3' & H2 & H & ->).
  apply bind_Return_inv in H as (wm & o4 & o4' & Hm & H & ->).
  apply bind_Return_inv in H as ([sx sy] & o5 & o5' & Hs & H & ->).
  apply bind_Return_inv in H as ([msx msy] & o6 & o6' & Hms & H & ->).
  injection H as _ <-.
  apply lonlat_to_xy_range in Hs as (_ & _ & ->), Hms as (_ & _ & ->).
  apply (while_num_inv (fun _ => True)) in H1 as (_ & _ & ->); auto.
  apply (while_num_inv (fun _ => True)) in H2 as (_ & _ & ->); auto.
  assert (o4 = []) as ->.
  { unfold mirror_lon in Hm.
    apply bind_Return_inv in Hm as (d1 & p1 & p1' & L1 & Hm & ->).
    apply bind_Return_inv in Hm as (d2 & p2 & p2' & L2 & Hm & ->).
    apply bind_Return_inv in Hm as (m1 & p3 & p3' & L3 & Hm & ->).
    apply bind_Return_inv in Hm as (m2 & p4 & p4' & L4 & Hm & ->).
    injection Hm as _ <-.
    apply (while_num_inv (fun _ => True)) in L1 as (_ & _ & ->); auto.
    apply (while_num_inv (fun _ => True)) in L2 as (_ & _ & ->); auto.
    apply (while_num_inv (fun _ => True)) in L3 as (_ & _ & ->); auto.
    apply (while_num_inv (fun _ => True)) in L4 as (_ & _ & ->); auto. }
  rewrite !app_nil_r.
  destruct (azi =? 0)%nat; [now rewrite Hn | now injection Hn as _ <-].
Qed.

Lemma footprint_points_out (fuel : nat) (satmap : SatMap) (sat : Sat)
    (st : list XY * bool) (out : list console) :
  footprint_points fuel satmap sat = (Return st, out) ->
  out = snd (north_pole_is_covered sat).
Proof.
  intros H. unfold footprint_points in H.
  apply (for_each_out
           (fun azi => if (azi =? 0)%nat
                       then snd (north_pole_is_covered sat) else []))
    in H.
  - rewrite H. cbn [seq map concat Nat.eqb]. now rewrite app_nil_r.
  - intros s t s' o _ Hstep. unfold footprint_step in Hstep.
    apply bind_Return_inv in Hstep as (r & o1 & o2 & Hr & Hret & ->).
    injection Hret as _ <-. rewrite app_nil_r.
    eapply footprint_sample_out; eauto.
Qed.

(** With invalid coordinates both pole tests print their warning and
    then compare the distance 0 of the failed call with half the
    footprint. *)
Lemma north_pole_is_covered_einval (sat : Sat) :
  res (qrb (ssplon sat) (ssplat sat) 0 90) = RIG_EINVAL ->
  north_pole_is_covered sat =
  (Return (0 <=? 0.5 * footprint sat), [north_warning sat]).
Proof.
  intros H. rewrite north_pole_is_covered_eq.
  now rewrite (qrb_einval_eq _ _ _ _ H).
Qed.

Lemma south_pole_is_covered_einval (sat : Sat) :
  res (qrb (ssplon sat) (ssplat sat) 0 (-90)) = RIG_EINVAL ->
  south_pole_is_covered sat =
  (Return (0 <=? 0.5 * footprint sat), [south_warning sat]).
Proof.
  intros H. rewrite south_pole_is_covered_eq.
  now rewrite (qrb_einval_eq _ _ _ _ H).
Qed.

Lemma pole_is_covered_einval (sat : Sat) :
  res (qrb (ssplon sat) (ssplat sat) 0 90) = RIG_EINVAL ->
  res (qrb (ssplon sat) (ssplat sat) 0 (-90)) = RIG_EINVAL ->
  pole_is_covered sat =
  (Return (0 <=? 0.5 * footprint sat),
   if 0 <=? 0.5 * footprint sat then [north_warning sat]
   else [north_warning sat; south_warning sat]).
Proof.
  intros Hn Hs. unfold pole_is_covered.
  rewrite (north_pole_is_covered_einval sat Hn), bind_Return.
  destruct (0 <=? 0.5 * footprint sat) eqn:E; [reflexivity|].
  now rewrite (south_pole_is_covered_einval sat Hs), E.
Qed.

(** When the pole test answers [true], [calculate_footprint] goes on
    with the pole-covered branch. *)
Lemma calculate_footprint_covered (fuel : nat) (satmap : SatMap) (sat : Sat)
    (out : list console) :
  pole_is_covered sat = (Return true, out) ->
  calculate_footprint fuel satmap sat =
  (st <- footprint_points fuel satmap sat ;;
   (Return tt, out) ;;; pole_covered_branch satmap sat st).
Proof.
  intros H. unfold calculate_footprint. apply bind_ext. intros st.
  rewrite H, !bind_Return. reflexivity.
Qed.

Lemma einval_sat_91 :
  res (qrb 0 91 0 90) = RIG_EINVAL /\ res (qrb 0 91 0 (-90)) = RIG_EINVAL.
Proof.
  rewrite !qrb_guard.
  replace (out_of_range 0 91 0 90) with true
    by (symmetry; apply out_of_range_true; lra).
  replace (out_of_range 0 91 0 (-90)) with true
    by (symmetry; apply out_of_range_true; lra).
  split; reflexivity.
Qed.

(** C1, as amended.  When the coordinates of the satellite make both
    pole-distance calls of [qrb] answer [RIG_EINVAL], each pole test
    prints its warning and compares the distance 0 with half the
    footprint: the pole counts as covered exactly when
    0 <= 0.5 * footprint, and with a footprint that is not negative
    [calculate_footprint] takes the pole-covered branch. *)
Theorem invalid_pole_tests (sat : Sat) :
  res (qrb (ssplon sat) (ssplat sat) 0 90) = RIG_EINVAL ->
  res (qrb (ssplon sat) (ssplat sat) 0 (-90)) = RIG_EINVAL ->
  north_pole_is_covered sat =
    (Return (0 <=? 0.5 * footprint sat), [north_warning sat]) /\
  south_pole_is_covered sat =
    (Return (0 <=? 0.5 * footprint sat), [south_warning sat]) /\
  pole_is_covered sat =
    (Return (0 <=? 0.5 * footprint sat),
     if 0 <=? 0.5 * footprint sat then [north_warning sat]
     else [north_warning sat; south_warning sat]) /\
  (0 <= footprint sat ->
   forall (fuel : nat) (satmap : SatMap),
     calculate_footprint fuel satmap sat =
     (st <- footprint_points fuel satmap sat ;;
      print (north_warning sat) ;;; pole_covered_branch satmap sat st)).
Proof.
  intros Hn Hs.
  split; [now apply north_pole_is_covered_einval|].
  split; [now apply south_pole_is_covered_einval|].
  split; [now apply pole_is_covered_einval|].
  intros Hf fuel satmap.
  apply calculate_footprint_covered.
  rewrite (pole_is_covered_einval sat Hn Hs).
  replace (0 <=? 0.5 * footprint sat) with true; [reflexivity|].
  symmetry. apply leb_true. lra.
Qed.

Lemma invalid_pole_tests_witness :
  pole_is_covered (mk_sat 91 0 2000) =
    (Return (0 <=? 0.5 * 2000),
     if 0 <=? 0.5 * 2000 then [north_warning (mk_sat 91 0 2000)]
     else [north_warning (mk_sat 91 0 2000);
           south_warning (mk_sat 91 0 2000)]) /\
  forall (fuel : nat) (satmap : SatMap),
    calculate_footprint fuel satmap (mk_sat 91 0 2000) =
    (st <- footprint_points fuel satmap (mk_sat 91 0 2000) ;;
     print (north_warning (mk_sat 91 0 2000)) ;;;
     pole_covered_branch satmap (mk_sat 91 0 2000) st).
Proof.
  destruct (invalid_pole_tests (mk_sat 91 0 2000))
    as (_ & _ & Hp & Hc).
  - apply einval_sat_91.
  - apply einval_sat_91.
  - split; [exact Hp|]. apply Hc. simpl. lra.
Defined.

(** The polyline of the pole-covered branch, on the 360 sampled points:
    the corner anchors at both ends, next to them the two border points
    at the y of the sorted extremes, and between them the sorted
    points. *)
Lemma pole_covered_branch_shape (satmap : SatMap) (sat : Sat)
    (points : list XY) (warped : bool) :
  length points = 360%nat ->
  exists (poly : list XY) (p0 pN : XY),
    pole_covered_branch satmap sat (points, warped) = ret (poly, []) /\
    length poly = 360%nat /\
    sort_by x points !! 0%nat = Some p0 /\
    sort_by x points !! 359%nat = Some pN /\
    poly !! 0%nat = Some (mk_xy (x0 satmap) (corner_y satmap sat)) /\
    poly !! 1%nat = Some (mk_xy (x0 satmap) (y p0)) /\
    poly !! 358%nat = Some (mk_xy (x0 satmap + width satmap) (y pN)) /\
    poly !! 359%nat =
      Some (mk_xy (x0 satmap + width satmap) (corner_y satmap sat)) /\
    (forall i : nat, (2 <= i < 358)%nat ->
       poly !! i = sort_by x points !! i).
Proof.
  intros Hlen.
  assert (Hs : length (sort_by x points) = 360%nat)
    by now rewrite sort_by_length.
  destruct (lookup_lt_is_Some_2 (sort_by x points) 0) as [p0 H0]; [lia|].
  destruct (lookup_lt_is_Some_2 (sort_by x points) 359) as [pN HN]; [lia|].
  eexists _, p0, pN. unfold pole_covered_branch. cbn [fst].
  rewrite (sort_points_x_eq satmap sat points 360 p0 pN Hlen); [|lia|exact H0|exact HN].
  rewrite bind_ret. change (360 - 1)%nat with 359%nat.
  change (360 - 2)%nat with 358%nat.
  split; [reflexivity|].
  split; [now rewrite !length_insert|].
  split; [exact H0|]. split; [exact HN|].
  split.
  { rewrite list_lookup_insert_ne by lia.
    apply list_lookup_insert_eq. rewrite !length_insert. lia. }
  split.
  { rewrite !list_lookup_insert_ne by lia.
    apply list_lookup_insert_eq. lia. }
  split.
  { rewrite !list_lookup_insert_ne by lia.
    apply list_lookup_insert_eq. rewrite !length_insert. lia. }
  split.
  { apply list_lookup_insert_eq. rewrite !length_insert. lia. }
  intros i Hi. now rewrite !list_lookup_insert_ne by lia.
Qed.

(** C1, on the code.  With the latitude 91 both pole-distance calls
    answer [RIG_EINVAL], the pole test answers [true], and
    [calculate_footprint] returns the polyline of the pole-covered
    branch, from corner to corner, after two warnings. *)
Lemma invalid_sat_takes_pole_branch :
  res (qrb 0 91 0 90) = RIG_EINVAL /\
  res (qrb 0 91 0 (-90)) = RIG_EINVAL /\
  pole_is_covered (mk_sat 91 0 2000) =
    (Return true, [north_warning (mk_sat 91 0 2000)]) /\
  exists n : nat, forall fuel : nat, (n <= fuel)%nat ->
    exists poly : list XY,
      calculate_footprint fuel app_map (mk_sat 91 0 2000) =
        (Return (poly, []),
         [north_warning (mk_sat 91 0 2000);
          north_warning (mk_sat 91 0 2000)]) /\
      poly !! 0%nat = Some (mk_xy 0 0) /\
      poly !! 359%nat = Some (mk_xy (0 + 720) 0).
Proof.
  set (sat := mk_sat 91 0 2000).
  destruct einval_sat_91 as [Hn Hs].
  assert (Hp : pole_is_covered sat = (Return true, [north_warning sat])).
  { rewrite (pole_is_covered_einval sat Hn Hs).
    replace (0 <=? 0.5 * footprint sat) with true; [reflexivity|].
    symmetry. apply leb_true. simpl. lra. }
  split; [exact Hn|]. split; [exact Hs|]. split; [exact Hp|].
  destruct (footprint_points_terminates app_map sat)
    as ([pts w] & out & n & Hconv); [simpl; lra|].
  exists n. intros fuel Hfuel.
  pose proof (Hconv fuel Hfuel) as Hpts.
  pose proof (footprint_points_out _ _ _ _ _ Hpts) as Hout.
  rewrite (north_pole_is_covered_einval sat Hn) in Hout. simpl in Hout.
  apply footprint_points_range in Hpts as Hr; [|simpl; lra].
  destruct Hr as [Hlen _].
  destruct (pole_covered_branch_shape app_map sat pts w Hlen)
    as (poly & p0 & pN & Hb & _ & _ & _ & H0 & _ & _ & H359 & _).
  exists poly.
  rewrite (calculate_footprint_covered fuel app_map sat _ Hp).
  rewrite Hpts, bind_Return, bind_Return, Hb. subst out.
  split; [reflexivity|].
  unfold corner_y in H0, H359.
  replace (ssplat sat >? 0) with true in H0, H359
    by (symmetry; apply gtb_true; simpl; lra).
  split; [exact H0 | exact H359].
Qed.

(** ** A satellite above the equator *)

Lemma acos_above_half (t : R) : -1 <= t <= 1 / 2 -> PI / 3 <= acos t.
Proof.
  intros Ht. pose proof PI_bounds as HPI.
  destruct (Rle_lt_dec (PI / 3) (acos t)) as [H|H]; [exact H|exfalso].
  pose proof (acos_bound t) as Hb.
  assert (Hc : cos (PI / 3) < cos (acos t))
    by (apply cos_decreasing_1; lra).
  rewrite cos_PI3, cos_acos in Hc by lra. lra.
Qed.

(** The latitude of a pole after [off_pole], in radians. *)
Lemma cos_off_pole : 0 < cos (89.999999999 / RADIAN) <= 1 / 2.
Proof.
  pose proof PI_bounds as HPI. rewrite div_RADIAN. split.
  - apply cos_gt_0; lra.
  - rewrite <- cos_PI3. apply cos_decr_1; lra.
Qed.

(** From the equator both poles are more than 6672 km away. *)
Lemma equator_pole_distance (lon lat2 : R) :
  valid_lon lon -> lat2 = 90 \/ lat2 = -90 ->
  res (qrb lon 0 0 lat2) = RIG_OK /\ 6672 <= distance (qrb lon 0 0 lat2).
Proof.
  intros Hlon Hlat. pose proof PI_bounds as HPI.
  pose proof cos_off_pole as Hc.
  rewrite qrb_guard.
  replace (out_of_range lon 0 0 lat2) with false
    by (symmetry; apply out_of_range_false;
        unfold valid_lat, valid_lon in *; lra).
  cbv zeta.
  assert (Ht : -1 / 2 <= cos_arc (lon / RADIAN) (off_pole 0 / RADIAN)
                 (0 / RADIAN) (off_pole lat2 / RADIAN) <= 1 / 2).
  { rewrite off_pole_id by lra.
    replace (0 / RADIAN) with 0 by (rewrite div_RADIAN; lra).
    unfold cos_arc. rewrite sin_0, cos_0.
    assert (Hl : cos (off_pole lat2 / RADIAN) = cos (89.999999999 / RADIAN)).
    { destruct Hlat as [-> | ->]; unfold off_pole.
      - now rewrite (proj2 (eqb_true 90 90) eq_refl).
      - replace (-90 ==? 90) with false by (symmetry; apply eqb_false; lra).
        rewrite (proj2 (eqb_true (-90) (-90)) eq_refl).
        replace (-89.999999999 / RADIAN) with (- (89.999999999 / RADIAN))
          by (unfold Rdiv; lra).
        apply cos_neg. }
    rewrite Hl. pose proof (COS_bound (0 - lon / RADIAN)) as Hb.
    split; nra. }
  set (tmp := cos_arc _ _ _ _) in *.
  destruct (tmp >? _) eqn:E1; [apply gtb_true in E1; lra|].
  destruct (tmp <? _) eqn:E2; [apply ltb_true in E2; lra|].
  assert (Hd : 6672 <= ARC_IN_KM * RADIAN * acos tmp).
  { pose proof (acos_above_half tmp ltac:(lra)) as Ha.
    pose proof RADIAN_pos as HR.
    assert (H60 : RADIAN * (PI / 3) = 60) by (unfold RADIAN; field; lra).
    assert (RADIAN * (PI / 3) <= RADIAN * acos tmp)
      by (apply Rmult_le_compat_l; lra).
    unfold ARC_IN_KM. rewrite Rmult_assoc. lra. }
  repeat match goal with
         | |- context [if ?c then _ else _] => destruct c
         end; simpl; (split; [reflexivity | exact Hd]).
Qed.

Lemma equator_pole_not_covered (lon f : R) :
  valid_lon lon -> 0.5 * f < 6672 ->
  north_pole_is_covered (mk_sat 0 lon f) = ret false /\
  south_pole_is_covered (mk_sat 0 lon f) = ret false /\
  pole_is_covered (mk_sat 0 lon f) = ret false.
Proof.
  intros Hlon Hf.
  destruct (equator_pole_distance lon 90 Hlon) as [Hn1 Hn2]; [now left|].
  destruct (equator_pole_distance lon (-90) Hlon) as [Hs1 Hs2]; [now right|].
  assert (Hn : north_pole_is_covered (mk_sat 0 lon f) = ret false).
  { rewrite north_pole_is_covered_eq. cbn [ssplon ssplat footprint].
    rewrite Hn1. unfold ret. do 2 f_equal. apply leb_false. lra. }
  assert (Hs : south_pole_is_covered (mk_sat 0 lon f) = ret false).
  { rewrite south_pole_is_covered_eq. cbn [ssplon ssplat footprint].
    rewrite Hs1. unfold ret. do 2 f_equal. apply leb_false. lra. }
  repeat split; auto.
  unfold pole_is_covered. now rewrite Hn, bind_ret.
Qed.

Lemma while_num_noop (fuel : nat) (cond : R -> bool) (body : R -> R)
    (v v' : R) (out : list console) :
  while_num fuel cond body v = (Return v', out) -> cond v = false -> v' = v.
Proof.
  intros H Hc. destruct fuel; [discriminate|].
  rewrite while_num_S, Hc in H. now injection H as <- _.
Qed.

Lemma arccos_bound (num dem : R) : 0 <= dem -> 0 <= arccos num dem <= PI.
Proof.
  intros Hd. pose proof PI_bounds as HPI. unfold arccos.
  destruct ((num !=? 0) && (dem !=? 0)); [|lra].
  js_cmp; try lra. apply acos_bound.
Qed.

Lemma INR_le_180 (azi : nat) : (azi <= 180)%nat -> 0 <= INR azi <= 180.
Proof.
  intros H. split; [apply pos_INR|].
  apply le_INR in H. rewrite (INR_IZR_INZ 180) in H. exact H.
Qed.

Lemma de2ra_pos : 0 < de2ra.
Proof. unfold de2ra. pose proof PI_bounds. lra. Qed.

Lemma div_de2ra_bounds (r lo hi : R) :
  lo * de2ra <= r <= hi * de2ra -> lo <= r / de2ra <= hi.
Proof.
  intros H. pose proof de2ra_pos as Hd.
  assert (Hr : r = r / de2ra * de2ra) by (field; lra).
  set (d := r / de2ra) in *. clearbody d. subst r. split; nra.
Qed.

(** Above the point (0,0), on a map that starts at the longitude -180,
    no sample is flagged as warped, whatever the footprint below
    13344 km. *)
Lemma origin_sample_not_warped (fuel : nat) (satmap : SatMap) (f : R)
    (azi : nat) (r : sample) (out : list console) :
  left_side_lon satmap = -180 -> 0.5 * f < 6672 -> (azi <= 180)%nat ->
  footprint_sample fuel satmap (mk_sat 0 0 f) azi = (Return r, out) ->
  warpedT r = false.
Proof.
  intros Hleft Hf Hazi H. pose proof PI_bounds as HPI.
  pose proof de2ra_pos as Hde.
  destruct (equator_pole_not_covered 0 f) as (Hn & _ & _);
    [unfold valid_lon; lra | exact Hf |].
  unfold footprint_sample in H. cbn [ssplat ssplon footprint] in H.
  rewrite Hn in H.
  replace (if (azi =? 0)%nat then ret false else ret false)
    with (@ret bool false) in H by (now destruct (azi =? 0)%nat).
  rewrite bind_ret in H. rewrite Hleft in H.
  replace (0 * de2ra) with 0 in H by lra.
  rewrite sin_0, cos_0 in H.
  set (rangelat := asin _) in H.
  set (num := cos _ - _) in H. set (dem := 1 * cos rangelat) in H.
  assert (Hdem : 0 <= dem).
  { subst dem. pose proof (asin_bound (0 * cos (0.5 * f / xkmper)
        + cos (de2ra * INR azi) * sin (0.5 * f / xkmper) * 1)) as Hb.
    fold rangelat in Hb. rewrite Rmult_1_l. apply cos_ge_0; lra. }
  pose proof (arccos_bound num dem Hdem) as Harc.
  pose proof (INR_le_180 azi Hazi) as Hi.
  replace (180 - INR azi >=? 0) with true in H
    by (symmetry; apply geb_true; lra).
  set (rangelon0 := if abs_quotient_above_1 num dem then 0
                    else 0 - arccos num dem) in H.
  assert (Hr0 : - PI <= rangelon0 <= 0)
    by (subst rangelon0; destruct (abs_quotient_above_1 num dem); lra).
  apply bind_Return_inv in H as (r1 & o1 & o1' & H1 & H & _).
  apply while_num_noop in H1; [|apply ltb_false; lra]. subst r1.
  apply bind_Return_inv in H as (r2 & o2 & o2' & H2 & H & _).
  apply while_num_noop in H2; [|apply gtb_false; lra]. subst r2.
  apply bind_Return_inv in H as (wm & o3 & o3' & Hm & H & _).
  apply bind_Return_inv in H as (s & o4 & o4' & _ & H & _).
  apply bind_Return_inv in H as (ms & o5 & o5' & _ & H & _).
  injection H as <- _. cbn [warpedT].
  assert (Hd : -180 <= rangelon0 / de2ra <= 0).
  { apply div_de2ra_bounds. unfold de2ra. lra. }
  set (d := rangelon0 / de2ra) in *.
  unfold mirror_lon in Hm. cbn [ssplon] in Hm.
  apply bind_Return_inv in Hm as (d1 & p1 & p1' & L1 & Hm & _).
  apply while_num_noop in L1; [|apply ltb_false; lra]. subst d1.
  apply bind_Return_inv in Hm as (d2 & p2 & p2' & L2 & Hm & _).
  apply while_num_noop in L2; [|apply gtb_false; lra]. subst d2.
  rewrite (Rabs_pos_eq (0 - d)) in Hm by lra.
  apply bind_Return_inv in Hm as (m1 & p3 & p3' & L3 & Hm & _).
  apply while_num_noop in L3; [|apply gtb_false; lra]. subst m1.
  apply bind_Return_inv in Hm as (m2 & p4 & p4' & L4 & Hm & _).
  apply while_num_noop in L4; [|apply ltb_false; lra]. subst m2.
  injection Hm as <-. cbn [fst].
  unfold left_of_break.
  replace (0 <? -180 + 180) with false by (symmetry; apply ltb_false; lra).
  replace (0 <? -180 - 180) with false by (symmetry; apply ltb_false; lra).
  rewrite andb_false_r. cbn [andb orb].
  replace (0 + (0 - d) <? -180 + 180) with false
    by (symmetry; apply ltb_false; lra).
  replace (0 + (0 - d) <? -180 - 180) with false
    by (symmetry; apply ltb_false; lra).
  rewrite andb_false_r. reflexivity.
Qed.

(** ** The nominal branch *)

(** When the pole test answers [false] and no sample was warped,
    [calculate_footprint] returns the sampled array as it is, with an
    empty second polyline. *)
Lemma calculate_footprint_nominal (fuel : nat) (satmap : SatMap) (sat : Sat)
    (points : list XY) (o1 o2 : list console) :
  footprint_points fuel satmap sat = (Return (points, false), o1) ->
  pole_is_covered sat = (Return false, o2) ->
  calculate_footprint fuel satmap sat = (Return (points, []), o1 ++ o2).
Proof.
  intros Hp Hc. unfold calculate_footprint.
  rewrite Hp, bind_Return. cbn [fst snd].
  rewrite Hc, bind_Return. cbn [fst snd ret]. now rewrite app_nil_r.
Qed.

(** The nominal polyline has 360 points, each with its x in
    [0, width]: on a map with x0 = 0 this is the interval
    [x0, x0 + width]. *)
Lemma nominal_footprint_range (fuel : nat) (satmap : SatMap) (sat : Sat)
    (points : list XY) (o1 o2 : list console) :
  0 < width satmap ->
  footprint_points fuel satmap sat = (Return (points, false), o1) ->
  pole_is_covered sat = (Return false, o2) ->
  calculate_footprint fuel satmap sat = (Return (points, []), o1 ++ o2) /\
  length points = 360%nat /\
  Forall (fun p => 0 <= x p <= width satmap) points.
Proof.
  intros Hw Hp Hc. split; [now apply calculate_footprint_nominal|].
  eapply footprint_points_range; [lra | exact Hp].
Qed.

Lemma origin_points_not_warped (fuel : nat) (satmap : SatMap) (f : R)
    (st : list XY * bool) (out : list console) :
  left_side_lon satmap = -180 -> 0.5 * f < 6672 ->
  footprint_points fuel satmap (mk_sat 0 0 f) = (Return st, out) ->
  snd st = false.
Proof.
  intros Hleft Hf H. unfold footprint_points in H.
  apply (for_each_inv (fun st => snd st = false)) in H; [exact H| |reflexivity].
  intros s azi s' o Hin Hs Hstep. unfold footprint_step in Hstep.
  apply bind_Return_inv in Hstep as (r & o1 & o2 & Hr & Hret & _).
  injection Hret as <- _. cbn [snd]. rewrite Hs.
  apply origin_sample_not_warped in Hr; auto.
  apply in_seq in Hin. lia.
Qed.

(** C4, on the code.  The satellite of the specification's example,
    above (0,0) with a footprint of 2000 km, on the map of 720 by 360
    drawn from x0 = 1000: the nominal branch returns 360 points and an
    empty second polyline, and every x is at most 720, left of the
    interval [x0, x0 + width] = [1000, 1720]. *)
Theorem nominal_points_left_of_shifted_map :
  exists n : nat, forall fuel : nat, (n <= fuel)%nat ->
    exists poly : list XY,
      calculate_footprint fuel shifted_map (mk_sat 0 0 2000) =
        (Return (poly, []), []) /\
      length poly = 360%nat /\
      Forall (fun p => 0 <= x p <= 720 /\ x p < x0 shifted_map) poly.
Proof.
  set (sat := mk_sat 0 0 2000).
  destruct (footprint_points_terminates shifted_map sat)
    as ([pts w] & out & n & Hconv); [simpl; lra|].
  exists n. intros fuel Hfuel. exists pts.
  pose proof (Hconv fuel Hfuel) as Hpts.
  assert (Hw : w = false).
  { apply origin_points_not_warped in Hpts; [exact Hpts|reflexivity|lra]. }
  subst w.
  destruct (equator_pole_not_covered 0 2000) as (Hn & _ & Hc);
    [unfold valid_lon; lra | lra |].
  pose proof (footprint_points_out _ _ _ _ _ Hpts) as Hout.
  fold sat in Hn, Hc. rewrite Hn in Hout. simpl in Hout. subst out.
  destruct (nominal_footprint_range fuel shifted_map sat pts [] [])
    as (Hcalc & Hlen & Hall); [simpl; lra | exact Hpts | exact Hc |].
  split; [exact Hcalc|]. split; [exact Hlen|].
  eapply Forall_impl; [exact Hall|]. simpl. intros p Hp. lra.
Qed.

(** ** The pole-covered branch *)

(** Where a point of the polyline of the pole-covered branch comes
    from, by its index. *)
Lemma pole_covered_branch_index (satmap : SatMap) (sat : Sat)
    (points poly : list XY) (warped : bool) (k : nat) (r : XY) :
  length points = 360%nat ->
  pole_covered_branch satmap sat (points, warped) = ret (poly, []) ->
  poly !! k = Some r ->
  ((k <= 1)%nat /\ x r = x0 satmap) \/
  ((2 <= k < 358)%nat /\ sort_by x points !! k = Some r) \/
  ((358 <= k <= 359)%nat /\ x r = x0 satmap + width satmap).
Proof.
  intros Hlen Hb Hk.
  destruct (pole_covered_branch_shape satmap sat points warped Hlen)
    as (poly' & p0 & pN & Hb' & Hl & _ & _ & H0 & H1 & H358 & H359 & Hmid).
  rewrite Hb in Hb'. injection Hb' as <-.
  pose proof (lookup_lt_Some _ _ _ Hk) as Hlt. rewrite Hl in Hlt.
  destruct (Nat.eq_dec k 0%nat) as [-> | ?].
  { left. rewrite H0 in Hk. injection Hk as <-. split; [lia | reflexivity]. }
  destruct (Nat.eq_dec k 1%nat) as [-> | ?].
  { left. rewrite H1 in Hk. injection Hk as <-. split; [lia | reflexivity]. }
  destruct (Nat.eq_dec k 358%nat) as [-> | ?].
  { right; right. rewrite H358 in Hk. injection Hk as <-.
    split; [lia | reflexivity]. }
  destruct (Nat.eq_dec k 359%nat) as [-> | ?].
  { right; right. rewrite H359 in Hk. injection Hk as <-.
    split; [lia | reflexivity]. }
  right; left. split; [lia|]. rewrite <- Hmid by lia. exact Hk.
Qed.

(** On a map with x0 = 0 the polyline of the pole-covered branch never
    goes back in x. *)
Lemma pole_covered_branch_nondecreasing (satmap : SatMap) (sat : Sat)
    (points poly : list XY) (warped : bool) :
  x0 satmap = 0 -> 0 <= width satmap ->
  length points = 360%nat ->
  Forall (fun p => 0 <= x p <= width satmap) points ->
  pole_covered_branch satmap sat (points, warped) = ret (poly, []) ->
  nondecreasing_x poly.
Proof.
  intros Hx0 Hw Hlen Hall Hb i j p q Hij Hi Hj.
  assert (Hsorted : Forall (fun p => 0 <= x p <= width satmap)
                      (sort_by x points)) by now apply sort_by_Forall.
  rewrite Forall_lookup in Hsorted.
  destruct (pole_covered_branch_index _ _ _ _ _ i p Hlen Hb Hi)
    as [[Hi1 Hp] | [[Hi1 Hp] | [Hi1 Hp]]];
  destruct (pole_covered_branch_index _ _ _ _ _ j q Hlen Hb Hj)
    as [[Hj1 Hq] | [[Hj1 Hq] | [Hj1 Hq]]]; try lia.
  - lra.
  - apply Hsorted in Hq. lra.
  - lra.
  - eapply (StronglySorted_lookup x); eauto. apply sort_by_sorted.
  - apply Hsorted in Hp. lra.
  - lra.
Qed.

(** The polyline of the pole-covered branch on a map with x0 = 0:
    360 points that never go back in x, from one corner of the map to
    the other, with the second and the last but one point on the left
    and right borders. *)
Lemma pole_covered_footprint_origin (fuel : nat) (satmap : SatMap)
    (sat : Sat) (points : list XY) (warped : bool) (o1 o2 : list console) :
  0 < width satmap -> x0 satmap = 0 ->
  footprint_points fuel satmap sat = (Return (points, warped), o1) ->
  pole_is_covered sat = (Return true, o2) ->
  exists (poly : list XY) (y1 y358 : R),
    calculate_footprint fuel satmap sat = (Return (poly, []), o1 ++ o2) /\
    length poly = 360%nat /\
    nondecreasing_x poly /\
    poly !! 0%nat = Some (mk_xy (x0 satmap) (corner_y satmap sat)) /\
    poly !! 1%nat = Some (mk_xy (x0 satmap) y1) /\
    poly !! 358%nat = Some (mk_xy (x0 satmap + width satmap) y358) /\
    poly !! 359%nat =
      Some (mk_xy (x0 satmap + width satmap) (corner_y satmap sat)).
Proof.
  intros Hw Hx0 Hp Hc.
  destruct (footprint_points_range fuel satmap sat points warped o1
              (Rlt_le _ _ Hw) Hp) as [Hlen Hall].
  destruct (pole_covered_branch_shape satmap sat points warped Hlen)
    as (poly & p0 & pN & Hb & Hl & _ & _ & H0 & H1 & H358 & H359 & _).
  exists poly, (y p0), (y pN).
  split.
  { rewrite (calculate_footprint_covered fuel satmap sat o2 Hc).
    rewrite Hp, !bind_Return, Hb. cbn [fst snd ret].
    now rewrite app_nil_r. }
  split; [exact Hl|].
  split.
  { apply (pole_covered_branch_nondecreasing satmap sat points poly warped);
      auto; lra. }
  auto.
Qed.

Lemma RADIAN_degrees (u : R) : RADIAN * (u * PI / 180) = u.
Proof. unfold RADIAN. pose proof PI_bounds. field. lra. Qed.

Lemma qrb_res_valid (lon1 lat1 lon2 lat2 : R) :
  out_of_range lon1 lat1 lon2 lat2 = false ->
  res (qrb lon1 lat1 lon2 lat2) = RIG_OK.
Proof.
  intros H. rewrite qrb_guard, H. cbv zeta.
  repeat match goal with
         | |- context [if ?c then _ else _] => destruct c
         end; reflexivity.
Qed.

(** Five degrees from the North pole, with a footprint of 4000 km, the
    pole is covered. *)
Lemma pole_is_covered_85 :
  north_pole_is_covered (mk_sat 85 0 4000) = ret true /\
  pole_is_covered (mk_sat 85 0 4000) = ret true.
Proof.
  pose proof PI_bounds as HPI. pose proof RADIAN_pos as HR.
  assert (Hv : out_of_range 0 85 0 90 = false)
    by (apply out_of_range_false; unfold valid_lat, valid_lon; lra).
  assert (Hn : north_pole_is_covered (mk_sat 85 0 4000) = ret true).
  { rewrite north_pole_is_covered_eq. cbn [ssplon ssplat footprint].
    rewrite (qrb_res_valid _ _ _ _ Hv). unfold ret. do 2 f_equal.
    apply leb_true. rewrite qrb_distance, Hv. cbv zeta.
    rewrite (off_pole_id 85) by lra.
    replace (off_pole 90) with 89.999999999
      by (unfold off_pole; now rewrite (proj2 (eqb_true 90 90) eq_refl)).
    set (a := 85 / RADIAN). set (l := 89.999999999 / RADIAN).
    assert (Hd : 0 < l - a < PI / 2 /\ RADIAN * (l - a) = 4.999999999).
    { subst a l. rewrite !div_RADIAN. split; [lra|].
      replace (89.999999999 * PI / 180 - 85 * PI / 180)
        with (4.999999999 * PI / 180) by lra.
      apply RADIAN_degrees. }
    assert (Ht : cos_arc (0 / RADIAN) a (0 / RADIAN) l = cos (l - a)).
    { unfold cos_arc. replace (0 / RADIAN - 0 / RADIAN) with 0 by lra.
      rewrite cos_0, cos_minus. ring. }
    rewrite Ht.
    assert (Hpos : 0 < cos (l - a)) by (apply cos_gt_0; lra).
    destruct (_ >? _); [lra|].
    destruct (_ <? _) eqn:E; [apply ltb_true in E; lra|].
    rewrite acos_cos by lra.
    rewrite Rmult_assoc. destruct Hd as [_ ->]. unfold ARC_IN_KM. lra. }
  split; [exact Hn|].
  unfold pole_is_covered. now rewrite Hn, bind_ret.
Qed.

(** C5, on the code.  The satellite of the specification's example, at
    the latitude 85 with a footprint of 4000 km, on the map drawn from
    x0 = 1000: the pole-covered branch returns 360 points whose second
    point is on the left border, x = 1000, and whose third point is
    a sampled point, with x at most 720.  The polyline goes back in
    x. *)
Theorem pole_polyline_not_sorted_on_shifted_map :
  exists n : nat, forall fuel : nat, (n <= fuel)%nat ->
    exists (poly : list XY) (p1 p2 : XY),
      calculate_footprint fuel shifted_map (mk_sat 85 0 4000) =
        (Return (poly, []), []) /\
      length poly = 360%nat /\
      poly !! 1%nat = Some p1 /\ poly !! 2%nat = Some p2 /\
      x p1 = 1000 /\ 0 <= x p2 <= 720 /\
      ~ nondecreasing_x poly.
Proof.
  set (sat := mk_sat 85 0 4000).
  destruct pole_is_covered_85 as [Hn Hc]. fold sat in Hn, Hc.
  destruct (footprint_points_terminates shifted_map sat)
    as ([pts w] & out & n & Hconv); [simpl; lra|].
  exists n. intros fuel Hfuel.
  pose proof (Hconv fuel Hfuel) as Hpts.
  pose proof (footprint_points_out _ _ _ _ _ Hpts) as Hout.
  rewrite Hn in Hout. simpl in Hout. subst out.
  destruct (footprint_points_range fuel shifted_map sat pts w [])
    as [Hlen Hall]; [simpl; lra | exact Hpts |].
  destruct (pole_covered_branch_shape shifted_map sat pts w Hlen)
    as (poly & p0 & pN & Hb & Hl & _ & _ & _ & H1 & _ & _ & Hmid).
  destruct (lookup_lt_is_Some_2 (sort_by x pts) 2) as [p2 H2];
    [rewrite sort_by_length; lia|].
  assert (Hp2 : 0 <= x p2 <= 720).
  { apply (sort_by_Forall _ x) in Hall. rewrite Forall_lookup in Hall.
    apply (Hall 2%nat p2 H2). }
  rewrite <- Hmid in H2 by lia.
  exists poly, (mk_xy (x0 shifted_map) (y p0)), p2.
  split.
  { rewrite (calculate_footprint_covered fuel shifted_map sat [] Hc).
    rewrite Hpts, !bind_Return, Hb. reflexivity. }
  repeat split; try assumption; try tauto.
  intros Hmono.
  specialize (Hmono 1%nat 2%nat _ _ ltac:(lia) H1 H2). simpl in Hmono. lra.
Qed.

(** ** The warped branch *)

Lemma while_num_once (fuel : nat) (cond : R -> bool) (body : R -> R)
    (v v' : R) (out : list console) :
  while_num fuel cond body v = (Return v', out) ->
  cond v = true -> cond (body v) = false -> v' = body v.
Proof.
  intros H Hc Hc'. destruct fuel; [discriminate|].
  rewrite while_num_S, Hc in H. now apply while_num_noop in H.
Qed.

(** One warped sample is enough for the flag of the loop. *)
Lemma footprint_points_warped (fuel : nat) (satmap : SatMap) (sat : Sat)
    (azi : nat) (st : list XY * bool) (out : list console) :
  (azi < 180)%nat ->
  (forall r o, footprint_sample fuel satmap sat azi = (Return r, o) ->
               warpedT r = true) ->
  footprint_points fuel satmap sat = (Return st, out) ->
  snd st = true.
Proof.
  intros Hazi Hw. unfold footprint_points.
  assert (Hin : In azi (seq 0 180)) by (apply in_seq; lia).
  revert Hin. generalize (goo_canvas_points_new 360, false) as s.
  revert out. generalize (seq 0 180) as l.
  induction l as [|t l IH]; intros out s Hin H; [destruct Hin|].
  simpl in H. apply bind_Return_inv in H as (s1 & o1 & o2 & H1 & H2 & _).
  destruct Hin as [-> | Hin].
  - unfold footprint_step in H1.
    apply bind_Return_inv in H1 as (r & p1 & p2 & Hr & Hret & _).
    injection Hret as <- _. apply Hw in Hr.
    apply (for_each_inv (fun st => snd st = true)) in H2; [exact H2| |].
    + intros u azi' u' o _ Hu Hstep. unfold footprint_step in Hstep.
      apply bind_Return_inv in Hstep as (r' & q1 & q2 & _ & Hret & _).
      injection Hret as <- _. cbn [snd]. now rewrite Hu.
    + cbn [snd]. rewrite Hr. apply orb_true_r.
  - eapply IH; eauto.
Qed.

(** The footprint of 4000 km above (170, 0): its angular radius, in
    radians and in degrees. *)
Lemma beta_4000 :
  0.31 < 0.5 * 4000 / xkmper < 0.32 /\
  17 <= 0.5 * 4000 / xkmper / de2ra <= 19.
Proof.
  pose proof PI_bounds as HPI. pose proof de2ra_pos as Hde.
  assert (Hb : 0.31 < 0.5 * 4000 / xkmper < 0.32) by (unfold xkmper; lra).
  split; [exact Hb|].
  apply (div_de2ra_bounds _ 17 19) .
  unfold de2ra. lra.
Qed.

(** Above (170, 0) with a footprint of 4000 km, on a map that starts
    at the longitude -180, the sample of the azimuth 90 is warped: it
    lies at 170 - b degrees and its mirror at 170 + b - 360, for the
    radius b of about 18 degrees. *)
Lemma seam_sample_warped (fuel : nat) (satmap : SatMap)
    (r : sample) (out : list console) :
  left_side_lon satmap = -180 ->
  footprint_sample fuel satmap (mk_sat 0 170 4000) 90 = (Return r, out) ->
  warpedT r = true.
Proof.
  intros Hleft H. pose proof PI_bounds as HPI.
  pose proof de2ra_pos as Hde.
  destruct beta_4000 as [Hbeta Hb].
  unfold footprint_sample in H. cbn [ssplat ssplon footprint] in H.
  change (if (90 =? 0)%nat
          then north_pole_is_covered (mk_sat 0 170 4000) else ret false)
    with (@ret bool false) in H.
  rewrite bind_ret in H.
  rewrite Hleft in H.
  set (beta := 0.5 * 4000 / xkmper) in *.
  replace (0 * de2ra) with 0 in H by lra.
  assert (H90 : INR 90 = 90) by (rewrite INR_IZR_INZ; reflexivity).
  rewrite H90 in H.
  replace (de2ra * 90) with (PI / 2) in H by (unfold de2ra; lra).
  rewrite sin_0, cos_0, cos_PI2 in H.
  replace (0 * cos beta + 0 * sin beta * 1) with 0 in H by lra.
  rewrite asin_0, sin_0, cos_0 in H.
  replace (cos beta - 0 * 0) with (cos beta) in H by lra.
  replace (1 * 1) with 1 in H by lra.
  assert (Hcos : 0 < cos beta <= 1).
  { split; [apply cos_gt_0; lra | apply COS_bound]. }
  replace (abs_quotient_above_1 (cos beta) 1) with false in H.
  2:{ symmetry. unfold abs_quotient_above_1.
      replace (1 ==? 0) with false by (symmetry; apply eqb_false; lra).
      apply gtb_false. rewrite Rdiv_1_r, Rabs_pos_eq; lra. }
  replace (180 - 90 >=? 0) with true in H
    by (symmetry; apply geb_true; lra).
  replace (arccos (cos beta) 1) with beta in H.
  2:{ unfold arccos, Js.neqb.
      replace (cos beta ==? 0) with false by (symmetry; apply eqb_false; lra).
      replace (1 ==? 0) with false by (symmetry; apply eqb_false; lra).
      replace (1 >? 0) with true by (symmetry; apply gtb_true; lra).
      cbn [negb andb]. rewrite Rdiv_1_r, acos_cos; lra. }
  assert (Hr0 : - PI <= 170 * de2ra - beta <= PI) by (unfold de2ra; lra).
  apply bind_Return_inv in H as (r1 & o1 & o1' & H1 & H & _).
  apply while_num_noop in H1; [|apply ltb_false; lra]. subst r1.
  apply bind_Return_inv in H as (r2 & o2 & o2' & H2 & H & _).
  apply while_num_noop in H2; [|apply gtb_false; lra]. subst r2.
  apply bind_Return_inv in H as (wm & o3 & o3' & Hm & H & _).
  apply bind_Return_inv in H as (s & o4 & o4' & _ & H & _).
  apply bind_Return_inv in H as (ms & o5 & o5' & _ & H & _).
  injection H as <- _. cbn [warpedT].
  replace ((170 * de2ra - beta) / de2ra) with (170 - beta / de2ra) in Hm
    by (field; lra).
  set (b := beta / de2ra) in *.
  unfold mirror_lon in Hm. cbn [ssplon] in Hm.
  replace (170 - (170 - b)) with b in Hm by lra.
  apply bind_Return_inv in Hm as (d1 & p1 & p1' & L1 & Hm & _).
  apply while_num_noop in L1; [|apply ltb_false; lra]. subst d1.
  apply bind_Return_inv in Hm as (d2 & p2 & p2' & L2 & Hm & _).
  apply while_num_noop in L2; [|apply gtb_false; lra]. subst d2.
  rewrite (Rabs_pos_eq b) in Hm by lra.
  apply bind_Return_inv in Hm as (m1 & p3 & p3' & L3 & Hm & _).
  apply while_num_once in L3;
    [|apply gtb_true; lra | apply gtb_false; lra]. subst m1.
  apply bind_Return_inv in Hm as (m2 & p4 & p4' & L4 & Hm & _).
  apply while_num_noop in L4; [|apply ltb_false; lra]. subst m2.
  injection Hm as <-. cbn [fst].
  unfold left_of_break.
  replace (170 <? -180 + 180) with false by (symmetry; apply ltb_false; lra).
  replace (170 <? -180 - 180) with false by (symmetry; apply ltb_false; lra).
  rewrite andb_false_r. cbn [andb orb].
  replace (170 + b - 360 >=? -180) with true
    by (symmetry; apply geb_true; lra).
  replace (170 + b - 360 <? -180 + 180) with true
    by (symmetry; apply ltb_true; lra).
  reflexivity.
Qed.

(** The first scan of the left-of-midpoint procedure, when no point
    lies right of the midpoint: the index runs through the array and
    the read after its end throws. *)
Lemma scan_forward_out_of_bounds (points1 : list XY) (mid : R) :
  Forall (fun p => x p <= mid) points1 ->
  forall (fuel k : nat) (tps1 tps2 : list XY),
    (k <= length points1)%nat -> (length points1 - k < fuel)%nat ->
    while fuel
      (fun s => p <- get points1 (scan_i s) ;; ret (x p <=? mid))
      (fun s => ret (mk_scan (scan_i s + 1) (scan_tps1 s) (scan_tps2 s)))
      (mk_scan (Z.of_nat k) tps1 tps2) = (TypeError, []).
Proof.
  intros Hall. rewrite Forall_lookup in Hall.
  induction fuel as [|fuel IH]; intros k tps1 tps2 Hk Hf; [lia|].
  cbn [while scan_i scan_tps1 scan_tps2].
  destruct (Nat.eq_dec k (length points1)) as [-> | Hne].
  - rewrite get_outside by lia. reflexivity.
  - destruct (lookup_lt_is_Some_2 points1 k) as [p Hp]; [lia|].
    rewrite (get_lookup _ _ _ Hp), !bind_ret.
    replace (x p <=? mid) with true
      by (symmetry; apply leb_true; eapply Hall; eauto).
    cbv iota.
    replace (Z.of_nat k + 1)%Z with (Z.of_nat (S k)) by lia.
    apply IH; lia.
Qed.

Lemma split_points_left_throws (fuel : nat) (satmap : SatMap) (sat : Sat)
    (sspx : R) (points1 : list XY) :
  -179.4 < ssplon sat < 179.4 ->
  sspx < x0 satmap + width satmap / 2 ->
  Forall (fun p => x p <= x0 satmap + width satmap / 2) points1 ->
  (length points1 < fuel)%nat ->
  split_points fuel satmap sat sspx points1 =
  (TypeError, [console_log "split 2"]).
Proof.
  intros Hlon Hss Hall Hf. unfold split_points, split_left_of_center.
  replace (ssplon sat >=? 179.4) with false
    by (symmetry; apply geb_false; lra).
  replace (ssplon sat <=? -179.4) with false
    by (symmetry; apply leb_false; lra).
  cbn [orb].
  replace (sspx <? x0 satmap + width satmap / 2) with true
    by (symmetry; apply ltb_true; lra).
  change 0%Z with (Z.of_nat 0) at 1.
  rewrite (scan_forward_out_of_bounds points1 _ Hall fuel 0 [] []) by lia.
  reflexivity.
Qed.

(** What [calculate_footprint] does above (170, 0) with a footprint of
    4000 km, on the map drawn from x0 = 1000: the pole test fails, the
    loop flags a warp, the sub-satellite point projects left of the
    midpoint x0 + width / 2 = 1360, and so does every sampled point. *)
Lemma seam_footprint_on_shifted_map :
  exists n : nat, forall fuel : nat, (n <= fuel)%nat ->
    exists (points1 : list XY) (sspx ssy : R),
      footprint_points fuel shifted_map (mk_sat 0 170 4000) =
        (Return (points1, true), []) /\
      pole_is_covered (mk_sat 0 170 4000) = (Return false, []) /\
      lonlat_to_xy fuel shifted_map 170 0 = (Return (sspx, ssy), []) /\
      length points1 = 360%nat /\ (length points1 < fuel)%nat /\
      sspx < 1360 /\
      Forall (fun p => x p <= 1360) points1.
Proof.
  set (sat := mk_sat 0 170 4000).
  destruct (footprint_points_terminates shifted_map sat)
    as ([pts w] & out & n1 & Hconv); [simpl; lra|].
  destruct (lonlat_to_xy_terminates shifted_map 170 0)
    as ([sspx ssy] & out2 & n2 & Hconv2); [simpl; lra|].
  exists (Nat.max 361 (Nat.max n1 n2)). intros fuel Hfuel.
  pose proof (Hconv fuel ltac:(lia)) as Hpts.
  pose proof (Hconv2 fuel ltac:(lia)) as Hss.
  destruct (equator_pole_not_covered 170 4000) as (Hn & _ & Hc);
    [unfold valid_lon; lra | lra |].
  fold sat in Hn, Hc.
  pose proof (footprint_points_out _ _ _ _ _ Hpts) as Hout.
  rewrite Hn in Hout. simpl in Hout. subst out.
  assert (Hw : w = true).
  { apply (footprint_points_warped fuel shifted_map sat 90) in Hpts;
      [exact Hpts | lia |].
    intros r o Hr. now apply seam_sample_warped in Hr. }
  subst w.
  destruct (footprint_points_range fuel shifted_map sat pts true [])
    as [Hlen Hall]; [simpl; lra | exact Hpts |].
  apply lonlat_to_xy_range in Hss as Hr. destruct Hr as (Hx & _ & ->).
  simpl in Hx, Hall.
  exists pts, sspx, ssy.
  repeat split; try assumption; try lia; try lra.
  eapply Forall_impl; [exact Hall|]. simpl. intros p Hp. lra.
Qed.

(** C6, on the code.  Above (170, 0) with a footprint of 4000 km, on
    the map drawn from x0 = 1000, [calculate_footprint] enters the
    warped branch and returns no polyline at all: it ends with a
    [TypeError] in [split_points]. *)
Theorem warped_footprint_throws_on_shifted_map :
  pole_is_covered (mk_sat 0 170 4000) = (Return false, []) /\
  exists n : nat, forall fuel : nat, (n <= fuel)%nat ->
    (exists points1 : list XY,
       footprint_points fuel shifted_map (mk_sat 0 170 4000) =
       (Return (points1, true), [])) /\
    calculate_footprint fuel shifted_map (mk_sat 0 170 4000) =
    (TypeError, [console_log "WARPED"; console_log "split 2"]).
Proof.
  destruct seam_footprint_on_shifted_map as [n Hn].
  split.
  { destruct (Hn n (Nat.le_refl n)) as (_ & _ & _ & _ & Hc & _). exact Hc. }
  exists n. intros fuel Hfuel.
  destruct (Hn fuel Hfuel)
    as (pts & sspx & ssy & Hpts & Hc & Hss & Hlen & Hf & Hx & Hall).
  split; [now exists pts|].
  unfold calculate_footprint.
  rewrite Hpts, bind_Return. cbn [fst snd].
  rewrite Hc, bind_Return. cbn [fst snd].
  cbn [ssplon ssplat]. rewrite Hss.
  unfold print. rewrite !bind_Return. cbn [fst snd].
  rewrite split_points_left_throws; simpl; try lra; try assumption.
  - reflexivity.
  - eapply Forall_impl; [exact Hall|]. simpl. intros. lra.
Qed.

(** C7, on the code.  In the same call [split_points] is invoked with
    the sub-satellite point left of the midpoint, and its first scan
    runs past the last index, 359: no point has its x above the
    midpoint. *)
Theorem split_points_scan_out_of_bounds_on_shifted_map :
  exists n : nat, forall fuel : nat, (n <= fuel)%nat ->
    exists (points1 : list XY) (sspx ssy : R),
      footprint_points fuel shifted_map (mk_sat 0 170 4000) =
        (Return (points1, true), []) /\
      pole_is_covered (mk_sat 0 170 4000) = (Return false, []) /\
      lonlat_to_xy fuel shifted_map 170 0 = (Return (sspx, ssy), []) /\
      length points1 = 360%nat /\
      Forall (fun p => x p <= x0 shifted_map + width shifted_map / 2)
        points1 /\
      while fuel
        (fun s => p <- get points1 (scan_i s) ;;
                  ret (x p <=? x0 shifted_map + width shifted_map / 2))
        (fun s => ret (mk_scan (scan_i s + 1) (scan_tps1 s) (scan_tps2 s)))
        (mk_scan 0 [] []) = (TypeError, []) /\
      split_points fuel shifted_map (mk_sat 0 170 4000) sspx points1 =
        (TypeError, [console_log "split 2"]).
Proof.
  destruct seam_footprint_on_shifted_map as [n Hn].
  exists n. intros fuel Hfuel.
  destruct (Hn fuel Hfuel)
    as (pts & sspx & ssy & Hpts & Hc & Hss & Hlen & Hf & Hx & Hall).
  assert (Hall' : Forall
            (fun p => x p <= x0 shifted_map + width shifted_map / 2) pts).
  { eapply Forall_impl; [exact Hall|]. simpl. intros. lra. }
  exists pts, sspx, ssy.
  repeat split; try assumption.
  - change 0%Z with (Z.of_nat 0).
    apply scan_forward_out_of_bounds; [exact Hall' | lia | lia].
  - apply split_points_left_throws; simpl; try lra; assumption.
Qed.

(** ** The margin of a pole that is not covered *)

(** Four terms of Machin's series. *)
Lemma PI_tight : 3.1415 < PI < 3.1421.
Proof.
  pose proof (PI_2_3_7_ineq 1) as [Hl Hu].
  unfold sum_f_R0, tg_alt, PI_2_3_7_tg, Ratan_seq in Hl, Hu.
  simpl in Hl, Hu. lra.
Qed.

Lemma cos_taylor (a : R) :
  -2 <= a <= 2 ->
  1 - a * a / 2 <= cos a <= 1 - a * a / 2 + a * a * a * a / 24.
Proof.
  intros [H1 H2]. pose proof (pre_cos_bound a 0 H1 H2) as [Hl Hu].
  unfold cos_approx, sum_f_R0, cos_term in Hl, Hu. simpl in Hl, Hu.
  split.
  - eapply Rle_trans; [|exact Hl]. right. field.
  - eapply Rle_trans; [exact Hu|]. right. field.
Qed.

Lemma acos_le (t theta : R) :
  0 <= theta <= PI -> cos theta <= t <= 1 -> acos t <= theta.
Proof.
  intros Hth Ht. pose proof (COS_bound theta) as Hc.
  pose proof (acos_bound t) as Hb.
  destruct (Rle_lt_dec (acos t) theta) as [H | H]; [exact H | exfalso].
  assert (Hlt : cos (acos t) < cos theta)
    by (apply cos_decreasing_1; lra).
  rewrite cos_acos in Hlt by lra. lra.
Qed.

(** An arc whose cosine is not above the coincidence threshold is at
    least 4e-8 radian long. *)
Lemma arc_above_threshold (theta : R) :
  0 <= theta <= PI -> cos theta <= 0.999999999999999 -> 0.00000004 <= theta.
Proof.
  intros Hth Hc.
  destruct (Rle_lt_dec 0.00000004 theta) as [H | H]; [exact H | exfalso].
  destruct (cos_taylor theta) as [Hl _]; [lra|].
  assert (theta * theta <= 0.00000004 * 0.00000004)
    by (apply Rmult_le_compat; lra).
  lra.
Qed.

(** An arc whose cosine is below the antipodal threshold is within
    0.002 radian of a half circle. *)
Lemma arc_below_threshold (theta : R) :
  0 <= theta <= PI -> cos theta < -0.999999 -> PI - 0.002 < theta.
Proof.
  intros Hth Hc. pose proof PI_tight as HPI.
  destruct (Rlt_le_dec (PI - 0.002) theta) as [H | H]; [exact H | exfalso].
  assert (Hd : cos (PI - 0.002) <= cos theta)
    by (apply cos_decr_1; lra).
  rewrite cos_minus, cos_PI, sin_PI in Hd.
  destruct (cos_taylor 0.002) as [_ Hu]; [lra|]. lra.
Qed.

(** The latitude of the pole of the pole tests, 1e-9 degree off the
    pole. *)
Lemma off_pole_latitude :
  89.999999999 / RADIAN = PI / 2 - 0.000000001 * PI / 180.
Proof. rewrite div_RADIAN. lra. Qed.

(** The cosine of the arc to the point (0, l) is at least the cosine of
    the arc along the meridians through the pole. *)
Lemma cos_arc_through_pole (lon a l : R) :
  0 <= cos a -> 0 <= cos l ->
  cos (PI - a - l) <= cos_arc lon a (0 / RADIAN) l.
Proof.
  intros Ha Hl. unfold cos_arc.
  replace (PI - a - l) with (PI - (a + l)) by lra.
  rewrite cos_minus, cos_PI, sin_PI, cos_plus.
  pose proof (COS_bound (0 / RADIAN - lon)) as Hc.
  assert (0 <= cos a * cos l * (cos (0 / RADIAN - lon) + 1)).
  { apply Rmult_le_pos; [apply Rmult_le_pos; assumption | lra]. }
  lra.
Qed.

Lemma RADIAN_bounds : RADIAN * PI = 180 /\ 57.28 < RADIAN < 57.2976.
Proof.
  pose proof PI_tight as HPI. pose proof RADIAN_pos as HR.
  assert (H : RADIAN * PI = 180) by (unfold RADIAN; field; lra).
  split; [exact H|]. split; nra.
Qed.

(** When the test of the North pole fails on a valid satellite with a
    footprint that is not negative, the northernmost point of the
    footprint is south of the pole. *)
Lemma north_margin (lat lon f : R) :
  valid_lat lat -> valid_lon lon -> 0 <= f ->
  (distance (qrb lon lat 0 90) <=? 0.5 * f) = false ->
  lat * de2ra + 0.5 * f / xkmper < PI / 2.
Proof.
  intros Hlat Hlon Hf Hd. apply leb_false in Hd.
  pose proof PI_tight as HPI. destruct RADIAN_bounds as [HRP HR].
  set (beta := 0.5 * f / xkmper).
  assert (Hbeta : 0 <= beta /\ 0.5 * f = beta * 6378.135).
  { subst beta. unfold xkmper. split; lra. }
  destruct Hbeta as [Hb0 Hbf]. rewrite Hbf in Hd. clear Hbf.
  rewrite qrb_distance in Hd.
  replace (out_of_range lon lat 0 90) with false in Hd
    by (symmetry; apply out_of_range_false;
        unfold valid_lat, valid_lon in *; lra).
  cbv zeta in Hd.
  replace (off_pole 90) with 89.999999999 in Hd
    by (unfold off_pole; now rewrite (proj2 (eqb_true 90 90) eq_refl)).
  pose proof off_pole_latitude as Hl.
  set (l := 89.999999999 / RADIAN) in *.
  set (a' := off_pole lat / RADIAN) in *.
  assert (Ha' : - (PI / 2) <= a' <= PI / 2 /\ (a' = l \/ lat * de2ra <= a')).
  { subst a'. unfold off_pole, valid_lat in *. js_cmp.
    - fold l. lra.
    - replace (-89.999999999 / RADIAN) with (- l)
        by (subst l; unfold Rdiv; lra).
      split; [lra|]. right. subst lat. unfold de2ra. lra.
    - rewrite div_RADIAN. unfold de2ra. split; [nra|]. right. nra. }
  destruct Ha' as [Ha' Hrel].
  set (theta := PI - a' - l).
  assert (Hth0 : 0 <= theta) by (subst theta; lra).
  set (tmp := cos_arc (lon / RADIAN) a' (0 / RADIAN) l) in *.
  assert (Hkey : cos theta <= tmp).
  { subst theta tmp. apply cos_arc_through_pole; apply cos_ge_0; lra. }
  destruct (tmp >? 0.999999999999999) eqn:E1; [lra|].
  apply gtb_false in E1.
  destruct (tmp <? -0.999999) eqn:E2.
  - (* the antipodal branch *)
    apply ltb_true in E2.
    assert (Hanti : PI - 0.002 < theta).
    { destruct (Rle_lt_dec theta PI) as [Hle | Hgt]; [|lra].
      apply arc_below_threshold; lra. }
    unfold ARC_IN_KM in Hd. subst theta.
    destruct Hrel as [Heq | Hle]; lra.
  - (* the general branch *)
    apply ltb_false in E2.
    assert (Hacos : acos tmp <= theta).
    { destruct (Rle_lt_dec theta PI) as [Hle | Hgt].
      - apply acos_le; lra.
      - pose proof (acos_bound tmp). lra. }
    assert (Hbig : 0.00000004 <= theta).
    { destruct (Rle_lt_dec theta PI) as [Hle | Hgt]; [|lra].
      apply arc_above_threshold; lra. }
    pose proof (acos_bound tmp) as Hab.
    assert (H1 : RADIAN * acos tmp <= 57.2976 * theta).
    { apply Rmult_le_compat; lra. }
    unfold ARC_IN_KM in Hd. rewrite Rmult_assoc in Hd.
    subst theta. destruct Hrel as [Heq | Hle]; lra.
Qed.

Lemma off_pole_opp (lat : R) : off_pole (- lat) = - off_pole lat.
Proof. unfold off_pole. js_cmp; lra. Qed.

(** The South pole seen from a latitude is the North pole seen from
    the opposite latitude. *)
Lemma qrb_distance_south (lon lat : R) :
  distance (qrb lon lat 0 (-90)) = distance (qrb lon (- lat) 0 90).
Proof.
  rewrite !qrb_distance.
  assert (Ho : out_of_range lon lat 0 (-90) = out_of_range lon (- lat) 0 90).
  { unfold out_of_range. js_cmp; try reflexivity; lra. }
  rewrite Ho. cbv zeta.
  assert (Hc : cos_arc (lon / RADIAN) (off_pole lat / RADIAN)
                 (0 / RADIAN) (off_pole (-90) / RADIAN) =
               cos_arc (lon / RADIAN) (off_pole (- lat) / RADIAN)
                 (0 / RADIAN) (off_pole 90 / RADIAN)).
  { rewrite off_pole_opp.
    replace (-90) with (Ropp 90) by lra. rewrite off_pole_opp.
    unfold cos_arc.
    replace (- off_pole lat / RADIAN) with (- (off_pole lat / RADIAN))
      by (unfold Rdiv; lra).
    replace (- off_pole 90 / RADIAN) with (- (off_pole 90 / RADIAN))
      by (unfold Rdiv; lra).
    rewrite !sin_neg, !cos_neg. ring. }
  now rewrite Hc.
Qed.

(** The same for the South pole: the southernmost point of the
    footprint is north of the pole. *)
Lemma south_margin (lat lon f : R) :
  valid_lat lat -> valid_lon lon -> 0 <= f ->
  (distance (qrb lon lat 0 (-90)) <=? 0.5 * f) = false ->
  - (PI / 2) < lat * de2ra - 0.5 * f / xkmper.
Proof.
  intros Hlat Hlon Hf Hd. rewrite qrb_distance_south in Hd.
  apply north_margin in Hd; auto; [|unfold valid_lat in *; lra].
  lra.
Qed.

(** ** The first sample *)

Lemma lonlat_to_xy_x (fuel : nat) (p : SatMap) (lon lat1 lat2 : R)
    (xy1 xy2 : R * R) (o1 o2 : list console) :
  lonlat_to_xy fuel p lon lat1 = (Return xy1, o1) ->
  lonlat_to_xy fuel p lon lat2 = (Return xy2, o2) ->
  fst xy1 = fst xy2.
Proof.
  unfold lonlat_to_xy. intros H1 H2.
  apply bind_Return_inv in H1 as (u1 & ? & ? & L1 & H1 & _).
  apply bind_Return_inv in H1 as (v1 & ? & ? & M1 & H1 & _).
  apply bind_Return_inv in H2 as (u2 & ? & ? & L2 & H2 & _).
  apply bind_Return_inv in H2 as (v2 & ? & ? & M2 & H2 & _).
  injection H1 as <-. injection H2 as <-. simpl.
  rewrite L1 in L2. injection L2 as <-.
  rewrite M1 in M2. now injection M2 as <-.
Qed.

(** When the North pole is not covered, the sample of the azimuth 0
    lies on the meridian of the sub-satellite point, and so does its
    mirror: both project to the x of the sub-satellite point. *)
Lemma first_sample_on_meridian (fuel : nat) (satmap : SatMap) (sat : Sat)
    (r : sample) (out : list console) (ss : R * R) (o o' : list console) :
  valid_lat (ssplat sat) -> valid_lon (ssplon sat) -> 0 <= footprint sat ->
  north_pole_is_covered sat = (Return false, o) ->
  footprint_sample fuel satmap sat 0 = (Return r, out) ->
  lonlat_to_xy fuel satmap (ssplon sat) (ssplat sat) = (Return ss, o') ->
  x (point r) = fst ss /\ x (mirror r) = fst ss.
Proof.
  intros Hlat Hlon Hf Hn H Hss.
  pose proof PI_tight as HPI. pose proof de2ra_pos as Hde.
  assert (Hm : ssplat sat * de2ra + 0.5 * footprint sat / xkmper < PI / 2).
  { rewrite north_pole_is_covered_eq in Hn. injection Hn as Hn' _.
    now apply (north_margin _ (ssplon sat)). }
  unfold footprint_sample in H.
  change (0 =? 0)%nat with true in H. cbv iota in H.
  apply bind_Return_inv in H as (north & o0 & o0' & Hn' & H & _).
  rewrite Hn in Hn'. injection Hn' as <- _.
  set (a := ssplat sat * de2ra) in *.
  set (beta := 0.5 * footprint sat / xkmper) in *.
  assert (Hbeta : 0 <= beta) by (subst beta; unfold xkmper; lra).
  assert (Ha : - (PI / 2) <= a <= PI / 2)
    by (subst a; unfold valid_lat, de2ra in *; nra).
  change (INR 0) with 0 in H.
  replace (de2ra * 0) with 0 in H by lra. rewrite cos_0 in H.
  replace (sin a * cos beta + 1 * sin beta * cos a) with (sin (a + beta)) in H
    by (rewrite sin_plus; ring).
  rewrite asin_sin in H by lra.
  set (dem := cos a * cos (a + beta)) in H.
  replace (cos beta - sin a * sin (a + beta)) with dem in H.
  2:{ subst dem. replace beta with ((a + beta) - a) at 2 by ring.
      rewrite cos_minus. ring. }
  assert (Hdem : 0 <= dem).
  { subst dem. apply Rmult_le_pos; apply cos_ge_0; lra. }
  replace (abs_quotient_above_1 dem dem) with false in H.
  2:{ unfold abs_quotient_above_1, Js.neqb. destruct (dem ==? 0) eqn:E.
      - reflexivity.
      - apply eqb_false in E. symmetry. apply gtb_false.
        replace (dem / dem) with 1 by (field; exact E).
        rewrite Rabs_R1. lra. }
  replace (180 - 0 >=? 0) with true in H by (symmetry; apply geb_true; lra).
  replace (arccos dem dem) with 0 in H.
  2:{ unfold arccos, Js.neqb. destruct (dem ==? 0) eqn:E; [reflexivity|].
      apply eqb_false in E. cbn [negb andb].
      replace (dem >? 0) with true by (symmetry; apply gtb_true; lra).
      replace (dem / dem) with 1 by (field; exact E).
      now rewrite acos_1. }
  assert (Hlonr : - PI <= ssplon sat * de2ra - 0 <= PI)
    by (unfold valid_lon, de2ra in *; nra).
  apply bind_Return_inv in H as (r1 & o1 & o1' & H1 & H & _).
  apply while_num_noop in H1; [|apply ltb_false; lra]. subst r1.
  apply bind_Return_inv in H as (r2 & o2 & o2' & H2 & H & _).
  apply while_num_noop in H2; [|apply gtb_false; lra]. subst r2.
  replace ((ssplon sat * de2ra - 0) / de2ra) with (ssplon sat) in H
    by (field; lra).
  apply bind_Return_inv in H as (wm & o3 & o3' & Hmir & H & _).
  assert (Hmlon : snd wm = ssplon sat).
  { unfold mirror_lon in Hmir. unfold valid_lon in Hlon.
    replace (ssplon sat - ssplon sat) with 0 in Hmir by ring.
    apply bind_Return_inv in Hmir as (d1 & p1 & p1' & L1 & Hmir & _).
    apply while_num_noop in L1; [|apply ltb_false; lra]. subst d1.
    apply bind_Return_inv in Hmir as (d2 & p2 & p2' & L2 & Hmir & _).
    apply while_num_noop in L2; [|apply gtb_false; lra]. subst d2.
    rewrite Rabs_R0, Rplus_0_r in Hmir.
    apply bind_Return_inv in Hmir as (m1 & p3 & p3' & L3 & Hmir & _).
    apply while_num_noop in L3; [|apply gtb_false; lra]. subst m1.
    apply bind_Return_inv in Hmir as (m2 & p4 & p4' & L4 & Hmir & _).
    apply while_num_noop in L4; [|apply ltb_false; lra]. subst m2.
    now injection Hmir as <-. }
  rewrite Hmlon in H.
  apply bind_Return_inv in H as (s & o4 & o4' & Hs & H & _).
  apply bind_Return_inv in H as (ms & o5 & o5' & Hms & H & _).
  injection H as <-. cbn [point mirror x].
  split.
  - eapply lonlat_to_xy_x; eauto.
  - eapply lonlat_to_xy_x; eauto.
Qed.

(** ** Warped samples on a map from the longitude -180, with x0 = 0 *)

(** The x of a longitude between -180 and 180 on such a map. *)
Lemma lonlat_to_xy_app (fuel : nat) (p : SatMap) (lon lat : R)
    (xy : R * R) (out : list console) :
  x0 p = 0 -> left_side_lon p = -180 -> 0 < width p ->
  -180 <= lon <= 180 ->
  lonlat_to_xy fuel p lon lat = (Return xy, out) ->
  fst xy = (lon + 180) * width p / 360.
Proof.
  intros Hx0 Hleft Hw Hlon H. unfold lonlat_to_xy in H.
  rewrite Hx0, Hleft in H.
  assert (Hx : 0 <= 0 + (lon - -180) * width p / 360 <= width p) by nra.
  apply bind_Return_inv in H as (u & ? & ? & L1 & H & _).
  apply while_num_noop in L1; [|apply ltb_false; lra]. subst u.
  apply bind_Return_inv in H as (v & ? & ? & L2 & H & _).
  apply while_num_noop in L2; [|apply gtb_false; lra]. subst v.
  injection H as <-. simpl. lra.
Qed.

(** East of the meridian 0 a warped sample has its mirror on the left
    half of the map. *)
Lemma warped_mirror_left (fuel : nat) (p : SatMap) (sat : Sat) (azi : nat)
    (r : sample) (out : list console) :
  x0 p = 0 -> left_side_lon p = -180 -> 0 < width p ->
  0 <= ssplon sat <= 180 ->
  footprint_sample fuel p sat azi = (Return r, out) ->
  warpedT r = true ->
  x (mirror r) < width p / 2.
Proof.
  intros Hx0 Hleft Hw Hlon H Hwarp. unfold footprint_sample in H.
  apply bind_Return_inv in H as (north & ? & ? & _ & H & _).
  apply bind_Return_inv in H as (r1 & ? & ? & _ & H & _).
  apply bind_Return_inv in H as (r2 & ? & ? & _ & H & _).
  apply bind_Return_inv in H as (wm & ? & ? & Hm & H & _).
  apply bind_Return_inv in H as (s & ? & ? & _ & H & _).
  apply bind_Return_inv in H as (ms & ? & ? & Hms & H & _).
  injection H as <-. cbn [warpedT mirror x] in *.
  unfold mirror_lon in Hm. rewrite Hleft in Hm.
  apply bind_Return_inv in Hm as (d1 & ? & ? & _ & Hm & _).
  apply bind_Return_inv in Hm as (d2 & ? & ? & _ & Hm & _).
  apply bind_Return_inv in Hm as (m1 & ? & ? & L3 & Hm & _).
  apply bind_Return_inv in Hm as (m2 & ? & ? & L4 & Hm & _).
  injection Hm as <-. cbn [fst snd] in *.
  apply (while_num_inv (fun _ => True)) in L3 as (_ & C3 & _); auto.
  apply (while_num_inv (fun u => u <= 180)) in L4 as (P4 & C4 & _).
  2:{ apply gtb_false in C3. exact C3. }
  2:{ intros u Hu Hc. apply ltb_true in Hc. lra. }
  apply ltb_false in C4.
  assert (Hneg : m2 < 0).
  { unfold left_of_break in Hwarp.
    replace (ssplon sat <? -180 + 180) with false in Hwarp
      by (symmetry; apply ltb_false; lra).
    replace (ssplon sat <? -180 - 180) with false in Hwarp
      by (symmetry; apply ltb_false; lra).
    rewrite andb_false_r in Hwarp. cbn [andb orb] in Hwarp.
    replace (m2 <? -180 - 180) with false in Hwarp
      by (symmetry; apply ltb_false; lra).
    cbn [andb] in Hwarp. rewrite orb_false_r in Hwarp.
    destruct (m2 <? -180 + 180) eqn:E.
    - apply ltb_true in E. lra.
    - rewrite andb_false_r in Hwarp. discriminate. }
  apply lonlat_to_xy_app in Hms; try assumption; [|lra].
  rewrite Hms. nra.
Qed.

(** When no pole is covered, no sample lies on the meridian opposite
    to the sub-satellite point: the difference of longitude that
    [arccos] returns stays below PI. *)
Lemma sample_delta_lt_PI (a beta az : R) :
  - (PI / 2) <= a <= PI / 2 -> 0 <= beta ->
  a + beta < PI / 2 -> - (PI / 2) < a - beta ->
  let rangelat := asin (sin a * cos beta + cos az * sin beta * cos a) in
  let num := cos beta - sin a * sin rangelat in
  let dem := cos a * cos rangelat in
  abs_quotient_above_1 num dem = false ->
  0 <= arccos num dem < PI.
Proof.
  intros Ha Hb Hn Hs rangelat num dem Habs.
  pose proof PI_tight as HPI.
  pose proof (asin_bound (sin a * cos beta + cos az * sin beta * cos a)) as Hphi.
  fold rangelat in Hphi.
  assert (Hdem : 0 <= dem)
    by (subst dem; apply Rmult_le_pos; apply cos_ge_0; lra).
  split; [apply arccos_bound; exact Hdem|].
  assert (Hsum : 0 < num + dem).
  { replace (num + dem) with (cos beta + cos (a + rangelat))
      by (subst num dem; rewrite cos_plus; ring).
    assert (Hc : cos (PI - beta) = - cos beta)
      by (rewrite cos_minus, cos_PI, sin_PI; ring).
    destruct (Rle_lt_dec 0 (a + rangelat)) as [Hpos | Hneg].
    - assert (cos (PI - beta) < cos (a + rangelat))
        by (apply cos_decreasing_1; lra).
      lra.
    - rewrite <- (cos_neg (a + rangelat)).
      assert (cos (PI - beta) < cos (- (a + rangelat)))
        by (apply cos_decreasing_1; lra).
      lra. }
  unfold arccos, Js.neqb.
  destruct (num ==? 0) eqn:E1; [cbn [negb andb]; lra|].
  destruct (dem ==? 0) eqn:E2; [cbn [negb andb]; lra|].
  apply eqb_false in E2. cbn [negb andb].
  replace (dem >? 0) with true by (symmetry; apply gtb_true; lra).
  unfold abs_quotient_above_1 in Habs.
  replace (dem ==? 0) with false in Habs by (symmetry; apply eqb_false; exact E2).
  apply gtb_false in Habs.
  assert (Ht : -1 <= num / dem <= 1).
  { pose proof (Rle_abs (num / dem)). pose proof (Rle_abs (- (num / dem))).
    rewrite Rabs_Ropp in *. lra. }
  pose proof (acos_bound (num / dem)) as Hab.
  destruct (Rlt_le_dec (acos (num / dem)) PI) as [Hlt | Hge]; [exact Hlt|].
  exfalso. assert (Hpi : acos (num / dem) = PI) by lra.
  apply (f_equal cos) in Hpi. rewrite cos_acos, cos_PI in Hpi by exact Ht.
  assert (num = - dem).
  { replace num with (num / dem * dem) by (field; exact E2). rewrite Hpi. ring. }
  lra.
Qed.

(** West of the meridian 0 a warped sample lies on the right half of
    the map. *)
Lemma warped_point_right (fuel : nat) (p : SatMap) (sat : Sat) (azi : nat)
    (o o' : list console) (r : sample) (out : list console) :
  x0 p = 0 -> left_side_lon p = -180 -> 0 < width p ->
  valid_lat (ssplat sat) -> -180 <= ssplon sat < 0 ->
  0 <= footprint sat ->
  north_pole_is_covered sat = (Return false, o) ->
  south_pole_is_covered sat = (Return false, o') ->
  (azi <= 180)%nat ->
  footprint_sample fuel p sat azi = (Return r, out) ->
  warpedT r = true ->
  width p / 2 < x (point r).
Proof.
  intros Hx0 Hleft Hw Hlat Hlon Hf Hn Hsouth Hazi H Hwarp.
  pose proof PI_tight as HPI. pose proof de2ra_pos as Hde.
  assert (Hvlon : valid_lon (ssplon sat)) by (unfold valid_lon; lra).
  assert (Hmn : ssplat sat * de2ra + 0.5 * footprint sat / xkmper < PI / 2).
  { rewrite north_pole_is_covered_eq in Hn. injection Hn as Hn _.
    now apply (north_margin _ (ssplon sat)). }
  assert (Hms : - (PI / 2) < ssplat sat * de2ra - 0.5 * footprint sat / xkmper).
  { rewrite south_pole_is_covered_eq in Hsouth. injection Hsouth as Hs' _.
    now apply (south_margin _ (ssplon sat)). }
  assert (Hbeta : 0 <= 0.5 * footprint sat / xkmper) by (unfold xkmper; lra).
  unfold footprint_sample in H.
  apply bind_Return_inv in H as (north & ? & ? & Hn' & H & _).
  assert (north = false) as ->.
  { destruct (azi =? 0)%nat.
    - rewrite Hn in Hn'. now injection Hn' as <-.
    - now injection Hn' as <-. }
  set (a := ssplat sat * de2ra) in *.
  set (rangelat := asin _) in H.
  set (num := cos _ - _) in H. set (dem := cos a * cos rangelat) in H.
  assert (Ha : - (PI / 2) <= a <= PI / 2)
    by (subst a; unfold valid_lat, de2ra in *; nra).
  assert (Hdem : 0 <= dem).
  { subst dem. apply Rmult_le_pos; apply cos_ge_0; try lra.
    - subst rangelat. apply asin_bound.
    - subst rangelat. apply asin_bound. }
  pose proof (sample_delta_lt_PI a _ (de2ra * INR azi) Ha Hbeta Hmn Hms)
    as Harc.
  cbv zeta in Harc. fold rangelat num dem in Harc.
  pose proof (INR_le_180 azi Hazi) as Hi.
  replace (180 - INR azi >=? 0) with true in H
    by (symmetry; apply geb_true; lra).
  set (lam := ssplon sat * de2ra) in *.
  assert (Hlam : - PI <= lam < 0) by (subst lam; unfold de2ra; nra).
  set (rangelon0 := if abs_quotient_above_1 num dem then lam
                    else lam - arccos num dem) in H.
  assert (Hr0 : - (2 * PI) < rangelon0 < 0).
  { subst rangelon0. destruct (abs_quotient_above_1 num dem) eqn:Eabs; [lra|].
    specialize (Harc eq_refl). lra. }
  apply bind_Return_inv in H as (r1 & ? & ? & L1 & H & _).
  apply bind_Return_inv in H as (r2 & ? & ? & L2 & H & _).
  apply bind_Return_inv in H as (wm & ? & ? & Hm & H & _).
  apply bind_Return_inv in H as (s & ? & ? & Hs & H & _).
  apply bind_Return_inv in H as (ms & ? & ? & _ & H & _).
  injection H as <-. cbn [warpedT point x] in *.
  destruct (Rle_lt_dec (- PI) rangelon0) as [Hge | Hlt].
  - (* no wrap: the sample is on the left half, and not warped *)
    exfalso.
    apply while_num_noop in L1; [|apply ltb_false; lra]. subst r1.
    apply while_num_noop in L2; [|apply gtb_false; lra]. subst r2.
    assert (Hd : -180 <= rangelon0 / de2ra <= 0).
    { apply div_de2ra_bounds. unfold de2ra. lra. }
    assert (Hd0 : rangelon0 / de2ra < 0).
    { unfold Rdiv. apply Rmult_neg_pos; [lra|].
      apply Rinv_0_lt_compat. lra. }
    unfold mirror_lon in Hm. rewrite Hleft in Hm.
    apply bind_Return_inv in Hm as (d1 & ? & ? & _ & Hm & _).
    apply bind_Return_inv in Hm as (d2 & ? & ? & _ & Hm & _).
    apply bind_Return_inv in Hm as (m1 & ? & ? & _ & Hm & _).
    apply bind_Return_inv in Hm as (m2 & ? & ? & _ & Hm & _).
    injection Hm as <-. cbn [fst] in Hwarp.
    unfold left_of_break in Hwarp.
    replace (ssplon sat >=? -180) with true in Hwarp
      by (symmetry; apply geb_true; lra).
    replace (ssplon sat <? -180 + 180) with true in Hwarp
      by (symmetry; apply ltb_true; lra).
    replace (rangelon0 / de2ra >=? -180) with true in Hwarp
      by (symmetry; apply geb_true; lra).
    replace (rangelon0 / de2ra <? -180 + 180) with true in Hwarp
      by (symmetry; apply ltb_true; lra).
    discriminate.
  - (* one wrap: the sample is on the right half *)
    apply while_num_once in L1;
      [|apply ltb_true; lra | apply ltb_false; lra]. subst r1.
    apply while_num_noop in L2; [|apply gtb_false; lra]. subst r2.
    assert (Hd : 0 <= (rangelon0 + PI * 2) / de2ra <= 180).
    { apply div_de2ra_bounds. unfold de2ra. lra. }
    assert (Hd0 : 0 < (rangelon0 + PI * 2) / de2ra).
    { unfold Rdiv. apply Rmult_lt_0_compat; [lra|].
      apply Rinv_0_lt_compat. lra. }
    apply lonlat_to_xy_app in Hs; try assumption; [|lra].
    rewrite Hs. nra.
Qed.

(** ** The sampled array, index by index *)

Lemma footprint_points_from (fuel : nat) (satmap : SatMap) (sat : Sat)
    (m k : nat) (st st' : list XY * bool) (out : list console) :
  (k + m <= 180)%nat -> length (fst st) = 360%nat ->
  for_each (seq k m) (footprint_step fuel satmap sat) st = (Return st', out) ->
  length (fst st') = 360%nat /\
  (forall i : nat, (k <= i < k + m)%nat ->
     exists r o, footprint_sample fuel satmap sat i = (Return r, o) /\
                 fst st' !! i = Some (point r) /\
                 fst st' !! (359 - i)%nat = Some (mirror r)) /\
  (forall j : nat,
     (j < k \/ (k + m <= j /\ j <= 359 - (k + m)) \/ 359 - k < j)%nat ->
     fst st' !! j = fst st !! j) /\
  (snd st' = true ->
   snd st = true \/
   exists i r o, (k <= i < k + m)%nat /\
                 footprint_sample fuel satmap sat i = (Return r, o) /\
                 warpedT r = true).
Proof.
  revert k st out. induction m as [|m IH]; intros k st out Hk Hlen H.
  - simpl in H. injection H as <- _.
    repeat split; auto; intros; lia.
  - simpl in H. apply bind_Return_inv in H as (st1 & o1 & o2 & H1 & H2 & _).
    unfold footprint_step in H1.
    apply bind_Return_inv in H1 as (r & p1 & p2 & Hr & Hret & _).
    injection Hret as <-.
    apply IH in H2; [|lia|cbn [fst]; now rewrite !length_insert].
    destruct H2 as (Hlen' & Hin & Hout & Hw). cbn [fst snd] in *.
    split; [exact Hlen'|]. split; [|split].
    + intros i Hi. destruct (Nat.eq_dec i k) as [-> | Hne].
      * exists r, p1. split; [exact Hr|]. split.
        -- rewrite Hout by lia. rewrite list_lookup_insert_ne by lia.
           apply list_lookup_insert_eq. lia.
        -- rewrite Hout by lia. apply list_lookup_insert_eq.
           rewrite length_insert. lia.
      * apply Hin. lia.
    + intros j Hj. rewrite Hout by lia.
      now rewrite !list_lookup_insert_ne by lia.
    + intros Hw'. destruct (Hw Hw') as [Hs | (i & r' & o' & Hi & Hs & Hwt)].
      * apply orb_true_iff in Hs as [Hs | Hs]; [now left|].
        right. exists k, r, p1. split; [lia|]. auto.
      * right. exists i, r', o'. split; [lia|]. auto.
Qed.

(** The array that the loop returns: the sample of the azimuth [i] at
    the index [i] and its mirror at the index [359 - i]; and the flag
    is set by a warped sample only. *)
Lemma footprint_points_lookup (fuel : nat) (satmap : SatMap) (sat : Sat)
    (points : list XY) (warped : bool) (out : list console) :
  footprint_points fuel satmap sat = (Return (points, warped), out) ->
  (forall i : nat, (i < 180)%nat ->
     exists r o, footprint_sample fuel satmap sat i = (Return r, o) /\
                 points !! i = Some (point r) /\
                 points !! (359 - i)%nat = Some (mirror r)) /\
  (warped = true ->
   exists i r o, (i < 180)%nat /\
                 footprint_sample fuel satmap sat i = (Return r, o) /\
                 warpedT r = true).
Proof.
  intros H. unfold footprint_points in H.
  apply footprint_points_from in H; [|lia|apply length_replicate].
  destruct H as (_ & Hin & _ & Hw). cbn [fst snd] in *. split.
  - intros i Hi. apply Hin. lia.
  - intros Hw'. destruct (Hw Hw') as [Hs | (i & r & o & Hi & Hs & Hwt)];
      [discriminate|].
    exists i, r, o. split; [lia|]. auto.
Qed.

(** ** The warped branch on the map of [App.tsx] *)

(** *** The last step of [split_points] *)

Lemma pin_ends (a : list XY) (v : R) :
  a <> [] ->
  exists a' : list XY,
    length a' = length a /\ pinned a' v /\
    forall (B : Type) (k : list XY -> M B),
      (a1 <- set_x a 0 v ;;
       a2 <- set_x a1 (Z.of_nat (length a) - 1) v ;; k a2) = k a'.
Proof.
  intros Hne. destruct a as [|p a]; [congruence|]. clear Hne.
  set (l := p :: a).
  assert (Hlen : length l = S (length a)) by reflexivity.
  set (l1 := <[0%nat := mk_xy v (y p)]> l).
  assert (Hlen1 : length l1 = length l) by (subst l1; apply length_insert).
  destruct (lookup_lt_is_Some_2 l1 (length l - 1)) as [q Hq]; [lia|].
  exists (<[(length l - 1)%nat := mk_xy v (y q)]> l1).
  split; [now rewrite length_insert|]. split.
  - unfold pinned. rewrite length_insert, Hlen1.
    destruct (Nat.eq_dec (length l - 1)%nat 0%nat) as [E | E].
    + rewrite E. exists (mk_xy v (y q)), (mk_xy v (y q)).
      rewrite list_lookup_insert_eq by lia. auto.
    + exists (mk_xy v (y p)), (mk_xy v (y q)).
      rewrite list_lookup_insert_ne by lia.
      rewrite list_lookup_insert_eq by lia.
      split; [reflexivity|]. split; [reflexivity|]. auto.
  - intros B k. change 0%Z with (Z.of_nat 0).
    rewrite (set_x_lookup l 0 p v eq_refl), bind_ret. fold l1.
    replace (Z.of_nat (length l) - 1)%Z with (Z.of_nat (length l - 1)) by lia.
    now rewrite (set_x_lookup l1 _ q v Hq), bind_ret.
Qed.

(** On two arrays that are not empty the last step returns them with
    their ends pinned, one to the right border and the other to the
    left border. *)
Lemma stretch_end_points_spec (satmap : SatMap) (tps1 tps2 : list XY) :
  tps1 <> [] -> tps2 <> [] ->
  exists points1 points2 : list XY,
    stretch_end_points satmap (tps1, tps2) = ret (points1, points2) /\
    length points1 = length tps1 /\ length points2 = length tps2 /\
    ((pinned points1 (x0 satmap + width satmap) /\
      pinned points2 (x0 satmap)) \/
     (pinned points2 (x0 satmap + width satmap) /\
      pinned points1 (x0 satmap))).
Proof.
  intros H1 H2. unfold stretch_end_points. cbn [fst snd].
  rewrite !Nat2Z.id, !firstn_all.
  destruct (pin_ends tps1 (x0 satmap + width satmap) H1) as (a1 & Hl1 & Hp1 & Ha1).
  destruct (pin_ends tps1 (x0 satmap) H1) as (b1 & Hm1 & Hq1 & Hb1).
  destruct (pin_ends tps2 (x0 satmap + width satmap) H2) as (a2 & Hl2 & Hp2 & Ha2).
  destruct (pin_ends tps2 (x0 satmap) H2) as (b2 & Hm2 & Hq2 & Hb2).
  destruct tps1 as [|p tps1'] eqn:E1; [congruence|]. rewrite <- E1 in *.
  assert (Hp : tps1 !! 0%nat = Some p) by (subst; reflexivity).
  replace (get tps1 0) with (@ret XY p)
    by (symmetry; apply (get_lookup tps1 0 p Hp)).
  rewrite bind_ret.
  destruct (x p >? x0 satmap + width satmap / 2).
  - exists a1, b2. split; [|auto]. now rewrite Ha1, Hb2.
  - exists b1, a2. split; [|auto]. now rewrite Ha2, Hb1.
Qed.

(** *** The scans of the left-of-midpoint procedure *)

(** The first scan stops at the first point right of the midpoint,
    which is at the index [j] at the latest. *)
Lemma scan_forward_finds (points1 : list XY) (mid : R) (j : nat) (pj : XY) :
  points1 !! j = Some pj -> mid < x pj ->
  forall (fuel k : nat) (tps1 tps2 : list XY),
    (k <= j)%nat -> (j - k < fuel)%nat ->
    exists (i : nat) (p : XY),
      (k <= i <= j)%nat /\ points1 !! i = Some p /\ mid < x p /\
      while fuel
        (fun s => p <- get points1 (scan_i s) ;; ret (x p <=? mid))
        (fun s => ret (mk_scan (scan_i s + 1) (scan_tps1 s) (scan_tps2 s)))
        (mk_scan (Z.of_nat k) tps1 tps2) = ret (mk_scan (Z.of_nat i) tps1 tps2).
Proof.
  intros Hj Hx. induction fuel as [|fuel IH]; intros k tps1 tps2 Hk Hf; [lia|].
  destruct (lookup_lt_is_Some_2 points1 k) as [p Hp].
  { apply lookup_lt_Some in Hj. lia. }
  cbn [while scan_i scan_tps1 scan_tps2].
  rewrite (get_lookup _ _ _ Hp), !bind_ret.
  destruct (x p <=? mid) eqn:E.
  - apply leb_true in E.
    assert (k <> j) by (intros ->; rewrite Hj in Hp; injection Hp as <-; lra).
    destruct (IH (S k) tps1 tps2) as (i & q & Hi & Hq & Hxq & Hw); [lia|lia|].
    exists i, q. split; [lia|]. split; [exact Hq|]. split; [exact Hxq|].
    replace (Z.of_nat k + 1)%Z with (Z.of_nat (S k)) by lia. exact Hw.
  - apply leb_false in E. exists k, p. split; [lia|]. auto.
Qed.

(** The second scan copies to [tps2] and stops at the first point that
    is not right of the midpoint, at the index [j] at the latest. *)
Lemma copy_forward_stops (points1 : list XY) (mid : R) (j : nat) (pj : XY) :
  points1 !! j = Some pj -> x pj <= mid ->
  forall (fuel k : nat) (tps1 tps2 : list XY),
    (k <= j)%nat -> (j - k < fuel)%nat ->
    exists (i : nat) (p : XY) (tps2' : list XY),
      (k <= i <= j)%nat /\ points1 !! i = Some p /\ x p <= mid /\
      length tps2' = (length tps2 + (i - k))%nat /\
      while fuel
        (fun s => p <- get points1 (scan_i s) ;; ret (x p >? mid))
        (fun s => p <- get points1 (scan_i s) ;;
                  ret (mk_scan (scan_i s + 1) (scan_tps1 s)
                         (scan_tps2 s ++ [p])))
        (mk_scan (Z.of_nat k) tps1 tps2) =
      ret (mk_scan (Z.of_nat i) tps1 tps2').
Proof.
  intros Hj Hx. induction fuel as [|fuel IH]; intros k tps1 tps2 Hk Hf; [lia|].
  destruct (lookup_lt_is_Some_2 points1 k) as [p Hp].
  { apply lookup_lt_Some in Hj. lia. }
  cbn [while scan_i scan_tps1 scan_tps2].
  rewrite (get_lookup _ _ _ Hp), !bind_ret.
  destruct (x p >? mid) eqn:E.
  - apply gtb_true in E.
    assert (k <> j) by (intros ->; rewrite Hj in Hp; injection Hp as <-; lra).
    destruct (IH (S k) tps1 (tps2 ++ [p]))
      as (i & q & t & Hi & Hq & Hxq & Ht & Hw); [lia|lia|].
    exists i, q, t. split; [lia|]. split; [exact Hq|]. split; [exact Hxq|].
    split.
    + rewrite Ht, length_app. simpl. lia.
    + replace (Z.of_nat k + 1)%Z with (Z.of_nat (S k)) by lia. exact Hw.
  - apply gtb_false in E. exists k, p, tps2.
    split; [lia|]. split; [exact Hp|]. split; [exact E|].
    split; [lia | reflexivity].
Qed.

(** The third loop copies the rest of the array to [tps1]. *)
Lemma copy_to_end (points1 : list XY) :
  forall (fuel k : nat) (tps1 tps2 : list XY),
    (k <= length points1)%nat -> (length points1 - k < fuel)%nat ->
    exists tps1' : list XY,
      length tps1' = (length tps1 + (length points1 - k))%nat /\
      while fuel
        (fun s => ret (scan_i s <? Z.of_nat (length points1))%Z)
        (fun s => p <- get points1 (scan_i s) ;;
                  ret (mk_scan (scan_i s + 1) (scan_tps1 s ++ [p])
                         (scan_tps2 s)))
        (mk_scan (Z.of_nat k) tps1 tps2) =
      ret (mk_scan (Z.of_nat (length points1)) tps1' tps2).
Proof.
  induction fuel as [|fuel IH]; intros k tps1 tps2 Hk Hf; [lia|].
  cbn [while scan_i scan_tps1 scan_tps2]. rewrite bind_ret.
  destruct (Z.ltb_spec (Z.of_nat k) (Z.of_nat (length points1))) as [Hlt | Hge].
  - destruct (lookup_lt_is_Some_2 points1 k) as [p Hp]; [lia|].
    rewrite (get_lookup _ _ _ Hp), !bind_ret.
    destruct (IH (S k) (tps1 ++ [p]) tps2) as (t & Ht & Hw); [lia|lia|].
    exists t. split.
    + rewrite Ht, length_app. simpl. lia.
    + replace (Z.of_nat k + 1)%Z with (Z.of_nat (S k)) by lia. exact Hw.
  - assert (k = length points1) as -> by lia.
    exists tps1. split; [lia | reflexivity].
Qed.

(** The last loop copies the [m] first points to [tps1]. *)
Lemma copy_prefix (points1 : list XY) (m : nat) :
  (m <= length points1)%nat ->
  forall (fuel k : nat) (tps1 tps2 : list XY),
    (k <= m)%nat -> (m - k < fuel)%nat ->
    exists tps1' : list XY,
      length tps1' = (length tps1 + (m - k))%nat /\
      while fuel
        (fun s => ret (scan_i s <=? Z.of_nat m - 1)%Z)
        (fun s => p <- get points1 (scan_i s) ;;
                  ret (mk_scan (scan_i s + 1) (scan_tps1 s ++ [p])
                         (scan_tps2 s)))
        (mk_scan (Z.of_nat k) tps1 tps2) =
      ret (mk_scan (Z.of_nat m) tps1' tps2).
Proof.
  intros Hm. induction fuel as [|fuel IH]; intros k tps1 tps2 Hk Hf; [lia|].
  cbn [while scan_i scan_tps1 scan_tps2]. rewrite bind_ret.
  destruct (Z.leb_spec (Z.of_nat k) (Z.of_nat m - 1)) as [Hle | Hgt].
  - destruct (lookup_lt_is_Some_2 points1 k) as [p Hp]; [lia|].
    rewrite (get_lookup _ _ _ Hp), !bind_ret.
    destruct (IH (S k) (tps1 ++ [p]) tps2) as (t & Ht & Hw); [lia|lia|].
    exists t. split.
    + rewrite Ht, length_app. simpl. lia.
    + replace (Z.of_nat k + 1)%Z with (Z.of_nat (S k)) by lia. exact Hw.
  - assert (k = m) as -> by lia.
    exists tps1. split; [lia | reflexivity].
Qed.

(** With a point right of the midpoint and, after it, a point that is
    not, the left-of-midpoint procedure returns two arrays that are
    not empty and share all the points. *)
Lemma split_left_of_center_spec (fuel : nat) (satmap : SatMap)
    (points1 : list XY) (j j' : nat) (pj pj' : XY) :
  points1 !! j = Some pj -> x0 satmap + width satmap / 2 < x pj ->
  points1 !! j' = Some pj' -> x pj' <= x0 satmap + width satmap / 2 ->
  (j < j')%nat -> (length points1 < fuel)%nat ->
  exists tps1 tps2 : list XY,
    split_left_of_center fuel satmap points1 = ret (tps1, tps2) /\
    tps1 <> [] /\ tps2 <> [] /\
    (length tps1 + length tps2 = length points1)%nat.
Proof.
  intros Hj Hxj Hj' Hxj' Hjj Hf. unfold split_left_of_center.
  pose proof (lookup_lt_Some _ _ _ Hj) as Hlj.
  pose proof (lookup_lt_Some _ _ _ Hj') as Hlj'.
  set (mid := x0 satmap + width satmap / 2) in *.
  destruct (scan_forward_finds points1 mid j pj Hj Hxj fuel 0 [] [])
    as (i1 & p1 & Hi1 & Hp1 & Hx1 & W1); [lia|lia|].
  change 0%Z with (Z.of_nat 0) at 1. rewrite W1, bind_ret.
  cbn [scan_i scan_tps1 scan_tps2].
  destruct (copy_forward_stops points1 mid j' pj' Hj' Hxj' fuel i1 [] [])
    as (i2 & p2 & t2 & Hi2 & Hp2 & Hx2 & Ht2 & W2); [lia|lia|].
  rewrite W2, bind_ret. cbn [scan_i scan_tps1 scan_tps2].
  assert (Hi12 : (i1 < i2)%nat).
  { destruct (Nat.eq_dec i1 i2) as [E | Hne]; [|lia]. exfalso.
    subst i2. rewrite Hp1 in Hp2. injection Hp2 as <-. lra. }
  destruct (copy_to_end points1 fuel i2 [] t2) as (t1 & Ht1 & W3); [lia|lia|].
  rewrite W3, bind_ret. cbn [scan_i scan_tps1 scan_tps2].
  destruct (copy_prefix points1 i1 ltac:(lia) fuel 0 t1 t2)
    as (t1' & Ht1' & W4); [lia|lia|].
  change 0%Z with (Z.of_nat 0). rewrite W4, bind_ret.
  cbn [scan_i scan_tps1 scan_tps2].
  exists t1', t2. split; [reflexivity|]. simpl in Ht1, Ht2.
  split; [intros ->; simpl in Ht1'; lia|].
  split; [intros ->; simpl in Ht2; lia|]. lia.
Qed.

(** *** The scans of the right-of-midpoint procedure *)

Lemma scan_backward_finds (points1 : list XY) (mid : R) (j : nat) (pj : XY) :
  points1 !! j = Some pj -> x pj < mid ->
  forall (fuel k : nat) (tps1 tps2 : list XY),
    (j <= k < length points1)%nat -> (k - j < fuel)%nat ->
    exists (i : nat) (p : XY),
      (j <= i <= k)%nat /\ points1 !! i = Some p /\ x p < mid /\
      while fuel
        (fun s => p <- get points1 (scan_i s) ;; ret (x p >=? mid))
        (fun s => ret (mk_scan (scan_i s - 1) (scan_tps1 s) (scan_tps2 s)))
        (mk_scan (Z.of_nat k) tps1 tps2) = ret (mk_scan (Z.of_nat i) tps1 tps2).
Proof.
  intros Hj Hx. induction fuel as [|fuel IH]; intros k tps1 tps2 Hk Hf; [lia|].
  destruct (lookup_lt_is_Some_2 points1 k) as [p Hp]; [lia|].
  cbn [while scan_i scan_tps1 scan_tps2].
  rewrite (get_lookup _ _ _ Hp), !bind_ret.
  destruct (x p >=? mid) eqn:E.
  - apply geb_true in E.
    assert (k <> j) by (intros ->; rewrite Hj in Hp; injection Hp as <-; lra).
    destruct (IH (k - 1)%nat tps1 tps2) as (i & q & Hi & Hq & Hxq & Hw);
      [lia|lia|].
    exists i, q. split; [lia|]. split; [exact Hq|]. split; [exact Hxq|].
    replace (Z.of_nat k - 1)%Z with (Z.of_nat (k - 1)) by lia. exact Hw.
  - apply geb_false in E. exists k, p. split; [lia|]. auto.
Qed.

Lemma copy_backward_stops (points1 : list XY) (mid : R) (j : nat) (pj : XY) :
  points1 !! j = Some pj -> mid <= x pj ->
  forall (fuel k : nat) (tps1 tps2 : list XY),
    (j <= k < length points1)%nat -> (k - j < fuel)%nat ->
    exists (i : nat) (p : XY) (tps2' : list XY),
      (j <= i <= k)%nat /\ points1 !! i = Some p /\ mid <= x p /\
      length tps2' = (length tps2 + (k - i))%nat /\
      while fuel
        (fun s => p <- get points1 (scan_i s) ;; ret (x p <? mid))
        (fun s => p <- get points1 (scan_i s) ;;
                  ret (mk_scan (scan_i s - 1) (scan_tps1 s)
                         (scan_tps2 s ++ [p])))
        (mk_scan (Z.of_nat k) tps1 tps2) =
      ret (mk_scan (Z.of_nat i) tps1 tps2').
Proof.
  intros Hj Hx. induction fuel as [|fuel IH]; intros k tps1 tps2 Hk Hf; [lia|].
  destruct (lookup_lt_is_Some_2 points1 k) as [p Hp]; [lia|].
  cbn [while scan_i scan_tps1 scan_tps2].
  rewrite (get_lookup _ _ _ Hp), !bind_ret.
  destruct (x p <? mid) eqn:E.
  - apply ltb_true in E.
    assert (k <> j) by (intros ->; rewrite Hj in Hp; injection Hp as <-; lra).
    destruct (IH (k - 1)%nat tps1 (tps2 ++ [p]))
      as (i & q & t & Hi & Hq & Hxq & Ht & Hw); [lia|lia|].
    exists i, q, t. split; [lia|]. split; [exact Hq|]. split; [exact Hxq|].
    split.
    + rewrite Ht, length_app. simpl. lia.
    + replace (Z.of_nat k - 1)%Z with (Z.of_nat (k - 1)) by lia. exact Hw.
  - apply ltb_false in E. exists k, p, tps2.
    split; [lia|]. split; [exact Hp|]. split; [exact E|].
    split; [lia | reflexivity].
Qed.

(** The loops that copy downwards, to the index [lo]: from [i] they
    push the points of the indices [i], [i - 1], ..., [lo] and stop at
    [lo - 1]. *)
Lemma copy_backward_to (points1 : list XY) (lo : Z) (cond : scan -> M bool) :
  (0 <= lo)%Z ->
  (forall s, cond s = ret (scan_i s >=? lo)%Z) ->
  forall (fuel : nat) (i : Z) (tps1 tps2 : list XY),
    (lo - 1 <= i < Z.of_nat (length points1))%Z ->
    (Z.to_nat (i - lo + 1) < fuel)%nat ->
    exists tps1' : list XY,
      length tps1' = (length tps1 + Z.to_nat (i - lo + 1))%nat /\
      while fuel cond
        (fun s => p <- get points1 (scan_i s) ;;
                  ret (mk_scan (scan_i s - 1) (scan_tps1 s ++ [p])
                         (scan_tps2 s)))
        (mk_scan i tps1 tps2) = ret (mk_scan (lo - 1) tps1' tps2).
Proof.
  intros Hlo Hcond.
  induction fuel as [|fuel IH]; intros i tps1 tps2 Hi Hf; [lia|].
  cbn [while]. rewrite Hcond, bind_ret. cbn [scan_i scan_tps1 scan_tps2].
  destruct (Z.geb_spec i lo) as [Hge | Hlt].
  - destruct (lookup_lt_is_Some_2 points1 (Z.to_nat i)) as [p Hp]; [lia|].
    replace (get points1 i) with (@ret XY p).
    2:{ symmetry. rewrite <- (Z2Nat.id i) at 1 by lia.
        now apply get_lookup. }
    rewrite !bind_ret.
    destruct (IH (i - 1)%Z (tps1 ++ [p]) tps2) as (t & Ht & Hw); [lia|lia|].
    exists t. split; [|exact Hw].
    rewrite Ht, length_app. simpl. lia.
  - assert (i = lo - 1)%Z as -> by lia.
    exists tps1. split; [lia | reflexivity].
Qed.

(** With a point left of the midpoint and, before it, a point that is
    not, the right-of-midpoint procedure returns two arrays that are
    not empty and share all the points. *)
Lemma split_right_of_center_spec (fuel : nat) (satmap : SatMap)
    (points1 : list XY) (j j' : nat) (pj pj' : XY) :
  points1 !! j = Some pj -> x pj < x0 satmap + width satmap / 2 ->
  points1 !! j' = Some pj' -> x0 satmap + width satmap / 2 <= x pj' ->
  (j' < j)%nat -> (length points1 < fuel)%nat ->
  exists tps1 tps2 : list XY,
    split_right_of_center fuel satmap points1 = ret (tps1, tps2) /\
    tps1 <> [] /\ tps2 <> [] /\
    (length tps1 + length tps2 = length points1)%nat.
Proof.
  intros Hj Hxj Hj' Hxj' Hjj Hf. unfold split_right_of_center.
  pose proof (lookup_lt_Some _ _ _ Hj) as Hlj.
  pose proof (lookup_lt_Some _ _ _ Hj') as Hlj'.
  set (mid := x0 satmap + width satmap / 2) in *.
  set (n := length points1) in *.
  replace (Z.of_nat n - 1)%Z with (Z.of_nat (n - 1)) by lia.
  destruct (scan_backward_finds points1 mid j pj Hj Hxj fuel (n - 1) [] [])
    as (i1 & p1 & Hi1 & Hp1 & Hx1 & W1); [lia|lia|].
  rewrite W1, bind_ret. cbn [scan_i scan_tps1 scan_tps2].
  destruct (copy_backward_stops points1 mid j' pj' Hj' Hxj' fuel i1 [] [])
    as (i2 & p2 & t2 & Hi2 & Hp2 & Hx2 & Ht2 & W2); [lia|lia|].
  rewrite W2, bind_ret. cbn [scan_i scan_tps1 scan_tps2].
  assert (Hi12 : (i2 < i1)%nat).
  { destruct (Nat.eq_dec i1 i2) as [E | Hne]; [|lia]. exfalso.
    subst i2. rewrite Hp1 in Hp2. injection Hp2 as <-. lra. }
  destruct (copy_backward_to points1 0
              (fun s => ret (scan_i s >=? 0)%Z) ltac:(lia) ltac:(reflexivity)
              fuel (Z.of_nat i2) [] t2) as (t1 & Ht1 & W3); [lia|lia|].
  rewrite W3, bind_ret. cbn [scan_i scan_tps1 scan_tps2].
  destruct (copy_backward_to points1 (Z.of_nat i1 + 1)
              (fun s => ret (scan_i s >=? Z.of_nat i1 + 1)%Z)
              ltac:(lia) ltac:(reflexivity)
              fuel (Z.of_nat (n - 1)) t1 t2) as (t1' & Ht1' & W4); [lia|lia|].
  rewrite W4, bind_ret. cbn [scan_i scan_tps1 scan_tps2].
  exists t1', t2. split; [reflexivity|]. simpl in Ht1, Ht2.
  split; [intros ->; simpl in Ht1'; lia|].
  split; [intros ->; simpl in Ht2; lia|]. lia.
Qed.

(** *** The procedure of the seam *)

Lemma partition_loop (mid : R) (l : list XY) :
  forall tps1 tps2 : list XY,
    exists tps1' tps2' : list XY,
      for_each l (fun (tps : list XY * list XY) p =>
                    if x p >? mid then ret (fst tps ++ [p], snd tps)
                    else ret (fst tps, snd tps ++ [p])) (tps1, tps2) =
      ret (tps1', tps2') /\
      (length tps1' + length tps2' = length tps1 + length tps2 + length l)%nat /\
      (length tps1 <= length tps1')%nat /\ (length tps2 <= length tps2')%nat /\
      ((exists p, In p l /\ mid < x p) -> (length tps1 < length tps1')%nat) /\
      ((exists p, In p l /\ x p <= mid) -> (length tps2 < length tps2')%nat).
Proof.
  induction l as [|q l IH]; intros tps1 tps2.
  - exists tps1, tps2. simpl. split; [reflexivity|].
    repeat split; try lia; intros (p & [] & _).
  - cbn [for_each fst snd]. destruct (x q >? mid) eqn:E.
    + apply gtb_true in E. rewrite bind_ret.
      destruct (IH (tps1 ++ [q]) tps2) as (t1 & t2 & Hw & Hs & H1 & H2 & H3 & H4).
      rewrite length_app in *. simpl in *.
      exists t1, t2. split; [exact Hw|].
      repeat split; try lia.
      intros (p & [-> | Hin] & Hp); [lra|]. apply H4. eauto.
    + apply gtb_false in E. rewrite bind_ret.
      destruct (IH tps1 (tps2 ++ [q])) as (t1 & t2 & Hw & Hs & H1 & H2 & H3 & H4).
      rewrite length_app in *. simpl in *.
      exists t1, t2. split; [exact Hw|].
      repeat split; try lia.
      intros (p & [-> | Hin] & Hp); [lra|]. apply H3. eauto.
Qed.

Lemma split_on_seam_spec (satmap : SatMap) (sat : Sat) (points1 : list XY)
    (j j' : nat) (pj pj' : XY) :
  points1 !! j = Some pj -> x0 satmap + width satmap / 2 < x pj ->
  points1 !! j' = Some pj' -> x pj' <= x0 satmap + width satmap / 2 ->
  exists tps1 tps2 : list XY,
    split_on_seam satmap sat points1 = ret (tps1, tps2) /\
    tps1 <> [] /\ tps2 <> [] /\
    (length tps1 + length tps2 = length points1)%nat.
Proof.
  intros Hj Hxj Hj' Hxj'. unfold split_on_seam, sort_points_y.
  destruct (partition_loop (x0 satmap + width satmap / 2) points1 [] [])
    as (t1 & t2 & Hw & Hs & _ & _ & H1 & H2).
  rewrite Hw, bind_ret. cbn [fst snd].
  exists (sort_by y t1), (sort_by y t2). split; [reflexivity|].
  assert (L1 : (0 < length t1)%nat).
  { apply H1. exists pj. split; [|exact Hxj].
    apply list_elem_of_In. eapply list_elem_of_lookup_2; eauto. }
  assert (L2 : (0 < length t2)%nat).
  { apply H2. exists pj'. split; [|exact Hxj'].
    apply list_elem_of_In. eapply list_elem_of_lookup_2; eauto. }
  split; [intros E; apply (f_equal length) in E;
          rewrite sort_by_length in E; simpl in E; lia|].
  split; [intros E; apply (f_equal length) in E;
          rewrite sort_by_length in E; simpl in E; lia|].
  rewrite !sort_by_length. simpl in Hs. lia.
Qed.

(** *** The whole branch *)

Lemma pole_is_covered_false (sat : Sat) (out : list console) :
  pole_is_covered sat = (Return false, out) ->
  (exists o, north_pole_is_covered sat = (Return false, o)) /\
  (exists o, south_pole_is_covered sat = (Return false, o)).
Proof.
  unfold pole_is_covered. intros H.
  apply bind_Return_inv in H as ([|] & o1 & o2 & Hn & H & _).
  - discriminate.
  - split; [now exists o1 | now exists o2].
Qed.

(** On a map with x0 = 0 that starts at the longitude -180, for a
    valid satellite with a footprint that is not negative: when no
    pole is covered and a sample is warped,
    [split_points] reads inside the array only and returns two
    polylines that are not empty, hold the 360 points together, and
    have their ends pinned to opposite borders of the map. *)
Lemma split_points_on_app_map (fuel : nat) (p : SatMap) (sat : Sat)
    (points : list XY) (ss : R * R) (o1 o2 o3 : list console) :
  x0 p = 0 -> left_side_lon p = -180 -> 0 < width p ->
  valid_lat (ssplat sat) -> valid_lon (ssplon sat) ->
  0 <= footprint sat -> (360 < fuel)%nat ->
  footprint_points fuel p sat = (Return (points, true), o1) ->
  pole_is_covered sat = (Return false, o2) ->
  lonlat_to_xy fuel p (ssplon sat) (ssplat sat) = (Return ss, o3) ->
  exists (points1 points2 : list XY) (out : list console),
    split_points fuel p sat (fst ss) points = (Return (points1, points2), out) /\
    points1 <> [] /\ points2 <> [] /\
    (length points1 + length points2 = 360)%nat /\
    ((pinned points1 (x0 p + width p) /\ pinned points2 (x0 p)) \/
     (pinned points2 (x0 p + width p) /\ pinned points1 (x0 p))).
Proof.
  intros Hx0 Hleft Hw Hlat Hvlon Hf Hfuel Hpts Hcov Hss.
  destruct (pole_is_covered_false sat o2 Hcov) as [[on Hn] [os Hs]].
  assert (Hlon : -180 <= ssplon sat <= 180) by exact Hvlon.
  destruct (footprint_points_range fuel p sat points true o1
              (Rlt_le _ _ Hw) Hpts) as [Hlen _].
  destruct (footprint_points_lookup fuel p sat points true o1 Hpts)
    as [Hlook Hwarp].
  (* the first sample and its mirror, at the indices 0 and 359 *)
  destruct (Hlook 0%nat ltac:(lia)) as (r0 & q0 & Hr0 & H0 & H359).
  change (359 - 0)%nat with 359%nat in H359.
  destruct (first_sample_on_meridian fuel p sat r0 q0 ss on o3
              Hlat Hvlon Hf Hn Hr0 Hss) as [Hx0p Hx0m].
  pose proof (lonlat_to_xy_app fuel p (ssplon sat) (ssplat sat) ss o3
                Hx0 Hleft Hw ltac:(lra) Hss) as Hsspx.
  (* a warped sample *)
  destruct (Hwarp eq_refl) as (i & r & q & Hi & Hr & Hwt).
  destruct (Hlook i Hi) as (r' & q' & Hr' & Hip & Him).
  rewrite Hr in Hr'. injection Hr' as <- <-.
  set (mid := x0 p + width p / 2).
  assert (Hmid : mid = width p / 2) by (subst mid; lra).
  (* what the three procedures need *)
  assert (Hsplit : exists (tps1 tps2 : list XY) (out : list console),
    (if (ssplon sat >=? 179.4) || (ssplon sat <=? -179.4) then
       print (console_log "split 1") ;;; split_on_seam p sat points
     else if fst ss <? mid then
       print (console_log "split 2") ;;; split_left_of_center fuel p points
     else
       print (console_log "split 3") ;;; split_right_of_center fuel p points)
    = (Return (tps1, tps2), out) /\
    tps1 <> [] /\ tps2 <> [] /\
    (length tps1 + length tps2 = length points)%nat).
  { destruct (Rle_lt_dec 0 (ssplon sat)) as [Heast | Hwest].
    - (* east of the meridian 0: the mirror of the warped sample is on
         the left half, the first sample on the right half *)
      pose proof (warped_mirror_left fuel p sat i r q Hx0 Hleft Hw
                    ltac:(lra) Hr Hwt) as Hxm.
      assert (Hx0r : mid <= x (point r0)) by (rewrite Hx0p, Hsspx, Hmid; nra).
      destruct ((ssplon sat >=? 179.4) || (ssplon sat <=? -179.4)) eqn:Eseam.
      + assert (Hx0s : mid < x (point r0)).
        { rewrite Hx0p, Hsspx, Hmid.
          apply orb_true_iff in Eseam as [E | E];
            [apply geb_true in E | apply leb_true in E]; nra. }
        destruct (split_on_seam_spec p sat points 0 (359 - i) _ _
                    H0 Hx0s Him ltac:(fold mid; lra))
          as (t1 & t2 & W & N1 & N2 & L).
        exists t1, t2, [console_log "split 1"]. unfold print.
        rewrite bind_Return, W. auto.
      + replace (fst ss <? mid) with false
          by (symmetry; apply ltb_false; rewrite <- Hx0p; lra).
        destruct (split_right_of_center_spec fuel p points (359 - i) 0 _ _
                    Him ltac:(fold mid; lra) H0 Hx0r)
          as (t1 & t2 & W & N1 & N2 & L); [lia|lia|].
        exists t1, t2, [console_log "split 3"]. unfold print.
        rewrite bind_Return, W. auto.
    - (* west of it: the warped sample is on the right half, the mirror
         of the first sample on the left half *)
      pose proof (warped_point_right fuel p sat i on os r q Hx0 Hleft Hw Hlat
                    ltac:(lra) Hf Hn Hs ltac:(lia) Hr Hwt) as Hxp.
      assert (Hx359 : x (mirror r0) < mid) by (rewrite Hx0m, Hsspx, Hmid; nra).
      destruct ((ssplon sat >=? 179.4) || (ssplon sat <=? -179.4)) eqn:Eseam.
      + destruct (split_on_seam_spec p sat points i 359 _ _
                    Hip ltac:(fold mid; lra) H359 ltac:(fold mid; lra))
          as (t1 & t2 & W & N1 & N2 & L).
        exists t1, t2, [console_log "split 1"]. unfold print.
        rewrite bind_Return, W. auto.
      + replace (fst ss <? mid) with true
          by (symmetry; apply ltb_true; rewrite <- Hx0m; lra).
        destruct (split_left_of_center_spec fuel p points i 359 _ _
                    Hip ltac:(fold mid; lra) H359 ltac:(fold mid; lra))
          as (t1 & t2 & W & N1 & N2 & L); [lia|lia|].
        exists t1, t2, [console_log "split 2"]. unfold print.
        rewrite bind_Return, W. auto. }
  destruct Hsplit as (t1 & t2 & out & W & N1 & N2 & L).
  destruct (stretch_end_points_spec p t1 t2 N1 N2)
    as (p1 & p2 & Ws & L1 & L2 & Hpin).
  exists p1, p2, out. unfold split_points. fold mid.
  rewrite W, bind_Return, Ws. cbn [fst snd ret]. rewrite app_nil_r.
  split; [reflexivity|].
  split; [intros ->; destruct t1; [congruence | discriminate]|].
  split; [intros ->; destruct t2; [congruence | discriminate]|].
  split; [lia | exact Hpin].
Qed.

(** ** The three branches on a map with x0 = 0

    The four claims about the polylines fail on the code for one
    reason, the wrap of [lonlat_to_xy] between 0 and [width].  Where
    [x0] is 0, as in [App.tsx], the code does what they say. *)

(** The nominal branch: 360 points with their x in
    [x0, x0 + width], and no second polyline. *)
Lemma nominal_footprint_origin (p : SatMap) (sat : Sat) (o2 : list console) :
  x0 p = 0 -> 0 < width p ->
  pole_is_covered sat = (Return false, o2) ->
  (forall fuel points warped o,
     footprint_points fuel p sat = (Return (points, warped), o) ->
     warped = false) ->
  exists n : nat, forall fuel : nat, (n <= fuel)%nat ->
    exists (poly : list XY) (out : list console),
      calculate_footprint fuel p sat = (Return (poly, []), out) /\
      length poly = 360%nat /\
      Forall (fun q => x0 p <= x q <= x0 p + width p) poly.
Proof.
  intros Hx0 Hw Hcov Hnw.
  destruct (footprint_points_terminates p sat Hw)
    as ([pts w] & o1 & n & Hconv).
  exists n. intros fuel Hfuel. pose proof (Hconv fuel Hfuel) as Hpts.
  rewrite (Hnw _ _ _ _ Hpts) in Hpts.
  destruct (nominal_footprint_range fuel p sat pts o1 o2 Hw Hpts Hcov)
    as (Hcalc & Hlen & Hall).
  exists pts, (o1 ++ o2). split; [exact Hcalc|]. split; [exact Hlen|].
  eapply Forall_impl; [exact Hall|]. simpl. intros q Hq. lra.
Qed.


(** The warped branch, on a map that starts at the longitude -180 and
    for a valid satellite with a footprint that is not negative: two
    polylines that are not empty, with the 360 points and with their
    ends pinned to opposite borders. *)
Lemma warped_footprint_on_app_map (p : SatMap) (sat : Sat)
    (o2 : list console) :
  x0 p = 0 -> left_side_lon p = -180 -> 0 < width p ->
  valid_lat (ssplat sat) -> valid_lon (ssplon sat) ->
  0 <= footprint sat ->
  pole_is_covered sat = (Return false, o2) ->
  (forall fuel points warped o,
     footprint_points fuel p sat = (Return (points, warped), o) ->
     warped = true) ->
  exists n : nat, forall fuel : nat, (n <= fuel)%nat ->
    exists (points1 points2 : list XY) (out : list console),
      calculate_footprint fuel p sat = (Return (points1, points2), out) /\
      points1 <> [] /\ points2 <> [] /\
      (length points1 + length points2 = 360)%nat /\
      ((pinned points1 (x0 p + width p) /\ pinned points2 (x0 p)) \/
       (pinned points2 (x0 p + width p) /\ pinned points1 (x0 p))).
Proof.
  intros Hx0 Hleft Hw Hlat Hlon Hf Hcov Hwarp.
  destruct (footprint_points_terminates p sat Hw)
    as ([pts w] & o1 & n1 & Hconv).
  destruct (lonlat_to_xy_terminates p (ssplon sat) (ssplat sat) Hw)
    as (ss & o3 & n2 & Hconv2).
  exists (Nat.max 361 (Nat.max n1 n2)). intros fuel Hfuel.
  pose proof (Hconv fuel ltac:(lia)) as Hpts.
  pose proof (Hconv2 fuel ltac:(lia)) as Hss.
  rewrite (Hwarp _ _ _ _ Hpts) in Hpts.
  destruct (split_points_on_app_map fuel p sat pts ss o1 o2 o3
              Hx0 Hleft Hw Hlat Hlon Hf ltac:(lia) Hpts Hcov Hss)
    as (p1 & p2 & out & Hsplit & Hrest).
  exists p1, p2, (o1 ++ o2 ++ console_log "WARPED" :: o3 ++ out).
  split; [|exact Hrest].
  unfold calculate_footprint.
  rewrite Hpts, bind_Return. cbn [fst snd].
  rewrite Hcov, bind_Return. cbn [fst snd].
  unfold print. rewrite bind_Return. cbn [fst snd].
  rewrite Hss, bind_Return, Hsplit. reflexivity.
Qed.
(** * Further properties *)

(** ** Distances and bearings of [qrb] *)

Lemma acos_ge (t theta : R) :
  0 <= theta <= PI -> -1 <= t <= cos theta -> theta <= acos t.
Proof.
  intros Hth Ht. pose proof (COS_bound theta) as Hc.
  pose proof (acos_bound t) as Hb.
  destruct (Rle_lt_dec theta (acos t)) as [H | H]; [exact H | exfalso].
  assert (Hlt : cos theta < cos (acos t))
    by (apply cos_decreasing_1; lra).
  rewrite cos_acos in Hlt by lra. lra.
Qed.

Lemma cos_arc_bound (lon1 lat1 lon2 lat2 : R) :
  -1 <= cos_arc lon1 lat1 lon2 lat2 <= 1.
Proof.
  unfold cos_arc.
  pose proof (COS_bound (lon2 - lon1)) as Hc.
  pose proof (sin2_cos2 lat1) as H1. pose proof (sin2_cos2 lat2) as H2.
  unfold Rsqr in H1, H2.
  set (s1 := sin lat1) in *. set (s2 := sin lat2) in *.
  set (c1 := cos lat1) in *. set (c2 := cos lat2) in *.
  set (c := cos (lon2 - lon1)) in *.
  assert (Hsq1 : 0 <= (s1 - s2) * (s1 - s2) + (c1 - c2) * (c1 - c2))
    by (apply Rplus_le_le_0_compat; apply Rle_0_sqr).
  assert (Hsq2 : 0 <= (s1 + s2) * (s1 + s2) + (c1 - c2) * (c1 - c2))
    by (apply Rplus_le_le_0_compat; apply Rle_0_sqr).
  assert (Hsq3 : 0 <= (s1 - s2) * (s1 - s2) + (c1 + c2) * (c1 + c2))
    by (apply Rplus_le_le_0_compat; apply Rle_0_sqr).
  assert (Hsq4 : 0 <= (s1 + s2) * (s1 + s2) + (c1 + c2) * (c1 + c2))
    by (apply Rplus_le_le_0_compat; apply Rle_0_sqr).
  destruct (Rle_lt_dec 0 (c1 * c2)) as [Hpos | Hneg].
  - assert (0 <= c1 * c2 * (1 - c)) by (apply Rmult_le_pos; lra).
    assert (0 <= c1 * c2 * (1 + c)) by (apply Rmult_le_pos; lra).
    lra.
  - assert (0 <= - (c1 * c2) * (1 - c)) by (apply Rmult_le_pos; lra).
    assert (0 <= - (c1 * c2) * (1 + c)) by (apply Rmult_le_pos; lra).
    lra.
Qed.

(** X2. Whatever the four arguments, the distance of [qrb] lies
    between 0 and 180 * 111.2 = 20016 km, half the circumference. *)
Theorem qrb_distance_range (lon1 lat1 lon2 lat2 : R) :
  0 <= distance (qrb lon1 lat1 lon2 lat2) <= 180 * ARC_IN_KM /\
  180 * ARC_IN_KM = 20016.
Proof.
  assert (Hd : 180 * ARC_IN_KM = 20016) by (unfold ARC_IN_KM; lra).
  split; [|exact Hd].
  rewrite qrb_distance. destruct RADIAN_bounds as [HRP HR].
  cbv zeta.
  destruct (out_of_range _ _ _ _); [lra|].
  destruct (_ >? _); [lra|].
  destruct (_ <? _); [lra|].
  match goal with
  | |- context [acos ?t] => pose proof (acos_bound t) as Hb; set (u := acos t) in *
  end.
  assert (0 <= RADIAN * u <= 180) by nra.
  unfold ARC_IN_KM in *. rewrite Rmult_assoc. lra.
Qed.

(** The cosine of the latitude that replaces a pole. *)
Lemma cos_off_pole_tiny :
  0 <= cos (89.999999999 / RADIAN) <= 0.00000000002 /\
  0 < sin (89.999999999 / RADIAN).
Proof.
  pose proof PI_tight as HPI.
  rewrite off_pole_latitude.
  split.
  - rewrite cos_shift.
    pose proof (sin_lt_x (0.000000001 * PI / 180) ltac:(lra)).
    pose proof (sin_ge_0 (0.000000001 * PI / 180) ltac:(lra) ltac:(lra)).
    lra.
  - apply sin_gt_0; lra.
Qed.

Lemma off_pole_90 : off_pole 90 = 89.999999999.
Proof. unfold off_pole. now rewrite (proj2 (eqb_true 90 90) eq_refl). Qed.

Lemma off_pole_m90 : off_pole (-90) = -89.999999999.
Proof.
  unfold off_pole.
  replace (-90 ==? 90) with false by (symmetry; apply eqb_false; lra).
  now rewrite (proj2 (eqb_true (-90) (-90)) eq_refl).
Qed.

(** X3. A pole is one point: between two points of latitude 90, or
    of latitude -90, [qrb] finds the distance 0 whatever the two
    longitudes, and from one pole to the other the antipodal distance
    20016 km; the azimuth is 0 in the four cases. *)
Theorem qrb_between_poles (lon1 lon2 : R) :
  valid_lon lon1 -> valid_lon lon2 ->
  qrb lon1 90 lon2 90 = mk_qrb RIG_OK 0 0 /\
  qrb lon1 (-90) lon2 (-90) = mk_qrb RIG_OK 0 0 /\
  qrb lon1 90 lon2 (-90) = mk_qrb RIG_OK (180 * ARC_IN_KM) 0 /\
  qrb lon1 (-90) lon2 90 = mk_qrb RIG_OK (180 * ARC_IN_KM) 0.
Proof.
  intros H1 H2.
  destruct cos_off_pole_tiny as [Hc Hs].
  pose proof (sin2_cos2 (89.999999999 / RADIAN)) as Hsc. unfold Rsqr in Hsc.
  assert (Hneg : -89.999999999 / RADIAN = - (89.999999999 / RADIAN))
    by (unfold Rdiv; lra).
  pose proof (COS_bound (lon2 / RADIAN - lon1 / RADIAN)) as Hd.
  set (l := 89.999999999 / RADIAN) in *.
  assert (Hcc : cos l * cos l <= 0.00000000002 * 0.00000000002)
    by (apply Rmult_le_compat; lra).
  assert (Hm : - (cos l * cos l) <= cos l * cos l * cos (lon2 / RADIAN - lon1 / RADIAN)
               <= cos l * cos l) by nra.
  repeat split; rewrite qrb_guard;
    match goal with
    | |- context [out_of_range ?a ?b ?c ?d] =>
        replace (out_of_range a b c d) with false
          by (symmetry; apply out_of_range_false;
              unfold valid_lat, valid_lon in *; lra)
    end; cbv zeta; rewrite ?off_pole_90, ?off_pole_m90, ?Hneg; fold l;
    unfold cos_arc; rewrite ?sin_neg, ?cos_neg.
  - destruct (_ >? _) eqn:E; [reflexivity | apply gtb_false in E; lra].
  - destruct (_ >? _) eqn:E; [reflexivity | apply gtb_false in E; lra].
  - destruct (_ >? _) eqn:E; [apply gtb_true in E; lra|].
    destruct (_ <? _) eqn:E'; [reflexivity | apply ltb_false in E'; lra].
  - destruct (_ >? _) eqn:E; [apply gtb_true in E; lra|].
    destruct (_ <? _) eqn:E'; [reflexivity | apply ltb_false in E'; lra].
Qed.

Lemma qrb_between_poles_witness :
  qrb 10 90 (-120) 90 = mk_qrb RIG_OK 0 0 /\
  qrb 10 (-90) (-120) (-90) = mk_qrb RIG_OK 0 0 /\
  qrb 10 90 (-120) (-90) = mk_qrb RIG_OK (180 * ARC_IN_KM) 0 /\
  qrb 10 (-90) (-120) 90 = mk_qrb RIG_OK (180 * ARC_IN_KM) 0.
Proof.
  apply (qrb_between_poles 10 (-120)); unfold valid_lon; lra.
Defined.








(** *** The range of the bearing *)

(** X6. Whatever the four arguments, the azimuth of [qrb] is never
    negative and stays below 720. *)
Theorem qrb_azimuth_below_720 (lon1 lat1 lon2 lat2 : R) :
  0 <= azimuth (qrb lon1 lat1 lon2 lat2) < 720.
Proof. exact (proj1 (qrb_azimuth_range lon1 lat1 lon2 lat2)). Qed.

(** X7. When the first longitude is not above the second, the
    azimuth of [qrb] is in [0, 360). *)
Theorem qrb_azimuth_eastward (lon1 lat1 lon2 lat2 : R) :
  lon1 <= lon2 ->
  0 <= azimuth (qrb lon1 lat1 lon2 lat2) < 360.
Proof.
  intros H. destruct (qrb_azimuth_range lon1 lat1 lon2 lat2) as [[H0 _] H360].
  split; [exact H0 | exact (H360 H)].
Qed.

Lemma qrb_azimuth_eastward_witness :
  0 <= azimuth (qrb (-90) 0 180 0) < 360.
Proof. apply (qrb_azimuth_eastward (-90) 0 180 0). lra. Defined.

(** *** The distances that [qrb] never returns *)

(** An arc whose cosine is not below the antipodal threshold is at
    least 0.0014 radian short of a half circle. *)
Lemma arc_above_antipodal (theta : R) :
  0 <= theta <= PI -> -0.999999 <= cos theta -> theta <= PI - 0.0014.
Proof.
  intros Hth Hc. pose proof PI_tight as HPI.
  destruct (Rle_lt_dec theta (PI - 0.0014)) as [H | H]; [exact H | exfalso].
  assert (Hd : cos theta < cos (PI - 0.0014))
    by (apply cos_decreasing_1; lra).
  rewrite cos_minus, cos_PI, sin_PI in Hd.
  destruct (cos_taylor 0.0014) as [Hl _]; [lra|]. lra.
Qed.

(** X8. The distance of [qrb] has two gaps, left by its two
    thresholds: whatever the arguments it is 0, or at least 0.00025 km
    and at most 20007.1 km, or the antipodal 20016 km.  No two points
    are found less than 25 cm apart without being found at the same
    place, and none between 20007.1 and 20016 km apart. *)
Theorem qrb_distance_gaps (lon1 lat1 lon2 lat2 : R) :
  let d := distance (qrb lon1 lat1 lon2 lat2) in
  d = 0 \/ 0.00025 <= d <= 20007.1 \/ d = 20016.
Proof.
  cbv zeta. rewrite qrb_distance. cbv zeta.
  destruct RADIAN_bounds as [HRP HR]. pose proof PI_tight as HPI.
  destruct (out_of_range _ _ _ _); [now left|].
  destruct (_ >? _) eqn:E1; [now left|]. apply gtb_false in E1.
  destruct (_ <? _) eqn:E2; [right; right; unfold ARC_IN_KM; lra|].
  apply ltb_false in E2. right. left.
  match goal with
  | |- context [acos ?t] =>
      pose proof (acos_bound t) as Hb;
      pose proof (cos_acos t ltac:(lra)) as Hc;
      set (u := acos t) in *
  end.
  assert (Hlo : 0.00000004 <= u)
    by (apply arc_above_threshold; [exact Hb | rewrite Hc; exact E1]).
  assert (Hhi : u <= PI - 0.0014)
    by (apply arc_above_antipodal; [exact Hb | rewrite Hc; exact E2]).
  unfold ARC_IN_KM. rewrite Rmult_assoc.
  assert (57.28 * 0.00000004 <= RADIAN * u)
    by (apply Rmult_le_compat; lra).
  assert (RADIAN * u <= RADIAN * (PI - 0.0014))
    by (apply Rmult_le_compat_l; lra).
  assert (RADIAN * (PI - 0.0014) <= 180 - 57.28 * 0.0014) by nra.
  lra.
Qed.

(** ** The distance to a pole, and the pole tests *)

(** The cosine of the arc to the point (0, l) is at most the cosine of
    the difference of the latitudes. *)
Lemma cos_arc_along_meridian (lon a l : R) :
  0 <= cos a -> 0 <= cos l ->
  cos_arc lon a (0 / RADIAN) l <= cos (l - a).
Proof.
  intros Ha Hl. unfold cos_arc. rewrite (cos_minus l a).
  pose proof (COS_bound (0 / RADIAN - lon)) as Hc.
  assert (0 <= cos a * cos l * (1 - cos (0 / RADIAN - lon))).
  { apply Rmult_le_pos; [apply Rmult_le_pos; assumption | lra]. }
  lra.
Qed.

Lemma RADIAN_cancel (u : R) : RADIAN * (u / RADIAN) = u.
Proof. field. apply Rgt_not_eq, RADIAN_pos. Qed.

(** From a latitude between -89 and 89, [qrb] finds the North pole at
    111.2 km for each degree of latitude up to it, whatever the
    longitude, within the 1e-9 degree by which it moves the pole. *)
Lemma north_pole_distance (lon lat : R) :
  valid_lon lon -> -89 <= lat <= 89 ->
  ARC_IN_KM * (89.999999999 - lat) <= distance (qrb lon lat 0 90)
    <= ARC_IN_KM * (90.000000001 - lat).
Proof.
  intros Hlon Hlat. pose proof PI_tight as HPI.
  destruct RADIAN_bounds as [HRP HR].
  rewrite qrb_distance.
  replace (out_of_range lon lat 0 90) with false
    by (symmetry; apply out_of_range_false;
        unfold valid_lat, valid_lon in *; lra).
  cbv zeta. rewrite off_pole_90, off_pole_id by lra.
  pose proof off_pole_latitude as Hl.
  set (l := 89.999999999 / RADIAN) in *.
  assert (Ha : lat / RADIAN = lat * PI / 180) by apply div_RADIAN.
  set (a := lat / RADIAN) in *.
  assert (Hab : -1.554 <= a <= 1.554) by (rewrite Ha; split; nra).
  assert (Hca : 0 <= cos a) by (apply cos_ge_0; lra).
  assert (Hcl : 0 <= cos l) by (apply cos_ge_0; lra).
  pose proof (cos_arc_along_meridian (lon / RADIAN) a l Hca Hcl) as Hup.
  pose proof (cos_arc_through_pole (lon / RADIAN) a l Hca Hcl) as Hlow.
  pose proof (cos_arc_bound (lon / RADIAN) a (0 / RADIAN) l) as Hb.
  set (tmp := cos_arc (lon / RADIAN) a (0 / RADIAN) l) in *.
  assert (Hlo : 89.999999999 - lat = RADIAN * (l - a)).
  { subst l a. now rewrite Rmult_minus_distr_l, !RADIAN_cancel. }
  assert (Hhi : 90.000000001 - lat = RADIAN * (PI - a - l)).
  { replace (RADIAN * (PI - a - l)) with (RADIAN * PI - RADIAN * (a + l))
      by ring.
    rewrite HRP, Rmult_plus_distr_l. subst l a. rewrite !RADIAN_cancel. lra. }
  assert (Hd1 : 0.99 <= RADIAN * (l - a) <= 179) by lra.
  assert (Hd2 : 1 <= RADIAN * (PI - a - l) <= 179.01) by lra.
  assert (Hr1 : 0.017 <= l - a <= PI - 0.017) by nra.
  assert (Hr2 : 0.017 <= PI - a - l <= PI - 0.017) by nra.
  (* neither threshold is reached *)
  assert (Hc1 : cos (l - a) <= 0.9999).
  { assert (cos (l - a) <= cos 0.017) by (apply cos_decr_1; lra).
    destruct (cos_taylor 0.017) as [_ Hu]; [lra|]. lra. }
  assert (Hc2 : -0.9999 <= cos (PI - a - l)).
  { assert (cos (PI - 0.017) <= cos (PI - a - l)) by (apply cos_decr_1; lra).
    rewrite (cos_minus PI 0.017), cos_PI, sin_PI in H.
    destruct (cos_taylor 0.017) as [_ Hu]; [lra|]. lra. }
  replace (tmp >? 0.999999999999999) with false
    by (symmetry; apply gtb_false; lra).
  replace (tmp <? -0.999999) with false
    by (symmetry; apply ltb_false; lra).
  assert (H1 : l - a <= acos tmp) by (apply acos_ge; lra).
  assert (H2 : acos tmp <= PI - a - l) by (apply acos_le; lra).
  rewrite Hlo, Hhi. unfold ARC_IN_KM. rewrite Rmult_assoc.
  split; apply Rmult_le_compat_l; try lra; apply Rmult_le_compat_l; lra.
Qed.

(** The same for the South pole. *)
Lemma south_pole_distance (lon lat : R) :
  valid_lon lon -> -89 <= lat <= 89 ->
  ARC_IN_KM * (89.999999999 + lat) <= distance (qrb lon lat 0 (-90))
    <= ARC_IN_KM * (90.000000001 + lat).
Proof.
  intros Hlon Hlat. rewrite qrb_distance_south.
  pose proof (north_pole_distance lon (- lat) Hlon ltac:(lra)) as H.
  replace (89.999999999 + lat) with (89.999999999 - - lat) by ring.
  replace (90.000000001 + lat) with (90.000000001 - - lat) by ring.
  exact H.
Qed.

(** X9. The distance that [qrb] finds from a point of latitude
    between -89 and 89 to a pole does not depend on the longitude
    beyond 2e-9 degree: it is 111.2 km times the degrees of latitude
    up to the pole, within the 1e-9 degree by which [qrb] moves a pole. *)
Theorem qrb_distance_to_the_poles (lon lat : R) :
  valid_lon lon -> -89 <= lat <= 89 ->
  111.2 * (89.999999999 - lat) <= distance (qrb lon lat 0 90)
    <= 111.2 * (90.000000001 - lat) /\
  111.2 * (89.999999999 + lat) <= distance (qrb lon lat 0 (-90))
    <= 111.2 * (90.000000001 + lat).
Proof.
  intros Hlon Hlat. split.
  - exact (north_pole_distance lon lat Hlon Hlat).
  - exact (south_pole_distance lon lat Hlon Hlat).
Qed.

Lemma qrb_distance_to_the_poles_witness :
  111.2 * (89.999999999 - 47) <= distance (qrb 19 47 0 90)
    <= 111.2 * (90.000000001 - 47) /\
  111.2 * (89.999999999 + 47) <= distance (qrb 19 47 0 (-90))
    <= 111.2 * (90.000000001 + 47).
Proof.
  apply (qrb_distance_to_the_poles 19 47); unfold valid_lon; lra.
Defined.

(** The tests of the two poles, from the latitude. *)
Lemma pole_tests_by_latitude (sat : Sat) :
  valid_lon (ssplon sat) -> -89 <= ssplat sat <= 89 ->
  (111.2 * (90.000000001 - ssplat sat) <= 0.5 * footprint sat ->
   north_pole_is_covered sat = ret true) /\
  (0.5 * footprint sat < 111.2 * (89.999999999 - ssplat sat) ->
   north_pole_is_covered sat = ret false) /\
  (111.2 * (90.000000001 + ssplat sat) <= 0.5 * footprint sat ->
   south_pole_is_covered sat = ret true) /\
  (0.5 * footprint sat < 111.2 * (89.999999999 + ssplat sat) ->
   south_pole_is_covered sat = ret false).
Proof.
  intros Hlon Hlat.
  pose proof (north_pole_distance _ _ Hlon Hlat) as Hn.
  pose proof (south_pole_distance _ _ Hlon Hlat) as Hs.
  unfold ARC_IN_KM in Hn, Hs.
  assert (Hvn : res (qrb (ssplon sat) (ssplat sat) 0 90) = RIG_OK).
  { apply qrb_res_valid, out_of_range_false.
    unfold valid_lat, valid_lon in *. lra. }
  assert (Hvs : res (qrb (ssplon sat) (ssplat sat) 0 (-90)) = RIG_OK).
  { apply qrb_res_valid, out_of_range_false.
    unfold valid_lat, valid_lon in *. lra. }
  rewrite north_pole_is_covered_eq, south_pole_is_covered_eq, Hvn, Hvs.
  unfold ret.
  repeat split; intros H; f_equal; f_equal.
  - apply leb_true. lra.
  - apply leb_false. lra.
  - apply leb_true. lra.
  - apply leb_false. lra.
Qed.

(** X10. No pole is covered, and nothing is printed, when half the
    footprint is shorter than 111.2 km for each degree of latitude
    between the sub-satellite point and the nearer pole (the pole
    taken at 89.999999999 degrees); the latitude is between -89 and
    89. *)
Theorem pole_not_covered_by_latitude (sat : Sat) :
  valid_lon (ssplon sat) -> -89 <= ssplat sat <= 89 ->
  0.5 * footprint sat < 111.2 * (89.999999999 - Rabs (ssplat sat)) ->
  pole_is_covered sat = ret false.
Proof.
  intros Hlon Hlat Hf.
  destruct (pole_tests_by_latitude sat Hlon Hlat) as (_ & Hn & _ & Hs).
  pose proof (Rle_abs (ssplat sat)) as Ha.
  pose proof (Rle_abs (- ssplat sat)) as Hb. rewrite Rabs_Ropp in Hb.
  unfold pole_is_covered.
  rewrite Hn by lra. rewrite bind_ret. apply Hs. lra.
Qed.

Lemma pole_not_covered_by_latitude_witness :
  pole_is_covered (mk_sat (-80) 19 2000) = ret false.
Proof.
  apply (pole_not_covered_by_latitude (mk_sat (-80) 19 2000));
    unfold valid_lon; simpl; try lra.
  rewrite Rabs_left by lra. lra.
Defined.

(** X11. A pole is covered, and nothing is printed, when half the
    footprint reaches 111.2 km for each degree of latitude between
    the sub-satellite point and the nearer pole (the pole taken at
    90.000000001 degrees); the latitude is between -89 and 89. *)
Theorem pole_covered_by_latitude (sat : Sat) :
  valid_lon (ssplon sat) -> -89 <= ssplat sat <= 89 ->
  111.2 * (90.000000001 - Rabs (ssplat sat)) <= 0.5 * footprint sat ->
  pole_is_covered sat = ret true.
Proof.
  intros Hlon Hlat Hf.
  destruct (pole_tests_by_latitude sat Hlon Hlat) as (Hn & _ & Hs & _).
  unfold pole_is_covered.
  destruct (Rle_lt_dec 0 (ssplat sat)) as [Hpos | Hneg].
  - rewrite Rabs_right in Hf by lra. rewrite Hn by lra. now rewrite bind_ret.
  - rewrite Rabs_left in Hf by lra.
    rewrite north_pole_is_covered_eq.
    replace (res (qrb (ssplon sat) (ssplat sat) 0 90)) with RIG_OK
      by (symmetry; apply qrb_res_valid, out_of_range_false;
          unfold valid_lat, valid_lon in *; lra).
    change (Return ?b, []) with (ret b). rewrite bind_ret.
    destruct (_ <=? _); [reflexivity|]. apply Hs. lra.
Qed.

Lemma pole_covered_by_latitude_witness :
  pole_is_covered (mk_sat 85 19 4000) = ret true.
Proof.
  apply (pole_covered_by_latitude (mk_sat 85 19 4000));
    unfold valid_lon; simpl; try lra.
  rewrite Rabs_right by lra. lra.
Defined.

(** ** The projection, the mirror and the arc cosine of [satmap.ts] *)




(** A loop whose test stays true never returns. *)
Lemma while_num_diverges (P : R -> Prop) (cond : R -> bool) (body : R -> R) :
  (forall u, P u -> cond u = true /\ P (body u)) ->
  forall (fuel : nat) (v : R),
    P v -> while_num fuel cond body v = (OutOfFuel, []).
Proof.
  intros Hstep fuel. induction fuel as [|fuel IH]; intros v Hv.
  - reflexivity.
  - rewrite while_num_S. destruct (Hstep v Hv) as [-> Hb]. now apply IH.
Qed.

(** On a map whose width is negative, or whose width is 0 while x0
    is not, [lonlat_to_xy] never returns: one of its two loops runs for
    ever. *)
Lemma lonlat_to_xy_hangs (p : SatMap) (lon lat : R) :
  width p < 0 \/ (width p = 0 /\ x0 p <> 0) ->
  forall fuel : nat, lonlat_to_xy fuel p lon lat = (OutOfFuel, []).
Proof.
  intros Hw fuel. unfold lonlat_to_xy.
  set (x1 := x0 p + (lon - left_side_lon p) * width p / 360).
  destruct (Rlt_le_dec x1 0) as [Hneg | Hpos].
  - (* the first loop *)
    rewrite (while_num_diverges (fun u => u < 0)); [reflexivity| |exact Hneg].
    intros u Hu. split; [now apply ltb_true|]. lra.
  - (* the second loop *)
    destruct fuel as [|fuel]; [reflexivity|].
    rewrite (while_num_stop (S fuel) _ _ x1);
      [|apply ltb_false; lra | lia].
    rewrite bind_ret.
    rewrite (while_num_diverges (fun u => width p < u)); [reflexivity| |].
    + intros u Hu. split; [now apply gtb_true|]. lra.
    + destruct Hw as [Hw | [Hw Hx0]]; [lra|].
      assert (x1 = x0 p) by (subst x1; rewrite Hw; lra). lra.
Qed.


(** X14. On a positive divisor, and on a dividend that is not 0
    and not above the divisor in absolute value, [arccos] is the arc
    between 0 and PI whose cosine is the quotient.  On the dividend 0
    it answers 0, not the quarter of a turn whose cosine is 0. *)
Theorem arccos_inverts_cos (x y : R) :
  x <> 0 -> 0 < y -> Rabs x <= y ->
  0 <= arccos x y <= PI /\ cos (arccos x y) = x / y /\ arccos 0 y = 0.
Proof.
  intros Hx Hy Hxy. unfold arccos, Js.neqb.
  replace (x ==? 0) with false by (symmetry; now apply eqb_false).
  replace (y ==? 0) with false by (symmetry; apply eqb_false; lra).
  replace (y >? 0) with true by (symmetry; apply gtb_true; lra).
  rewrite (proj2 (eqb_true 0 0) eq_refl).
  cbn [negb andb].
  split; [apply acos_bound|]. split; [|reflexivity].
  apply cos_acos.
  pose proof (Rle_abs x). pose proof (Rle_abs (- x)) as Hn.
  rewrite Rabs_Ropp in Hn.
  split.
  - apply (Rmult_le_reg_r y); [lra|].
    unfold Rdiv. rewrite Rmult_assoc, Rinv_l by lra. lra.
  - apply (Rmult_le_reg_r y); [lra|].
    unfold Rdiv. rewrite Rmult_assoc, Rinv_l by lra. lra.
Qed.

Lemma arccos_inverts_cos_witness :
  0 <= arccos 1 2 <= PI /\ cos (arccos 1 2) = 1 / 2 /\ arccos 0 2 = 0.
Proof.
  apply (arccos_inverts_cos 1 2); try lra.
  rewrite Rabs_R1. lra.
Defined.

(** ** What [sort_points_x] does to an array *)

(** X15. On an array of at least four points, on any map,
    [sort_points_x] returns the points sorted by x with four of them
    overwritten: the first and the last place get the two corners, at
    the top of the map for a positive sub-satellite latitude and at the
    bottom otherwise; the second place gets the point of smallest x
    moved to the left border, and the place before the last the point
    of greatest x moved to the right border.  The places between keep
    the sorted points, so the second and the next-to-last points of the
    sorted array are lost. *)
Theorem sort_points_x_shape (satmap : SatMap) (sat : Sat) (points : list XY) :
  (4 <= length points)%nat ->
  let n := length points in
  exists (sorted poly : list XY) (p0 pN : XY),
    Permutation sorted points /\
    StronglySorted (fun u v => x u <= x v) sorted /\
    sorted !! 0%nat = Some p0 /\ sorted !! (n - 1)%nat = Some pN /\
    sort_points_x satmap sat points = ret poly /\
    length poly = n /\
    poly !! 0%nat = Some (mk_xy (x0 satmap) (corner_y satmap sat)) /\
    poly !! 1%nat = Some (mk_xy (x0 satmap) (y p0)) /\
    poly !! (n - 2)%nat = Some (mk_xy (x0 satmap + width satmap) (y pN)) /\
    poly !! (n - 1)%nat =
      Some (mk_xy (x0 satmap + width satmap) (corner_y satmap sat)) /\
    (forall i : nat, (2 <= i < n - 2)%nat -> poly !! i = sorted !! i).
Proof.
  intros Hn n.
  assert (Hs : length (sort_by x points) = n) by apply sort_by_length.
  destruct (lookup_lt_is_Some_2 (sort_by x points) 0) as [p0 H0]; [lia|].
  destruct (lookup_lt_is_Some_2 (sort_by x points) (n - 1)) as [pN HN]; [lia|].
  eexists (sort_by x points), _, p0, pN.
  split; [apply sort_by_Permutation|].
  split; [apply sort_by_sorted|].
  split; [exact H0|]. split; [exact HN|].
  split; [exact (sort_points_x_eq satmap sat points n p0 pN eq_refl Hn H0 HN)|].
  split; [now rewrite !length_insert|].
  split.
  { rewrite list_lookup_insert_ne by lia.
    apply list_lookup_insert_eq. rewrite !length_insert. lia. }
  split.
  { rewrite !list_lookup_insert_ne by lia.
    apply list_lookup_insert_eq. lia. }
  split.
  { rewrite !list_lookup_insert_ne by lia.
    apply list_lookup_insert_eq. rewrite !length_insert. lia. }
  split.
  { apply list_lookup_insert_eq. rewrite !length_insert. lia. }
  intros i Hi. now rewrite !list_lookup_insert_ne by lia.
Qed.

Lemma sort_points_x_shape_witness :
  let points := [mk_xy 3 10; mk_xy 1 20; mk_xy 4 30; mk_xy 2 40; mk_xy 5 50] in
  let n := length points in
  exists (sorted poly : list XY) (p0 pN : XY),
    Permutation sorted points /\
    StronglySorted (fun u v => x u <= x v) sorted /\
    sorted !! 0%nat = Some p0 /\ sorted !! (n - 1)%nat = Some pN /\
    sort_points_x shifted_map (mk_sat 85 0 4000) points = ret poly /\
    length poly = n /\
    poly !! 0%nat =
      Some (mk_xy (x0 shifted_map) (corner_y shifted_map (mk_sat 85 0 4000))) /\
    poly !! 1%nat = Some (mk_xy (x0 shifted_map) (y p0)) /\
    poly !! (n - 2)%nat =
      Some (mk_xy (x0 shifted_map + width shifted_map) (y pN)) /\
    poly !! (n - 1)%nat =
      Some (mk_xy (x0 shifted_map + width shifted_map)
              (corner_y shifted_map (mk_sat 85 0 4000))) /\
    (forall i : nat, (2 <= i < n - 2)%nat -> poly !! i = sorted !! i).
Proof.
  apply (sort_points_x_shape shifted_map (mk_sat 85 0 4000)
           [mk_xy 3 10; mk_xy 1 20; mk_xy 4 30; mk_xy 2 40; mk_xy 5 50]).
  simpl. lia.
Defined.

(** ** What the code prints *)

Lemma snd_bind_nil {A B : Type} (m : M A) (f : A -> M B) :
  snd m = [] -> (forall a, snd (f a) = []) -> snd (bind m f) = [].
Proof.
  intros Hm Hf. destruct m as [[a| |] o]; simpl in *; subst; auto.
  specialize (Hf a). destruct (f a) as [r o']. simpl in *. now subst.
Qed.

Lemma snd_print_bind {B : Type} (c : console) (m : M B) :
  snd (print c ;;; m) = c :: snd m.
Proof. unfold print. simpl. now destruct m. Qed.

Lemma snd_while {S : Type} (fuel : nat) (cond : S -> M bool)
    (body : S -> M S) (s : S) :
  (forall s, snd (cond s) = []) -> (forall s, snd (body s) = []) ->
  snd (while fuel cond body s) = [].
Proof.
  intros Hc Hb. revert s. induction fuel as [|fuel IH]; intros s.
  - reflexivity.
  - cbn [while]. apply snd_bind_nil; [apply Hc|].
    intros [|]; [|reflexivity]. apply snd_bind_nil; auto.
Qed.

Lemma snd_for_each {S T : Type} (l : list T) (body : S -> T -> M S) (s : S) :
  (forall s t, snd (body s t) = []) -> snd (for_each l body s) = [].
Proof.
  intros Hb. revert s. induction l as [|t l IH]; intros s.
  - reflexivity.
  - cbn [for_each]. apply snd_bind_nil; auto.
Qed.

Lemma snd_get (a : list XY) (i : Z) : snd (get a i) = [].
Proof. unfold get. destruct (i <? 0)%Z; [reflexivity|]. now destruct (a !! _). Qed.

Lemma snd_set_x (a : list XY) (i : Z) (v : R) : snd (set_x a i v) = [].
Proof. unfold set_x. apply snd_bind_nil; [apply snd_get | reflexivity]. Qed.

Lemma snd_set_y (a : list XY) (i : Z) (v : R) : snd (set_y a i v) = [].
Proof. unfold set_y. apply snd_bind_nil; [apply snd_get | reflexivity]. Qed.

(** Prove that a computation prints nothing, part by part. *)
Ltac silent :=
  repeat first
    [ reflexivity
    | apply snd_get | apply snd_set_x | apply snd_set_y
    | apply snd_while; intros
    | apply snd_for_each; intros
    | apply snd_bind_nil; [|intros]
    | match goal with
      | |- snd (if ?c then _ else _) = [] => destruct c
      end ].

Lemma snd_split_on_seam (satmap : SatMap) (sat : Sat) (points1 : list XY) :
  snd (split_on_seam satmap sat points1) = [].
Proof. unfold split_on_seam. silent. Qed.

Lemma snd_split_left_of_center (fuel : nat) (satmap : SatMap)
    (points1 : list XY) :
  snd (split_left_of_center fuel satmap points1) = [].
Proof. unfold split_left_of_center. silent. Qed.

Lemma snd_split_right_of_center (fuel : nat) (satmap : SatMap)
    (points1 : list XY) :
  snd (split_right_of_center fuel satmap points1) = [].
Proof. unfold split_right_of_center. silent. Qed.

Lemma snd_stretch_end_points (satmap : SatMap) (tps : list XY * list XY) :
  snd (stretch_end_points satmap tps) = [].
Proof. unfold stretch_end_points. silent. Qed.

Lemma snd_sort_points_x (satmap : SatMap) (sat : Sat) (points : list XY) :
  snd (sort_points_x satmap sat points) = [].
Proof. unfold sort_points_x. silent. Qed.

(** [split_points] prints the name of the procedure it takes, and
    nothing else, however it ends. *)
Lemma snd_split_points (fuel : nat) (satmap : SatMap) (sat : Sat)
    (sspx : R) (points1 : list XY) :
  snd (split_points fuel satmap sat sspx points1) =
  [console_log
     (if (ssplon sat >=? 179.4) || (ssplon sat <=? -179.4) then "split 1"
      else if sspx <? x0 satmap + width satmap / 2 then "split 2"
      else "split 3")].
Proof.
  unfold split_points.
  assert (Hb : forall (A B : Type) (m : M A) (f : A -> M B),
             (forall a, snd (f a) = []) -> snd (bind m f) = snd m).
  { intros A B m f Hf. destruct m as [[a| |] o]; simpl; auto.
    specialize (Hf a). destruct (f a) as [r o']. simpl in *. subst.
    apply app_nil_r. }
  rewrite Hb by (intros; apply snd_stretch_end_points).
  destruct (_ || _).
  - now rewrite snd_print_bind, snd_split_on_seam.
  - destruct (_ <? _).
    + now rewrite snd_print_bind, snd_split_left_of_center.
    + now rewrite snd_print_bind, snd_split_right_of_center.
Qed.

(** ** Every point stays on the map *)

(** The rule of the invariant for the loops on a state. *)
Lemma while_inv {S : Type} (I : S -> Prop) (fuel : nat) (cond : S -> M bool)
    (body : S -> M S) (s s' : S) (out : list console) :
  (forall s s1 o, I s -> body s = (Return s1, o) -> I s1) ->
  I s -> while fuel cond body s = (Return s', out) -> I s'.
Proof.
  intros Hb. revert s out.
  induction fuel as [|fuel IH]; intros s out Hs H; [discriminate|].
  cbn [while] in H.
  apply bind_Return_inv in H as (b & o1 & o2 & _ & H & _).
  destruct b.
  - apply bind_Return_inv in H as (s1 & o3 & o4 & H1 & H & _).
    apply (IH s1 o4); eauto.
  - injection H as <- _. exact Hs.
Qed.

Lemma get_Forall (P : XY -> Prop) (a : list XY) (i : Z) (p : XY)
    (out : list console) :
  Forall P a -> get a i = (Return p, out) -> P p.
Proof.
  intros Ha H. apply get_Return_inv in H as (_ & H & _).
  exact (proj1 (Forall_lookup P a) Ha _ _ H).
Qed.

Lemma set_x_Forall (P : XY -> Prop) (a a' : list XY) (i : Z) (v : R)
    (out : list console) :
  Forall P a -> (forall q, P q -> P (mk_xy v (y q))) ->
  set_x a i v = (Return a', out) -> Forall P a'.
Proof.
  intros Ha Hv H. unfold set_x in H.
  apply bind_Return_inv in H as (p & o1 & o2 & Hp & H & _).
  injection H as <- _. apply Forall_insert; [exact Ha|].
  apply Hv. exact (get_Forall P a i p o1 Ha Hp).
Qed.

Lemma set_y_Forall (P : XY -> Prop) (a a' : list XY) (i : Z) (v : R)
    (out : list console) :
  Forall P a -> (forall q, P q -> P (mk_xy (x q) v)) ->
  set_y a i v = (Return a', out) -> Forall P a'.
Proof.
  intros Ha Hv H. unfold set_y in H.
  apply bind_Return_inv in H as (p & o1 & o2 & Hp & H & _).
  injection H as <- _. apply Forall_insert; [exact Ha|].
  apply Hv. exact (get_Forall P a i p o1 Ha Hp).
Qed.

(** The three procedures of [split_points] return points of the array
    they are given. *)
Lemma split_on_seam_Forall (P : XY -> Prop) (satmap : SatMap) (sat : Sat)
    (points1 tps1 tps2 : list XY) (out : list console) :
  Forall P points1 ->
  split_on_seam satmap sat points1 = (Return (tps1, tps2), out) ->
  Forall P tps1 /\ Forall P tps2.
Proof.
  intros Hp H. unfold split_on_seam in H.
  apply bind_Return_inv in H as (tps & o1 & o2 & H & Hr & _).
  injection Hr as <- <- _.
  apply (for_each_inv (fun t => Forall P (fst t) /\ Forall P (snd t))) in H.
  - destruct H. split; now apply sort_by_Forall.
  - intros [t1 t2] p [t1' t2'] o Hin [H1 H2] Hb. cbn [fst snd] in *.
    assert (Pp : P p).
    { apply (proj1 (Forall_forall P points1) Hp).
      now apply list_elem_of_In. }
    destruct (x p >? _); injection Hb as <- <- _; split; auto;
      apply Forall_app; auto.
  - split; constructor.
Qed.

(** A step of a scan keeps the invariant that the two arrays hold
    points of [points1]. *)
Ltac scan_step Hp :=
  let s := fresh "s" in let s' := fresh "s" in let o := fresh "o" in
  let H1 := fresh "H" in let H2 := fresh "H" in let Hb := fresh "Hb" in
  let p := fresh "p" in let Hg := fresh "Hg" in
  intros s s' o [H1 H2] Hb;
  first
    [ injection Hb as <- _; now split
    | apply bind_Return_inv in Hb as (p & ? & ? & Hg & Hb & _);
      injection Hb as <- _; cbn [scan_tps1 scan_tps2];
      pose proof (get_Forall _ _ _ _ _ Hp Hg);
      split; auto; apply Forall_app; auto ].

Lemma split_left_of_center_Forall (P : XY -> Prop) (fuel : nat)
    (satmap : SatMap) (points1 tps1 tps2 : list XY) (out : list console) :
  Forall P points1 ->
  split_left_of_center fuel satmap points1 = (Return (tps1, tps2), out) ->
  Forall P tps1 /\ Forall P tps2.
Proof.
  intros Hp H. unfold split_left_of_center in H.
  set (I := fun s : scan => Forall P (scan_tps1 s) /\ Forall P (scan_tps2 s)).
  apply bind_Return_inv in H as (s1 & ? & ? & W1 & H & _).
  apply bind_Return_inv in H as (s2 & ? & ? & W2 & H & _).
  apply bind_Return_inv in H as (s3 & ? & ? & W3 & H & _).
  apply bind_Return_inv in H as (s4 & ? & ? & W4 & H & _).
  injection H as <- <- _.
  apply (while_inv I) in W1;
    [|scan_step Hp | split; constructor].
  apply (while_inv I) in W2;
    [|scan_step Hp | exact W1].
  apply (while_inv I) in W3;
    [|scan_step Hp | exact W2].
  apply (while_inv I) in W4;
    [|scan_step Hp | exact W3].
  exact W4.
Qed.

Lemma split_right_of_center_Forall (P : XY -> Prop) (fuel : nat)
    (satmap : SatMap) (points1 tps1 tps2 : list XY) (out : list console) :
  Forall P points1 ->
  split_right_of_center fuel satmap points1 = (Return (tps1, tps2), out) ->
  Forall P tps1 /\ Forall P tps2.
Proof.
  intros Hp H. unfold split_right_of_center in H.
  set (I := fun s : scan => Forall P (scan_tps1 s) /\ Forall P (scan_tps2 s)).
  apply bind_Return_inv in H as (s1 & ? & ? & W1 & H & _).
  apply bind_Return_inv in H as (s2 & ? & ? & W2 & H & _).
  apply bind_Return_inv in H as (s3 & ? & ? & W3 & H & _).
  apply bind_Return_inv in H as (s4 & ? & ? & W4 & H & _).
  injection H as <- <- _.
  apply (while_inv I) in W1;
    [|scan_step Hp | split; constructor].
  apply (while_inv I) in W2;
    [|scan_step Hp | exact W1].
  apply (while_inv I) in W3;
    [|scan_step Hp | exact W2].
  apply (while_inv I) in W4;
    [|scan_step Hp | exact W3].
  exact W4.
Qed.

Lemma stretch_end_points_Forall (P : XY -> Prop) (satmap : SatMap)
    (tps points : list XY * list XY) (out : list console) :
  (forall q, P q -> P (mk_xy (x0 satmap) (y q))) ->
  (forall q, P q -> P (mk_xy (x0 satmap + width satmap) (y q))) ->
  Forall P (fst tps) -> Forall P (snd tps) ->
  stretch_end_points satmap tps = (Return points, out) ->
  Forall P (fst points) /\ Forall P (snd points).
Proof.
  intros Hl Hr H1 H2 H. unfold stretch_end_points in H.
  rewrite !Nat2Z.id, !firstn_all in H.
  apply bind_Return_inv in H as (p & ? & ? & _ & H & _).
  destruct (x p >? _);
    apply bind_Return_inv in H as (a1 & ? & ? & S1 & H & _);
    apply bind_Return_inv in H as (a2 & ? & ? & S2 & H & _);
    apply bind_Return_inv in H as (a3 & ? & ? & S3 & H & _);
    apply bind_Return_inv in H as (a4 & ? & ? & S4 & H & _);
    injection H as <- _; cbn [fst snd];
    apply (set_x_Forall P) in S1; auto;
    apply (set_x_Forall P) in S2; auto;
    apply (set_x_Forall P) in S3; auto;
    apply (set_x_Forall P) in S4; auto.
Qed.

Lemma split_points_Forall (P : XY -> Prop) (fuel : nat) (satmap : SatMap)
    (sat : Sat) (sspx : R) (points1 : list XY) (points : list XY * list XY)
    (out : list console) :
  (forall q, P q -> P (mk_xy (x0 satmap) (y q))) ->
  (forall q, P q -> P (mk_xy (x0 satmap + width satmap) (y q))) ->
  Forall P points1 ->
  split_points fuel satmap sat sspx points1 = (Return points, out) ->
  Forall P (fst points) /\ Forall P (snd points).
Proof.
  intros Hl Hr Hp H. unfold split_points in H.
  apply bind_Return_inv in H as ([t1 t2] & ? & ? & Ht & H & _).
  assert (Ht' : Forall P t1 /\ Forall P t2).
  { destruct (_ || _).
    - apply bind_Return_inv in Ht as (? & ? & ? & _ & Ht & _).
      eapply split_on_seam_Forall; eauto.
    - destruct (_ <? _);
        apply bind_Return_inv in Ht as (? & ? & ? & _ & Ht & _).
      + eapply split_left_of_center_Forall; eauto.
      + eapply split_right_of_center_Forall; eauto. }
  destruct Ht' as [Ht1 Ht2].
  exact (stretch_end_points_Forall P satmap (t1, t2) points _ Hl Hr Ht1 Ht2 H).
Qed.

Lemma in_map_left (satmap : SatMap) (q : XY) :
  0 <= width satmap -> in_map satmap q -> in_map satmap (mk_xy (x0 satmap) (y q)).
Proof. unfold in_map. simpl. intros. lra. Qed.

Lemma in_map_right (satmap : SatMap) (q : XY) :
  0 <= width satmap -> in_map satmap q ->
  in_map satmap (mk_xy (x0 satmap + width satmap) (y q)).
Proof. unfold in_map. simpl. intros. lra. Qed.

Lemma in_map_y (satmap : SatMap) (q : XY) (v : R) :
  y0 satmap <= v <= y0 satmap + height satmap ->
  in_map satmap q -> in_map satmap (mk_xy (x q) v).
Proof. unfold in_map. simpl. intros. lra. Qed.

(** [sort_points_x] keeps the points on the map. *)
Lemma sort_points_x_in_map (satmap : SatMap) (sat : Sat)
    (points poly : list XY) (out : list console) :
  0 <= width satmap -> 0 <= height satmap ->
  Forall (in_map satmap) points ->
  sort_points_x satmap sat points = (Return poly, out) ->
  Forall (in_map satmap) poly.
Proof.
  intros Hw Hh Hp H. unfold sort_points_x in H.
  assert (Hs : Forall (in_map satmap) (sort_by x points))
    by now apply sort_by_Forall.
  rewrite sort_by_length in H.
  set (P := in_map satmap) in *.
  apply bind_Return_inv in H as (p0 & ? & ? & G0 & H & _).
  pose proof (get_Forall P _ _ _ _ Hs G0) as HP0.
  assert (H1 : Forall P (<[1%nat := mk_xy (x0 satmap) (y p0)]> (sort_by x points)))
    by (apply Forall_insert; [exact Hs | now apply in_map_left]).
  apply bind_Return_inv in H as (a2 & ? & ? & S2 & H & _).
  apply (set_x_Forall P) in S2; [|exact H1 | intros; now apply in_map_right].
  apply bind_Return_inv in H as (pN & ? & ? & GN & H & _).
  pose proof (get_Forall P _ _ _ _ S2 GN) as HPN.
  apply bind_Return_inv in H as (a3 & ? & ? & S3 & H & _).
  apply (set_y_Forall P) in S3;
    [|exact S2 | intros; apply in_map_y; [apply HPN | assumption]].
  destruct (ssplat sat >? 0);
    apply bind_Return_inv in H as (a4 & ? & ? & S4 & H & _);
    apply bind_Return_inv in H as (a5 & ? & ? & S5 & H & _);
    apply bind_Return_inv in H as (a6 & ? & ? & S6 & H & _);
    (apply (set_x_Forall P) in S4; [|exact S3 | intros; now apply in_map_left]);
    (apply (set_y_Forall P) in S5; [|exact S4 | intros; apply in_map_y; [lra | assumption]]);
    (apply (set_x_Forall P) in S6; [|exact S5 | intros; now apply in_map_right]);
    (apply (set_y_Forall P) in H; [exact H |exact S6 | intros; apply in_map_y; [lra | assumption]]).
Qed.

(** The two points of a sample are on a map whose x0 is 0. *)
Lemma footprint_sample_in_map (fuel : nat) (satmap : SatMap) (sat : Sat)
    (azi : nat) (r : sample) (out : list console) :
  x0 satmap = 0 -> 0 <= height satmap ->
  footprint_sample fuel satmap sat azi = (Return r, out) ->
  in_map satmap (point r) /\ in_map satmap (mirror r).
Proof.
  intros Hx0 Hh H.
  pose proof (footprint_sample_range _ _ _ _ _ _ H) as [Hp Hm].
  pose proof PI_bounds as HPI. pose proof de2ra_pos as Hde.
  unfold footprint_sample in H.
  apply bind_Return_inv in H as (north & o1 & o1' & _ & H & _).
  apply bind_Return_inv in H as (r1 & o2 & o2' & _ & H & _).
  apply bind_Return_inv in H as (r2 & o3 & o3' & _ & H & _).
  apply bind_Return_inv in H as (wm & o4 & o4' & _ & H & _).
  apply bind_Return_inv in H as ([sx sy] & o5 & o5' & Hs & H & _).
  apply bind_Return_inv in H as ([msx msy] & o6 & o6' & Hms & H & _).
  injection H as <- _. cbn [point mirror x] in *.
  apply lonlat_to_xy_range in Hs as (_ & -> & _).
  apply lonlat_to_xy_range in Hms as (_ & -> & _).
  match goal with
  | |- context [asin ?v / de2ra] =>
      pose proof (asin_bound v) as Ha; set (phi := asin v) in *
  end.
  assert (Hphi : -90 <= phi / de2ra <= 90).
  { apply div_de2ra_bounds. unfold de2ra. lra. }
  set (lat' := phi / de2ra) in *.
  assert (Hy : 0 <= (90 - lat') * height satmap / 180 <= height satmap)
    by (split; nra).
  unfold in_map. cbn [x y]. rewrite Hx0. lra.
Qed.

(** The 360 points of the sampling loop are on a map whose x0 is 0. *)
Lemma footprint_points_in_map (fuel : nat) (satmap : SatMap) (sat : Sat)
    (points1 : list XY) (warped : bool) (out : list console) :
  x0 satmap = 0 -> 0 <= height satmap ->
  footprint_points fuel satmap sat = (Return (points1, warped), out) ->
  length points1 = 360%nat /\ 0 <= width satmap /\
  Forall (in_map satmap) points1.
Proof.
  intros Hx0 Hh H.
  destruct (footprint_points_lookup _ _ _ _ _ _ H) as [Hlook _].
  assert (Hw : 0 <= width satmap).
  { destruct (Hlook 0%nat ltac:(lia)) as (r & o & Hr & _).
    apply footprint_sample_range in Hr. lra. }
  destruct (footprint_points_range _ _ _ _ _ _ Hw H) as [Hlen _].
  split; [exact Hlen|]. split; [exact Hw|].
  apply Forall_lookup. intros j q Hj.
  assert (j < 360)%nat by (rewrite <- Hlen; eapply lookup_lt_Some; eauto).
  destruct (Nat.lt_ge_cases j 180) as [Hlt | Hge].
  - destruct (Hlook j Hlt) as (r & o & Hr & Hpt & _).
    rewrite Hj in Hpt. injection Hpt as ->.
    now apply (footprint_sample_in_map _ _ _ _ _ _ Hx0 Hh Hr).
  - destruct (Hlook (359 - j)%nat ltac:(lia)) as (r & o & Hr & _ & Hmi).
    replace (359 - (359 - j))%nat with j in Hmi by lia.
    rewrite Hj in Hmi. injection Hmi as ->.
    now apply (footprint_sample_in_map _ _ _ _ _ _ Hx0 Hh Hr).
Qed.

(** On a map whose x0 is 0 and whose height is not negative every
    point that [calculate_footprint] returns is on the map. *)
Lemma calculate_footprint_in_map (fuel : nat) (satmap : SatMap) (sat : Sat)
    (points1 points2 : list XY) (out : list console) :
  x0 satmap = 0 -> 0 <= height satmap ->
  calculate_footprint fuel satmap sat = (Return (points1, points2), out) ->
  Forall (in_map satmap) points1 /\ Forall (in_map satmap) points2.
Proof.
  intros Hx0 Hh H. unfold calculate_footprint in H.
  apply bind_Return_inv in H as ([pts w] & o1 & ? & Hpts & H & _).
  apply bind_Return_inv in H as (covered & o2 & ? & _ & H & _).
  destruct (footprint_points_in_map _ _ _ _ _ _ Hx0 Hh Hpts)
    as (Hlen & Hw & Hall).
  cbn [fst snd] in H. destruct covered; [|destruct w].
  - apply bind_Return_inv in H as (poly & ? & ? & Hs & H & _).
    injection H as <- <- _. split; [|constructor].
    eapply sort_points_x_in_map; eauto.
  - apply bind_Return_inv in H as (? & ? & ? & _ & H & _).
    apply bind_Return_inv in H as (ss & ? & ? & _ & H & _).
    apply (split_points_Forall (in_map satmap)) in H; auto.
    + intros. now apply in_map_left.
    + intros. now apply in_map_right.
  - injection H as <- <- _. split; [exact Hall | constructor].
Qed.

(** ** The footprint of a valid satellite on the map of [App.tsx] *)

(** On valid coordinates the pole tests print nothing. *)
Lemma pole_tests_valid (sat : Sat) :
  valid_lat (ssplat sat) -> valid_lon (ssplon sat) ->
  (exists b, north_pole_is_covered sat = ret b) /\
  (exists b, south_pole_is_covered sat = ret b) /\
  (exists b, pole_is_covered sat = ret b).
Proof.
  intros Hlat Hlon.
  assert (Hn : res (qrb (ssplon sat) (ssplat sat) 0 90) = RIG_OK).
  { apply qrb_res_valid, out_of_range_false.
    unfold valid_lat, valid_lon in *. lra. }
  assert (Hs : res (qrb (ssplon sat) (ssplat sat) 0 (-90)) = RIG_OK).
  { apply qrb_res_valid, out_of_range_false.
    unfold valid_lat, valid_lon in *. lra. }
  unfold pole_is_covered.
  rewrite north_pole_is_covered_eq, south_pole_is_covered_eq, Hn, Hs.
  split; [eexists; reflexivity|]. split; [eexists; reflexivity|].
  change (Return ?b, []) with (ret b). rewrite bind_ret.
  destruct (_ <=? _); eexists; reflexivity.
Qed.

(** On a map with x0 = 0 that starts at the longitude -180, for a
    valid satellite with a footprint that is not negative,
    [calculate_footprint] returns: either one polyline of 360 points,
    with nothing printed, or two polylines that are not empty, with 360
    points together and their ends pinned to the opposite borders,
    after the lines WARPED and the name of the split procedure. *)
Lemma calculate_footprint_app_map (p : SatMap) (sat : Sat) :
  x0 p = 0 -> left_side_lon p = -180 -> 0 < width p ->
  valid_lat (ssplat sat) -> valid_lon (ssplon sat) -> 0 <= footprint sat ->
  exists n : nat, forall fuel : nat, (n <= fuel)%nat ->
    exists (points1 points2 : list XY) (out : list console),
      calculate_footprint fuel p sat = (Return (points1, points2), out) /\
      (length points1 + length points2 = 360)%nat /\ points1 <> [] /\
      ((points2 = [] /\ out = []) \/
       (points2 <> [] /\
        (exists s, out = [console_log "WARPED"; console_log s]) /\
        pole_is_covered sat = ret false /\
        ((pinned points1 (x0 p + width p) /\ pinned points2 (x0 p)) \/
         (pinned points2 (x0 p + width p) /\ pinned points1 (x0 p))))).
Proof.
  intros Hx0 Hleft Hw Hlat Hlon Hf.
  destruct (pole_tests_valid sat Hlat Hlon) as ([bn Hn] & _ & [b Hcov]).
  destruct (footprint_points_terminates p sat Hw)
    as ([pts w] & o1 & n1 & Hconv).
  destruct (lonlat_to_xy_terminates p (ssplon sat) (ssplat sat) Hw)
    as (ss & o3 & n2 & Hconv2).
  exists (Nat.max 361 (Nat.max n1 n2)). intros fuel Hfuel.
  pose proof (Hconv fuel ltac:(lia)) as Hpts.
  pose proof (Hconv2 fuel ltac:(lia)) as Hss.
  assert (Ho1 : o1 = []).
  { rewrite (footprint_points_out _ _ _ _ _ Hpts), Hn. reflexivity. }
  subst o1.
  assert (Ho3 : o3 = []).
  { destruct ss. now apply lonlat_to_xy_range in Hss. }
  subst o3.
  destruct (footprint_points_range fuel p sat pts w []
              (Rlt_le _ _ Hw) Hpts) as [Hlen _].
  destruct b; [|destruct w].
  - (* a pole is covered *)
    destruct (pole_covered_footprint_origin fuel p sat pts w [] []
                Hw Hx0 Hpts Hcov) as (poly & y1 & y358 & Hc & Hl & _).
    exists poly, [], []. split; [exact Hc|].
    split; [simpl; lia|]. split; [|now left].
    intros ->. discriminate.
  - (* the footprint is warped *)
    destruct (split_points_on_app_map fuel p sat pts ss [] [] []
                Hx0 Hleft Hw Hlat Hlon Hf ltac:(lia) Hpts Hcov Hss)
      as (p1 & p2 & out & Hsplit & N1 & N2 & L & Hpin).
    pose proof (snd_split_points fuel p sat (fst ss) pts) as Hout.
    rewrite Hsplit in Hout. cbn [snd] in Hout.
    exists p1, p2, (console_log "WARPED" :: out).
    split.
    { unfold calculate_footprint.
      rewrite Hpts, bind_Return. cbn [fst snd].
      rewrite Hcov, bind_ret.
      unfold print. rewrite bind_Return. cbn [fst snd].
      rewrite Hss, bind_Return, Hsplit. reflexivity. }
    split; [exact L|]. split; [exact N1|]. right.
    split; [exact N2|]. split; [|split; [exact Hcov | exact Hpin]].
    rewrite Hout. eexists. reflexivity.
  - (* the nominal condition *)
    exists pts, [], []. split.
    { exact (calculate_footprint_nominal fuel p sat pts [] [] Hpts Hcov). }
    split; [simpl; lia|]. split; [|now left].
    intros ->. discriminate.
Qed.

(** ** The whole of [calculate_footprint] *)

(** X16. On a map with x0 = 0 that starts at the longitude -180, as
    the one of [App.tsx], of positive width, for a valid satellite with
    a footprint that is not negative, [calculate_footprint] returns,
    and never throws.  It returns either one polyline of 360 points,
    having printed nothing, or, when no pole is covered, two polylines
    that are not empty, of 360 points together, with their ends pinned
    to the opposite borders of the map, having printed WARPED and the
    name of the procedure of [split_points]. *)
Theorem calculate_footprint_returns (p : SatMap) (sat : Sat) :
  x0 p = 0 -> left_side_lon p = -180 -> 0 < width p ->
  valid_lat (ssplat sat) -> valid_lon (ssplon sat) -> 0 <= footprint sat ->
  exists n : nat, forall fuel : nat, (n <= fuel)%nat ->
    exists (points1 points2 : list XY) (out : list console),
      calculate_footprint fuel p sat = (Return (points1, points2), out) /\
      (length points1 + length points2 = 360)%nat /\ points1 <> [] /\
      ((points2 = [] /\ out = []) \/
       (points2 <> [] /\
        (exists s, out = [console_log "WARPED"; console_log s]) /\
        pole_is_covered sat = ret false /\
        ((pinned points1 (x0 p + width p) /\ pinned points2 (x0 p)) \/
         (pinned points2 (x0 p + width p) /\ pinned points1 (x0 p))))).
Proof. exact (calculate_footprint_app_map p sat). Qed.

Lemma calculate_footprint_returns_witness :
  exists n : nat, forall fuel : nat, (n <= fuel)%nat ->
    exists (points1 points2 : list XY) (out : list console),
      calculate_footprint fuel app_map (mk_sat (-30) 170 4000)
        = (Return (points1, points2), out) /\
      (length points1 + length points2 = 360)%nat /\ points1 <> [] /\
      ((points2 = [] /\ out = []) \/
       (points2 <> [] /\
        (exists s, out = [console_log "WARPED"; console_log s]) /\
        pole_is_covered (mk_sat (-30) 170 4000) = ret false /\
        ((pinned points1 (x0 app_map + width app_map) /\
          pinned points2 (x0 app_map)) \/
         (pinned points2 (x0 app_map + width app_map) /\
          pinned points1 (x0 app_map))))).
Proof.
  apply (calculate_footprint_returns app_map (mk_sat (-30) 170 4000));
    unfold valid_lat, valid_lon; simpl; lra.
Defined.




(** ** The footprint of length 0 *)






(** ** Which calls end *)


Lemma halts_const {A : Type} (r : M A) :
  fst r <> OutOfFuel -> halts (fun _ => r).
Proof. intros H. exists r. split; [exact H | apply converges_const]. Qed.

Lemma halts_bind {A B : Type} (m : nat -> M A) (f : nat -> A -> M B) :
  halts m -> (forall a, halts (fun fuel => f fuel a)) ->
  halts (fun fuel => bind (m fuel) (f fuel)).
Proof.
  intros ([[a| |] out] & Hr & Hm) Hf; cbn [fst] in Hr; [| |congruence].
  - destruct (Hf a) as (r & Hr' & Hc).
    exists (fst r, out ++ snd r). split; [exact Hr'|].
    exact (converges_bind m f a out r Hm Hc).
  - exists (TypeError, out). split; [discriminate|].
    exact (converges_bind_TypeError m f out Hm).
Qed.

Lemma fst_bind_fuel {A B : Type} (m : M A) (f : A -> M B) :
  fst m <> OutOfFuel -> (forall a, fst (f a) <> OutOfFuel) ->
  fst (bind m f) <> OutOfFuel.
Proof.
  intros Hm Hf. destruct m as [[a| |] o]; cbn [fst] in *;
    [|discriminate | congruence].
  specialize (Hf a). simpl. now destruct (f a).
Qed.

Lemma fst_get (a : list XY) (i : Z) : fst (get a i) <> OutOfFuel.
Proof.
  unfold get. destruct (i <? 0)%Z; [discriminate|].
  destruct (a !! _); discriminate.
Qed.

Lemma fst_set_x (a : list XY) (i : Z) (v : R) : fst (set_x a i v) <> OutOfFuel.
Proof.
  unfold set_x. apply fst_bind_fuel; [apply fst_get | discriminate].
Qed.

Lemma fst_set_y (a : list XY) (i : Z) (v : R) : fst (set_y a i v) <> OutOfFuel.
Proof.
  unfold set_y. apply fst_bind_fuel; [apply fst_get | discriminate].
Qed.

Lemma fst_for_each {S T : Type} (l : list T) (body : S -> T -> M S) (s : S) :
  (forall s t, fst (body s t) <> OutOfFuel) ->
  fst (for_each l body s) <> OutOfFuel.
Proof.
  intros Hb. revert s. induction l as [|t l IH]; intros s.
  - discriminate.
  - cbn [for_each]. apply fst_bind_fuel; auto.
Qed.

(** Prove that a computation without loops does not run out of fuel. *)
Ltac fueled :=
  repeat first
    [ discriminate
    | apply fst_get | apply fst_set_x | apply fst_set_y
    | apply fst_for_each; intros
    | apply fst_bind_fuel; [|intros]
    | match goal with
      | |- fst (if ?c then _ else _) <> OutOfFuel => destruct c
      end ].

(** A loop halts when its test and its body do and each turn
    decreases a measure. *)
Lemma while_halts {St : Type} (mu : St -> nat) (cond : St -> M bool)
    (body : St -> M St) :
  (forall s, fst (cond s) <> OutOfFuel) ->
  (forall s, fst (body s) <> OutOfFuel) ->
  (forall s o s' o', cond s = (Return true, o) -> body s = (Return s', o') ->
                     (mu s' < mu s)%nat) ->
  forall s, halts (fun fuel => while fuel cond body s).
Proof.
  intros Hc Hb Hmu s.
  remember (mu s) as k eqn:Ek. revert s Ek.
  induction k as [k IH] using lt_wf_ind. intros s Ek.
  destruct (cond s) as [[[|]| |] o] eqn:Ec.
  - destruct (body s) as [[s'| |] o'] eqn:Eb.
    + destruct (IH (mu s')) with (s := s') as (r & Hr & n & Hn);
        [rewrite Ek; eapply Hmu; eauto | reflexivity |].
      exists (fst r, o ++ o' ++ snd r). split; [exact Hr|].
      exists (S n). intros fuel Hf. destruct fuel as [|fuel]; [lia|].
      cbn [while]. rewrite Ec, bind_Return. cbn [fst snd].
      rewrite Eb, bind_Return, (Hn fuel) by lia. reflexivity.
    + exists (TypeError, o ++ o'). split; [discriminate|].
      exists 1%nat. intros fuel Hf. destruct fuel as [|fuel]; [lia|].
      cbn [while]. rewrite Ec, bind_Return. cbn [fst snd].
      now rewrite Eb.
    + specialize (Hb s). rewrite Eb in Hb. now elim Hb.
  - exists (Return s, o ++ []). split; [discriminate|].
    exists 1%nat. intros fuel Hf. destruct fuel as [|fuel]; [lia|].
    cbn [while]. now rewrite Ec, bind_Return.
  - exists (TypeError, o). split; [discriminate|].
    exists 1%nat. intros fuel Hf. destruct fuel as [|fuel]; [lia|].
    cbn [while]. now rewrite Ec.
  - specialize (Hc s). rewrite Ec in Hc. now elim Hc.
Qed.

(** What a turn of a scan does to the index: the test of a scan that
    reads [points1] finds the index inside the array, and the body
    moves it by one. *)
Ltac scan_turn :=
  let s := fresh "s" in let o := fresh "o" in
  let s' := fresh "s" in let o' := fresh "o" in
  let Hc := fresh "Hc" in let Hb := fresh "Hb" in
  let Hg := fresh "Hg" in let Hl := fresh "Hl" in
  intros s o s' o' Hc Hb;
  first
    [ apply bind_Return_inv in Hc as (? & ? & ? & Hg & _ & _);
      apply get_Return_inv in Hg as (? & Hl & _);
      apply lookup_lt_Some in Hl
    | injection Hc as Hc _;
      first [ apply Z.ltb_lt in Hc | apply Z.leb_le in Hc
            | apply Z.geb_le in Hc ] ];
  first
    [ injection Hb as <- _
    | apply bind_Return_inv in Hb as (? & ? & ? & _ & Hb & _);
      injection Hb as <- _ ];
  cbn [scan_i]; lia.

Lemma split_left_of_center_halts (satmap : SatMap) (points1 : list XY) :
  halts (fun fuel => split_left_of_center fuel satmap points1).
Proof.
  unfold split_left_of_center.
  set (n := Z.of_nat (length points1)).
  apply (halts_bind (fun fuel => @while scan fuel _ _ _)).
  { apply (while_halts (fun s => Z.to_nat (n - scan_i s)));
      [intros; fueled | intros; fueled | subst n; scan_turn]. }
  intros s1.
  apply (halts_bind (fun fuel => @while scan fuel _ _ _)).
  { apply (while_halts (fun s => Z.to_nat (n - scan_i s)));
      [intros; fueled | intros; fueled | subst n; scan_turn]. }
  intros s2.
  apply (halts_bind (fun fuel => @while scan fuel _ _ _)).
  { apply (while_halts (fun s => Z.to_nat (n - scan_i s)));
      [intros; fueled | intros; fueled | subst n; scan_turn]. }
  intros s3.
  apply (halts_bind (fun fuel => @while scan fuel _ _ _)).
  { apply (while_halts (fun s => Z.to_nat (scan_i s1 - scan_i s)));
      [intros; fueled | intros; fueled | scan_turn]. }
  intros s4. apply halts_const. discriminate.
Qed.

Lemma split_right_of_center_halts (satmap : SatMap) (points1 : list XY) :
  halts (fun fuel => split_right_of_center fuel satmap points1).
Proof.
  unfold split_right_of_center.
  apply (halts_bind (fun fuel => @while scan fuel _ _ _)).
  { apply (while_halts (fun s => Z.to_nat (scan_i s + 1)));
      [intros; fueled | intros; fueled | scan_turn]. }
  intros s1.
  apply (halts_bind (fun fuel => @while scan fuel _ _ _)).
  { apply (while_halts (fun s => Z.to_nat (scan_i s + 1)));
      [intros; fueled | intros; fueled | scan_turn]. }
  intros s2.
  apply (halts_bind (fun fuel => @while scan fuel _ _ _)).
  { apply (while_halts (fun s => Z.to_nat (scan_i s + 1)));
      [intros; fueled | intros; fueled | scan_turn]. }
  intros s3.
  apply (halts_bind (fun fuel => @while scan fuel _ _ _)).
  { apply (while_halts (fun s => Z.to_nat (scan_i s - scan_i s1)));
      [intros; fueled | intros; fueled | scan_turn]. }
  intros s4. apply halts_const. discriminate.
Qed.

Lemma split_points_halts (satmap : SatMap) (sat : Sat) (sspx : R)
    (points1 : list XY) :
  halts (fun fuel => split_points fuel satmap sat sspx points1).
Proof.
  unfold split_points.
  assert (Hs : forall tps, halts (fun _ : nat => stretch_end_points satmap tps)).
  { intros tps. apply halts_const. unfold stretch_end_points. fueled. }
  destruct (_ || _); [|destruct (_ <? _)].
  - apply (halts_bind
             (fun _ : nat => print (console_log "split 1") ;;;
                             split_on_seam satmap sat points1)
             (fun _ tps => stretch_end_points satmap tps)); [|exact Hs].
    apply halts_const. unfold split_on_seam, print. fueled.
  - apply (halts_bind
             (fun fuel : nat => print (console_log "split 2") ;;;
                                split_left_of_center fuel satmap points1)
             (fun _ tps => stretch_end_points satmap tps)); [|exact Hs].
    apply (halts_bind (fun _ : nat => print (console_log "split 2"))
             (fun fuel _ => split_left_of_center fuel satmap points1)).
    + apply halts_const. discriminate.
    + intros _. apply split_left_of_center_halts.
  - apply (halts_bind
             (fun fuel : nat => print (console_log "split 3") ;;;
                                split_right_of_center fuel satmap points1)
             (fun _ tps => stretch_end_points satmap tps)); [|exact Hs].
    apply (halts_bind (fun _ : nat => print (console_log "split 3"))
             (fun fuel _ => split_right_of_center fuel satmap points1)).
    + apply halts_const. discriminate.
    + intros _. apply split_right_of_center_halts.
Qed.




Lemma fst_bind_OutOfFuel {A B : Type} (m : M A) (f : A -> M B) :
  fst m <> TypeError -> (forall a, fst (f a) = OutOfFuel) ->
  fst (bind m f) = OutOfFuel.
Proof.
  intros Hm Hf. destruct m as [[a| |] o]; cbn [fst] in *;
    [|congruence | reflexivity].
  specialize (Hf a). simpl. destruct (f a). exact Hf.
Qed.

Lemma fst_bind_no_throw {A B : Type} (m : M A) (f : A -> M B) :
  fst m <> TypeError -> (forall a, fst (f a) <> TypeError) ->
  fst (bind m f) <> TypeError.
Proof.
  intros Hm Hf. destruct m as [[a| |] o]; cbn [fst] in *;
    [|congruence | discriminate].
  specialize (Hf a). simpl. now destruct (f a).
Qed.

Lemma while_num_no_throw (fuel : nat) (cond : R -> bool) (body : R -> R)
    (v : R) :
  fst (while_num fuel cond body v) <> TypeError.
Proof.
  revert v. induction fuel as [|fuel IH]; intros v; [discriminate|].
  rewrite while_num_S. destruct (cond v); [apply IH | discriminate].
Qed.

Lemma mirror_lon_no_throw (fuel : nat) (sat : Sat) (rangelon mapbreak : R) :
  fst (mirror_lon fuel sat rangelon mapbreak) <> TypeError.
Proof.
  unfold mirror_lon.
  repeat (apply fst_bind_no_throw; [apply while_num_no_throw | intros]).
  discriminate.
Qed.

(** On a map where [lonlat_to_xy] never returns, the first turn of
    the sampling loop never returns. *)
Lemma calculate_footprint_hangs (satmap : SatMap) (sat : Sat) :
  width satmap < 0 \/ (width satmap = 0 /\ x0 satmap <> 0) ->
  forall fuel : nat, fst (calculate_footprint fuel satmap sat) = OutOfFuel.
Proof.
  intros Hw fuel.
  assert (Hsample : fst (footprint_sample fuel satmap sat 0) = OutOfFuel).
  { unfold footprint_sample. apply fst_bind_OutOfFuel.
    { cbn [Nat.eqb]. rewrite north_pole_is_covered_eq. discriminate. }
    intros north.
    apply fst_bind_OutOfFuel; [apply while_num_no_throw|]. intros r1.
    apply fst_bind_OutOfFuel; [apply while_num_no_throw|]. intros r2.
    apply fst_bind_OutOfFuel; [apply mirror_lon_no_throw|]. intros wm.
    now rewrite (lonlat_to_xy_hangs satmap _ _ Hw). }
  unfold calculate_footprint, footprint_points.
  change (seq 0 180) with (0%nat :: seq 1 179). cbn [for_each].
  unfold footprint_step at 1.
  destruct (footprint_sample fuel satmap sat 0) as [[r| |] o];
    cbn [fst] in Hsample; try discriminate.
  reflexivity.
Qed.

(** X20. The width of the map must be positive.  On a map whose
    width is negative, or whose width is 0 while x0 is not,
    [lonlat_to_xy] never returns, whatever the longitude and the
    latitude: one of its two loops runs for ever; and so
    [calculate_footprint] never returns, whatever the satellite. *)
Theorem width_must_be_positive (satmap : SatMap) :
  width satmap < 0 \/ (width satmap = 0 /\ x0 satmap <> 0) ->
  (forall (lon lat : R) (fuel : nat),
     lonlat_to_xy fuel satmap lon lat = (OutOfFuel, [])) /\
  (forall (sat : Sat) (fuel : nat),
     fst (calculate_footprint fuel satmap sat) = OutOfFuel).
Proof.
  intros Hw. split.
  - intros lon lat fuel. now apply lonlat_to_xy_hangs.
  - intros sat fuel. now apply calculate_footprint_hangs.
Qed.

Lemma width_must_be_positive_witness :
  (forall (lon lat : R) (fuel : nat),
     lonlat_to_xy fuel (mk_satmap (-180) (-720) 360 0 0) lon lat
     = (OutOfFuel, [])) /\
  (forall (sat : Sat) (fuel : nat),
     fst (calculate_footprint fuel (mk_satmap (-180) (-720) 360 0 0) sat)
     = OutOfFuel).
Proof.
  apply (width_must_be_positive (mk_satmap (-180) (-720) 360 0 0)).
  left. simpl. lra.
Defined.

(** ** What [split_points] needs *)

(** A loop that returns has seen its test fail. *)
Lemma while_exit {St : Type} (fuel : nat) (cond : St -> M bool)
    (body : St -> M St) (s s' : St) (out : list console) :
  while fuel cond body s = (Return s', out) ->
  exists o, cond s' = (Return false, o).
Proof.
  revert s out. induction fuel as [|fuel IH]; intros s out H; [discriminate|].
  cbn [while] in H.
  apply bind_Return_inv in H as (b & o1 & o2 & Hc & H & _).
  destruct b.
  - apply bind_Return_inv in H as (s1 & o3 & o4 & _ & H & _).
    now apply (IH s1 o4).
  - injection H as <- _. now exists o1.
Qed.

(** Where a scan of [points1] stops there is a point that fails its
    test. *)
Lemma scan_exit (fuel : nat) (points1 : list XY) (test : XY -> bool)
    (body : scan -> M scan) (s s' : scan) (out : list console) :
  while fuel (fun s => p <- get points1 (scan_i s) ;; ret (test p)) body s
    = (Return s', out) ->
  exists q, In q points1 /\ test q = false.
Proof.
  intros H. apply while_exit in H as [o H].
  apply bind_Return_inv in H as (q & ? & ? & Hg & H & _).
  injection H as H _. exists q. split; [|exact H].
  apply get_Return_inv in Hg as (_ & Hl & _).
  apply list_elem_of_In. eapply list_elem_of_lookup_2; eauto.
Qed.

(** When [split_points] returns, the array had a point on each side of
    the midpoint. *)
Lemma split_points_straddles (fuel : nat) (satmap : SatMap) (sat : Sat)
    (sspx : R) (points1 : list XY) (r : list XY * list XY)
    (out : list console) :
  split_points fuel satmap sat sspx points1 = (Return r, out) ->
  (exists q, In q points1 /\ x q <= x0 satmap + width satmap / 2) /\
  (exists q, In q points1 /\ x0 satmap + width satmap / 2 <= x q).
Proof.
  unfold split_points. set (mid := x0 satmap + width satmap / 2).
  intros H.
  apply bind_Return_inv in H as ([t1 t2] & ? & ? & Ht & H & _).
  destruct (_ || _); [|destruct (_ <? _)];
    apply bind_Return_inv in Ht as (? & ? & ? & _ & Ht & _).
  - (* the seam: both arrays must have a first point *)
    assert (Hboth : t1 <> [] /\ t2 <> []).
    { unfold stretch_end_points in H. cbn [fst snd] in H.
      rewrite !Nat2Z.id, !firstn_all in H.
      apply bind_Return_inv in H as (p & ? & ? & G1 & H & _).
      split.
      - intros ->. discriminate.
      - intros ->. destruct (x p >? _).
        + apply bind_Return_inv in H as (a1 & ? & ? & _ & H & _).
          apply bind_Return_inv in H as (a2 & ? & ? & _ & H & _).
          apply bind_Return_inv in H as (a3 & ? & ? & S3 & _).
          discriminate.
        + apply bind_Return_inv in H as (a1 & ? & ? & S1 & _).
          discriminate. }
    unfold split_on_seam in Ht. fold mid in Ht.
    apply bind_Return_inv in Ht as (tps & ? & ? & Hp & Hr & _).
    injection Hr as <- <- _.
    apply (for_each_inv
             (fun t => Forall (fun q => In q points1 /\ mid < x q) (fst t) /\
                       Forall (fun q => In q points1 /\ x q <= mid) (snd t)))
      in Hp.
    + destruct Hp as [F1 F2]. destruct Hboth as [N1 N2].
      apply (sort_by_Forall _ y) in F1, F2.
      unfold sort_points_y in N1, N2.
      destruct (sort_by y (fst tps)) as [|q1 ?]; [congruence|].
      destruct (sort_by y (snd tps)) as [|q2 ?]; [congruence|].
      apply Forall_cons in F1 as [[I1 X1] _].
      apply Forall_cons in F2 as [[I2 X2] _].
      split; [exists q2 | exists q1]; split; auto; lra.
    + intros [a b] p [a' b'] o Hin [F1 F2] Hb. cbn [fst snd] in *.
      destruct (x p >? mid) eqn:E; injection Hb as <- <- _.
      * apply gtb_true in E. split; [|exact F2].
        apply Forall_app. split; [exact F1|].
        constructor; [split; [exact Hin | lra] | constructor].
      * apply gtb_false in E. split; [exact F1|].
        apply Forall_app. split; [exact F2|].
        constructor; [split; [exact Hin | lra] | constructor].
    + split; constructor.
  - (* the left side: the two first scans stop inside the array *)
    unfold split_left_of_center in Ht. fold mid in Ht.
    apply bind_Return_inv in Ht as (s1 & ? & ? & W1 & Ht & _).
    apply bind_Return_inv in Ht as (s2 & ? & ? & W2 & _).
    apply (scan_exit _ _ (fun p => x p <=? mid)) in W1 as (q1 & I1 & T1).
    apply (scan_exit _ _ (fun p => x p >? mid)) in W2 as (q2 & I2 & T2).
    apply leb_false in T1. apply gtb_false in T2.
    split; [exists q2 | exists q1]; split; auto; lra.
  - (* the right side *)
    unfold split_right_of_center in Ht. fold mid in Ht.
    apply bind_Return_inv in Ht as (s1 & ? & ? & W1 & Ht & _).
    apply bind_Return_inv in Ht as (s2 & ? & ? & W2 & _).
    apply (scan_exit _ _ (fun p => x p >=? mid)) in W1 as (q1 & I1 & T1).
    apply (scan_exit _ _ (fun p => x p <? mid)) in W2 as (q2 & I2 & T2).
    apply geb_false in T1. apply ltb_false in T2.
    split; [exists q1 | exists q2]; split; auto; lra.
Qed.

(** X21. [split_points] needs points on both sides of the midpoint
    x0 + width/2: on an array whose points are all left of it, or all
    right of it, and on the empty array, it ends with a [TypeError],
    whichever of its three procedures it takes. *)
Theorem split_points_needs_both_sides (satmap : SatMap) (sat : Sat)
    (sspx : R) (points1 : list XY) :
  Forall (fun q => x q < x0 satmap + width satmap / 2) points1 \/
  Forall (fun q => x0 satmap + width satmap / 2 < x q) points1 ->
  exists (n : nat) (out : list console),
    forall fuel : nat, (n <= fuel)%nat ->
      split_points fuel satmap sat sspx points1 = (TypeError, out).
Proof.
  intros Hside.
  destruct (split_points_halts satmap sat sspx points1)
    as ([[r| |] out] & Hr & n & Hn); cbn [fst] in Hr; [| |congruence].
  - exfalso.
    destruct (split_points_straddles _ _ _ _ _ _ _ (Hn n (le_n n)))
      as [(q1 & I1 & X1) (q2 & I2 & X2)].
    destruct Hside as [F | F];
      pose proof (proj1 (Forall_forall _ _) F) as Hall.
    + specialize (Hall q2 (proj2 (list_elem_of_In _ _) I2)). simpl in Hall. lra.
    + specialize (Hall q1 (proj2 (list_elem_of_In _ _) I1)). simpl in Hall. lra.
  - now exists n, out.
Qed.

Lemma split_points_needs_both_sides_witness :
  exists (n : nat) (out : list console),
    forall fuel : nat, (n <= fuel)%nat ->
      split_points fuel app_map (mk_sat 0 10 2000) 380
        [mk_xy 400 10; mk_xy 500 20; mk_xy 600 30] = (TypeError, out).
Proof.
  apply (split_points_needs_both_sides app_map (mk_sat 0 10 2000) 380
           [mk_xy 400 10; mk_xy 500 20; mk_xy 600 30]).
  right. repeat constructor; simpl; lra.
Defined.

(** ** [split_points] keeps the points *)

(** The loops of [split_points] that copy: the index moves by one, a
    point of [pts] is pushed to one array, [acc], and the other array
    is left as it is. *)
Section Copy_forward.

Variable pts : list XY.
Variable push : scan -> XY -> scan.
Variables acc other : scan -> list XY.
Hypothesis i_push : forall s p, scan_i (push s p) = (scan_i s + 1)%Z.
Hypothesis acc_push : forall s p, acc (push s p) = acc s ++ [p].
Hypothesis other_push : forall s p, other (push s p) = other s.

(** Forwards: the loop pushes the points from its first index on, as
    many as it makes turns, and stays below the bound of its test. *)
Lemma copy_forward (cond : scan -> M bool) (bound : Z) :
  (forall s o, cond s = (Return true, o) -> (scan_i s < bound)%Z) ->
  forall (fuel : nat) (s s' : scan) (out : list console),
    while fuel cond (fun s => p <- get pts (scan_i s) ;; ret (push s p)) s
      = (Return s', out) ->
    (0 <= scan_i s <= bound)%Z ->
    exists k : nat,
      scan_i s' = (scan_i s + Z.of_nat k)%Z /\ (scan_i s' <= bound)%Z /\
      other s' = other s /\
      acc s' = acc s ++ take k (drop (Z.to_nat (scan_i s)) pts).
Proof.
  intros Hbound fuel.
  induction fuel as [|fuel IH]; intros s s' out H Hs; [discriminate|].
  cbn [while] in H.
  apply bind_Return_inv in H as (b & o1 & o2 & Hc & H & _).
  destruct b.
  - apply bind_Return_inv in H as (s1 & o3 & o4 & Hb & H & _).
    apply bind_Return_inv in Hb as (p & ? & ? & Hg & Hr & _).
    injection Hr as <- _.
    apply get_Return_inv in Hg as (Hi & Hl & _).
    pose proof (Hbound s o1 Hc) as Hlt.
    destruct (IH _ _ _ H) as (k & Ei & Eb & Eo & Ea).
    { rewrite i_push. lia. }
    rewrite i_push in Ei, Ea. rewrite other_push in Eo.
    rewrite acc_push in Ea.
    exists (S k). split; [lia|]. split; [exact Eb|]. split; [exact Eo|].
    rewrite Ea, (drop_S _ _ _ Hl), <- app_assoc. cbn [take app].
    replace (Z.to_nat (scan_i s + 1)) with (S (Z.to_nat (scan_i s))) by lia.
    reflexivity.
  - injection H as <- _. exists 0%nat.
    split; [lia|]. split; [lia|]. split; [reflexivity|].
    cbn [take]. now rewrite app_nil_r.
Qed.

End Copy_forward.

Section Copy_backward.

Variable pts : list XY.
Variable push : scan -> XY -> scan.
Variables acc other : scan -> list XY.
Hypothesis i_push : forall s p, scan_i (push s p) = (scan_i s - 1)%Z.
Hypothesis acc_push : forall s p, acc (push s p) = acc s ++ [p].
Hypothesis other_push : forall s p, other (push s p) = other s.

(** Backwards: the loop pushes, last first, the points from the index
    after the one it stops at to its first index. *)
Lemma copy_backward (cond : scan -> M bool) (lo : Z) :
  (forall s o, cond s = (Return true, o) -> (lo <= scan_i s)%Z) ->
  forall (fuel : nat) (s s' : scan) (out : list console),
    while fuel cond (fun s => p <- get pts (scan_i s) ;; ret (push s p)) s
      = (Return s', out) ->
    (lo - 1 <= scan_i s)%Z -> (-1 <= scan_i s)%Z ->
    exists k : nat,
      scan_i s' = (scan_i s - Z.of_nat k)%Z /\
      (lo - 1 <= scan_i s')%Z /\ (-1 <= scan_i s')%Z /\
      other s' = other s /\
      acc s' = acc s ++ rev (take k (drop (Z.to_nat (scan_i s' + 1)) pts)).
Proof.
  intros Hbound fuel.
  induction fuel as [|fuel IH]; intros s s' out H Hlo Hs; [discriminate|].
  cbn [while] in H.
  apply bind_Return_inv in H as (b & o1 & o2 & Hc & H & _).
  destruct b.
  - apply bind_Return_inv in H as (s1 & o3 & o4 & Hb & H & _).
    apply bind_Return_inv in Hb as (p & ? & ? & Hg & Hr & _).
    injection Hr as <- _.
    apply get_Return_inv in Hg as (Hi & Hl & _).
    pose proof (Hbound s o1 Hc) as Hge.
    destruct (IH _ _ _ H) as (k & Ei & Eb & Em & Eo & Ea).
    { rewrite i_push. lia. }
    { rewrite i_push. lia. }
    rewrite i_push in Ei. rewrite other_push in Eo.
    rewrite acc_push in Ea.
    exists (S k). split; [lia|]. split; [exact Eb|]. split; [exact Em|].
    split; [exact Eo|].
    rewrite Ea.
    assert (Hk : drop (Z.to_nat (scan_i s' + 1)) pts !! k = Some p).
    { rewrite lookup_drop.
      replace (Z.to_nat (scan_i s' + 1) + k)%nat with (Z.to_nat (scan_i s))
        by lia.
      exact Hl. }
    rewrite (take_S_r _ _ _ Hk), rev_unit, <- app_assoc. reflexivity.
  - injection H as <- _. exists 0%nat.
    split; [lia|]. split; [lia|]. split; [lia|]. split; [reflexivity|].
    cbn [take rev]. now rewrite app_nil_r.
Qed.

End Copy_backward.

(** Where a scan that reads [pts] stops, the index is inside the
    array. *)
Lemma scan_exit_index (fuel : nat) (pts : list XY) (test : XY -> bool)
    (body : scan -> M scan) (s s' : scan) (out : list console) :
  while fuel (fun s => p <- get pts (scan_i s) ;; ret (test p)) body s
    = (Return s', out) ->
  (0 <= scan_i s' < Z.of_nat (length pts))%Z.
Proof.
  intros H. apply while_exit in H as [o H].
  apply bind_Return_inv in H as (q & ? & ? & Hg & _).
  apply get_Return_inv in Hg as (Hi & Hl & _).
  apply lookup_lt_Some in Hl. lia.
Qed.

(** Where a scan that reads [pts] makes a turn, the index is inside
    the array. *)
Lemma scan_turn_index (pts : list XY) (test : XY -> bool) (s : scan)
    (o : list console) :
  (p <- get pts (scan_i s) ;; ret (test p)) = (Return true, o) ->
  (0 <= scan_i s < Z.of_nat (length pts))%Z.
Proof.
  intros H. apply bind_Return_inv in H as (q & ? & ? & Hg & _).
  apply get_Return_inv in Hg as (Hi & Hl & _).
  apply lookup_lt_Some in Hl. lia.
Qed.

(** The left-of-midpoint procedure returns the points of the array,
    each once. *)
Lemma split_left_of_center_Permutation (fuel : nat) (satmap : SatMap)
    (pts tps1 tps2 : list XY) (out : list console) :
  split_left_of_center fuel satmap pts = (Return (tps1, tps2), out) ->
  Permutation (tps1 ++ tps2) pts.
Proof.
  intros H. unfold split_left_of_center in H.
  set (n := Z.of_nat (length pts)) in *.
  apply bind_Return_inv in H as (s1 & ? & ? & W1 & H & _).
  apply bind_Return_inv in H as (s2 & ? & ? & W2 & H & _).
  apply bind_Return_inv in H as (s3 & ? & ? & W3 & H & _).
  apply bind_Return_inv in H as (s4 & ? & ? & W4 & H & _).
  injection H as <- <- _.
  (* the first scan *)
  pose proof (scan_exit_index _ _ _ _ _ _ _ W1) as R1. fold n in R1.
  apply (while_inv (fun s => scan_tps1 s = [] /\ scan_tps2 s = [])) in W1;
    [|intros s s' o Hs Hb; injection Hb as <- _; exact Hs | now split].
  destruct W1 as [A1 B1].
  (* the copy to tps2 *)
  pose proof (scan_exit_index _ _ _ _ _ _ _ W2) as R2. fold n in R2.
  apply (copy_forward pts
           (fun s p => mk_scan (scan_i s + 1) (scan_tps1 s) (scan_tps2 s ++ [p]))
           scan_tps2 scan_tps1 ltac:(reflexivity) ltac:(reflexivity)
           ltac:(reflexivity) _ n) in W2 as (k2 & I2 & _ & O2 & C2);
    [|intros s o Hc; apply scan_turn_index in Hc; fold n in Hc; lia | lia].
  rewrite A1 in O2. rewrite B1 in C2. cbn [app] in C2.
  (* the copy of the end to tps1 *)
  pose proof W3 as X3. apply while_exit in X3 as [? X3].
  injection X3 as X3 _. apply Z.ltb_ge in X3.
  apply (copy_forward pts
           (fun s p => mk_scan (scan_i s + 1) (scan_tps1 s ++ [p]) (scan_tps2 s))
           scan_tps1 scan_tps2 ltac:(reflexivity) ltac:(reflexivity)
           ltac:(reflexivity) _ n) in W3 as (k3 & I3 & B3 & O3 & C3);
    [|intros s o Hc; injection Hc as Hc _; apply Z.ltb_lt in Hc; exact Hc
     | lia].
  rewrite O2 in C3. cbn [app] in C3.
  (* the copy of the beginning to tps1 *)
  pose proof W4 as X4. apply while_exit in X4 as [? X4].
  injection X4 as X4 _. apply Z.leb_gt in X4.
  apply (copy_forward pts
           (fun s p => mk_scan (scan_i s + 1) (scan_tps1 s ++ [p]) (scan_tps2 s))
           scan_tps1 scan_tps2 ltac:(reflexivity) ltac:(reflexivity)
           ltac:(reflexivity) _ (scan_i s1)) in W4 as (k4 & I4 & B4 & O4 & C4);
    [|intros s o Hc; injection Hc as Hc _; apply Z.leb_le in Hc; lia
     | cbn [scan_i]; lia].
  cbn [scan_i scan_tps1 scan_tps2] in I4, O4, C4.
  change (Z.to_nat 0) with 0%nat in C4. rewrite drop_0 in C4.
  rewrite C4, C3, O4, O3, C2.
  set (i1 := Z.to_nat (scan_i s1)).
  replace (Z.to_nat (scan_i s2)) with (i1 + k2)%nat by lia.
  replace k4 with i1 by lia.
  replace k3 with (length pts - (i1 + k2))%nat by lia.
  rewrite (take_ge (drop (i1 + k2) pts)) by (rewrite length_drop; lia).
  rewrite <- (drop_drop pts k2 i1).
  set (A := take i1 pts). set (D := drop i1 pts).
  assert (E : A ++ take k2 D ++ drop k2 D = pts)
    by (subst A D; now rewrite take_drop, take_drop).
  rewrite <- E at 1.
  rewrite <- app_assoc, (Permutation_app_comm (drop k2 D)).
  rewrite <- !app_assoc. reflexivity.
Qed.

(** The right-of-midpoint procedure returns the points of the array,
    each once. *)
Lemma split_right_of_center_Permutation (fuel : nat) (satmap : SatMap)
    (pts tps1 tps2 : list XY) (out : list console) :
  split_right_of_center fuel satmap pts = (Return (tps1, tps2), out) ->
  Permutation (tps1 ++ tps2) pts.
Proof.
  intros H. unfold split_right_of_center in H.
  set (n := Z.of_nat (length pts)) in *.
  apply bind_Return_inv in H as (s1 & ? & ? & W1 & H & _).
  apply bind_Return_inv in H as (s2 & ? & ? & W2 & H & _).
  apply bind_Return_inv in H as (s3 & ? & ? & W3 & H & _).
  apply bind_Return_inv in H as (s4 & ? & ? & W4 & H & _).
  injection H as <- <- _.
  (* the first scan *)
  pose proof (scan_exit_index _ _ _ _ _ _ _ W1) as R1. fold n in R1.
  apply (while_inv (fun s => scan_tps1 s = [] /\ scan_tps2 s = [])) in W1;
    [|intros s s' o Hs Hb; injection Hb as <- _; exact Hs | now split].
  destruct W1 as [A1 B1].
  (* the copy to tps2 *)
  pose proof (scan_exit_index _ _ _ _ _ _ _ W2) as R2. fold n in R2.
  apply (copy_backward pts
           (fun s p => mk_scan (scan_i s - 1) (scan_tps1 s) (scan_tps2 s ++ [p]))
           scan_tps2 scan_tps1 ltac:(reflexivity) ltac:(reflexivity)
           ltac:(reflexivity) _ 0%Z) in W2 as (k2 & I2 & _ & _ & O2 & C2);
    [|intros s o Hc; apply scan_turn_index in Hc; lia | lia | lia].
  rewrite A1 in O2. rewrite B1 in C2. cbn [app] in C2.
  (* the copy of the beginning to tps1 *)
  pose proof W3 as X3. apply while_exit in X3 as [? X3].
  injection X3 as X3 _.
  assert (X3' : (scan_i s3 < 0)%Z).
  { destruct (Z.geb_spec (scan_i s3) 0); [discriminate | lia]. }
  apply (copy_backward pts
           (fun s p => mk_scan (scan_i s - 1) (scan_tps1 s ++ [p]) (scan_tps2 s))
           scan_tps1 scan_tps2 ltac:(reflexivity) ltac:(reflexivity)
           ltac:(reflexivity) _ 0%Z) in W3 as (k3 & I3 & _ & M3 & O3 & C3);
    [|intros s o Hc; injection Hc as Hc _; apply Z.geb_le in Hc; exact Hc
     | lia | lia].
  rewrite O2 in C3. cbn [app] in C3.
  (* the copy of the end to tps1 *)
  pose proof W4 as X4. apply while_exit in X4 as [? X4].
  injection X4 as X4 _.
  assert (X4' : (scan_i s4 < scan_i s1 + 1)%Z).
  { destruct (Z.geb_spec (scan_i s4) (scan_i s1 + 1)); [discriminate | lia]. }
  apply (copy_backward pts
           (fun s p => mk_scan (scan_i s - 1) (scan_tps1 s ++ [p]) (scan_tps2 s))
           scan_tps1 scan_tps2 ltac:(reflexivity) ltac:(reflexivity)
           ltac:(reflexivity) _ (scan_i s1 + 1)%Z)
    in W4 as (k4 & I4 & B4 & _ & O4 & C4);
    [|intros s o Hc; injection Hc as Hc _; apply Z.geb_le in Hc; exact Hc
     | cbn [scan_i]; lia | cbn [scan_i]; lia].
  cbn [scan_i scan_tps1 scan_tps2] in I4, O4, C4.
  rewrite C4, C3, O4, O3, C2.
  replace (Z.to_nat (scan_i s3 + 1)) with 0%nat by lia.
  rewrite drop_0.
  set (i2 := Z.to_nat (scan_i s2 + 1)).
  replace k3 with i2 by lia.
  replace (Z.to_nat (scan_i s4 + 1)) with (i2 + k2)%nat by lia.
  replace k4 with (length pts - (i2 + k2))%nat by lia.
  rewrite (take_ge (drop (i2 + k2) pts)) by (rewrite length_drop; lia).
  rewrite <- (drop_drop pts k2 i2).
  set (A := take i2 pts). set (D := drop i2 pts).
  assert (E : A ++ take k2 D ++ drop k2 D = pts)
    by (subst A D; now rewrite take_drop, take_drop).
  rewrite <- E at 1.
  rewrite <- !Permutation_rev.
  rewrite <- app_assoc, (Permutation_app_comm (drop k2 D)).
  reflexivity.
Qed.

(** The loop of the seam procedure shares the points between the two
    arrays. *)
Lemma partition_Permutation (mid : R) (l : list XY) :
  forall tps tps' : list XY * list XY, forall out : list console,
    for_each l (fun (tps : list XY * list XY) p =>
                  if x p >? mid then ret (fst tps ++ [p], snd tps)
                  else ret (fst tps, snd tps ++ [p])) tps
      = (Return tps', out) ->
    Permutation (fst tps' ++ snd tps') (fst tps ++ snd tps ++ l).
Proof.
  induction l as [|p l IH]; intros tps tps' out H.
  - injection H as <- _. now rewrite app_nil_r.
  - cbn [for_each] in H.
    apply bind_Return_inv in H as (t & ? & ? & Hb & H & _).
    apply IH in H. rewrite H. clear H.
    destruct (x p >? mid); injection Hb as <- _; cbn [fst snd].
    + rewrite <- !app_assoc. apply Permutation_app_head.
      cbn [app]. apply Permutation_middle.
    + rewrite <- !app_assoc. reflexivity.
Qed.

Lemma split_on_seam_Permutation (satmap : SatMap) (sat : Sat)
    (pts tps1 tps2 : list XY) (out : list console) :
  split_on_seam satmap sat pts = (Return (tps1, tps2), out) ->
  Permutation (tps1 ++ tps2) pts.
Proof.
  intros H. unfold split_on_seam in H.
  apply bind_Return_inv in H as (tps & ? & ? & Hp & Hr & _).
  injection Hr as <- <- _.
  apply partition_Permutation in Hp. cbn [fst snd app] in Hp.
  unfold sort_points_y. now rewrite !sort_by_Permutation.
Qed.

(** Writing the x of a point leaves the other points and every y as
    they are. *)
Lemma set_x_keeps (a a' : list XY) (i : Z) (v : R) (out : list console) :
  set_x a i v = (Return a', out) ->
  map y a' = map y a /\ length a' = length a /\
  forall j : nat, j <> Z.to_nat i -> a' !! j = a !! j.
Proof.
  intros H. unfold set_x in H.
  apply bind_Return_inv in H as (p & ? & ? & Hg & H & _).
  injection H as <- _.
  apply get_Return_inv in Hg as (_ & Hl & _).
  split; [|split].
  - rewrite <- (list_insert_id _ _ _ Hl) at 2.
    rewrite !list_fmap_insert. reflexivity.
  - apply length_insert.
  - intros j Hj. now apply list_lookup_insert_ne.
Qed.

(** The last step of [split_points] changes at most the x of the first
    and of the last point of each array. *)
Lemma stretch_end_points_same (satmap : SatMap) (tps1 tps2 : list XY)
    (points1 points2 : list XY) (out : list console) :
  stretch_end_points satmap (tps1, tps2) = (Return (points1, points2), out) ->
  same_but_ends tps1 points1 /\ same_but_ends tps2 points2.
Proof.
  intros H. unfold stretch_end_points in H. cbn [fst snd] in H.
  rewrite !Nat2Z.id, !firstn_all in H.
  apply bind_Return_inv in H as (p & ? & ? & _ & H & _).
  assert (Hpair : forall (a a1 a2 : list XY) (v : R) (o o' : list console),
            set_x a 0 v = (Return a1, o) ->
            set_x a1 (Z.of_nat (length a) - 1) v = (Return a2, o') ->
            same_but_ends a a2).
  { intros a a1 a2 v o o' S1 S2.
    apply set_x_keeps in S1 as (Y1 & L1 & K1).
    apply set_x_keeps in S2 as (Y2 & L2 & K2).
    split; [congruence|].
    intros j Hj0 Hj. rewrite K2, K1 by lia. reflexivity. }
  destruct (x p >? _);
    apply bind_Return_inv in H as (a1 & ? & ? & S1 & H & _);
    apply bind_Return_inv in H as (a2 & ? & ? & S2 & H & _);
    apply bind_Return_inv in H as (a3 & ? & ? & S3 & H & _);
    apply bind_Return_inv in H as (a4 & ? & ? & S4 & H & _);
    injection H as <- <- _; split; eapply Hpair; eauto.
Qed.

(** X22. [split_points] keeps the points: when it returns, its two
    polylines hold the points of the array it was given, each of them
    once, and only the x of the first and of the last point of each
    polyline has been changed; this on any map and in each of the three
    procedures. *)
Theorem split_points_keeps_the_points (fuel : nat) (satmap : SatMap)
    (sat : Sat) (sspx : R) (points : list XY) (points1 points2 : list XY)
    (out : list console) :
  split_points fuel satmap sat sspx points = (Return (points1, points2), out) ->
  exists tps1 tps2 : list XY,
    Permutation (tps1 ++ tps2) points /\
    same_but_ends tps1 points1 /\ same_but_ends tps2 points2.
Proof.
  intros H. unfold split_points in H.
  apply bind_Return_inv in H as ([t1 t2] & ? & ? & Ht & H & _).
  exists t1, t2. split; [|now apply (stretch_end_points_same satmap _ _ _ _ _ H)].
  destruct (_ || _); [|destruct (_ <? _)];
    apply bind_Return_inv in Ht as (? & ? & ? & _ & Ht & _).
  - eapply split_on_seam_Permutation; eauto.
  - eapply split_left_of_center_Permutation; eauto.
  - eapply split_right_of_center_Permutation; eauto.
Qed.

Lemma split_points_keeps_the_points_witness :
  exists (points1 points2 : list XY) (out : list console),
    split_points 4 app_map (mk_sat 0 10 2000) 100
      [mk_xy 100 1; mk_xy 500 2; mk_xy 200 3]
      = (Return (points1, points2), out) /\
    exists tps1 tps2 : list XY,
      Permutation (tps1 ++ tps2) [mk_xy 100 1; mk_xy 500 2; mk_xy 200 3] /\
      same_but_ends tps1 points1 /\ same_but_ends tps2 points2.
Proof.
  set (pts := [mk_xy 100 1; mk_xy 500 2; mk_xy 200 3]).
  assert (H : exists (points1 points2 : list XY) (out : list console),
            split_points 4 app_map (mk_sat 0 10 2000) 100 pts
            = (Return (points1, points2), out)).
  { unfold split_points.
    replace ((ssplon (mk_sat 0 10 2000) >=? 179.4)
             || (ssplon (mk_sat 0 10 2000) <=? -179.4)) with false.
    2:{ symmetry. apply orb_false_iff. simpl.
        split; [apply geb_false | apply leb_false]; lra. }
    replace (100 <? x0 app_map + width app_map / 2) with true
      by (symmetry; apply ltb_true; simpl; lra).
    destruct (split_left_of_center_spec 4 app_map pts 1 2
                (mk_xy 500 2) (mk_xy 200 3) eq_refl ltac:(simpl; lra)
                eq_refl ltac:(simpl; lra) ltac:(lia) ltac:(simpl; lia))
      as (t1 & t2 & W & N1 & N2 & _).
    destruct (stretch_end_points_spec app_map t1 t2 N1 N2)
      as (p1 & p2 & Ws & _).
    exists p1, p2, [console_log "split 2"].
    unfold print. rewrite (bind_Return tt), W. cbn [fst snd ret].
    rewrite bind_Return, Ws. reflexivity. }
  destruct H as (points1 & points2 & out & H).
  exists points1, points2, out. split; [exact H|].
  exact (split_points_keeps_the_points _ _ _ _ _ _ _ _ H).
Defined.

(** ** The component [Footprint] and the animation of [App.tsx] *)

Lemma to_line_in_viewport (w h : R) (points : list XY) :
  Forall (in_map (mk_satmap (-180) w h 0 0)) points ->
  Forall (App.in_viewport w h) (App.to_line w h points).
Proof.
  intros H. unfold App.to_line. apply Forall_map.
  eapply Forall_impl; [exact H|].
  intros q [Hx Hy]. unfold App.in_viewport. simpl in *. lra.
Qed.

(** What [Footprint] draws for a valid position, on a viewport that
    is not empty. *)
Lemma Footprint_lines (w h dlon dlat footprint : R) :
  0 < w -> 0 <= h ->
  valid_lat dlat -> valid_lon dlon -> 0 <= footprint ->
  exists n : nat, forall fuel : nat, (n <= fuel)%nat ->
    exists (lines : list (list (R * R))) (out : list console),
      App.Footprint fuel w h dlon dlat footprint = (Return lines, out) /\
      (1 <= length lines <= 2)%nat /\
      length (concat lines) = 360%nat /\
      Forall (fun line => line <> []) lines /\
      Forall (Forall (App.in_viewport w h)) lines.
Proof.
  intros Hw Hh Hlat Hlon Hf.
  set (p := mk_satmap (-180) w h 0 0).
  set (sat := mk_sat dlat dlon footprint).
  destruct (calculate_footprint_app_map p sat eq_refl eq_refl Hw Hlat Hlon Hf)
    as [n Hn].
  exists n. intros fuel Hfuel.
  destruct (Hn fuel Hfuel) as (p1 & p2 & out & Hc & Hlen & N1 & _).
  destruct (calculate_footprint_in_map fuel p sat p1 p2 out eq_refl Hh Hc)
    as [H1 H2].
  apply to_line_in_viewport in H1, H2.
  unfold App.Footprint. fold p sat. rewrite Hc, bind_Return.
  cbn [fst snd ret]. rewrite app_nil_r.
  assert (L1 : length (App.to_line w h p1) = length p1)
    by apply length_map.
  assert (L2 : length (App.to_line w h p2) = length p2)
    by apply length_map.
  assert (E1 : Nat.ltb 0 (length (App.to_line w h p1)) = true).
  { apply Nat.ltb_lt. rewrite L1. destruct p1; [congruence | simpl; lia]. }
  rewrite E1.
  assert (M1 : App.to_line w h p1 <> [])
    by (intros E; rewrite E in E1; discriminate).
  destruct (Nat.ltb 0 (length (App.to_line w h p2))) eqn:E2.
  - assert (M2 : App.to_line w h p2 <> [])
      by (intros E; rewrite E in E2; discriminate).
    eexists _, out. split; [reflexivity|]. simpl.
    rewrite app_nil_r, length_app, L1, L2.
    repeat split; try lia; repeat constructor; auto.
  - apply Nat.ltb_ge in E2.
    eexists _, out. split; [reflexivity|]. simpl.
    rewrite app_nil_r, L1.
    repeat split; try lia; repeat constructor; auto.
Qed.

Lemma frame_S (n : nat) : App.frame (S n) = App.tick (App.frame n).
Proof. reflexivity. Qed.

(** The invariant of the animation: the position has whole
    coordinates, the latitude between -80 and 80 and the longitude
    between -180 and 179; the longitude grows, and the latitude moves
    away from the edge it is on. *)
Lemma frame_invariant (n : nat) :
  exists i j : Z,
    App.lat (App.position (App.frame n)) = IZR i /\
    App.lon (App.position (App.frame n)) = IZR j /\
    (-80 <= i <= 80)%Z /\ (-180 <= j <= 179)%Z /\
    App.lon (App.direction (App.frame n)) = 1 /\
    ((App.lat (App.direction (App.frame n)) = 1 /\ (i < 80)%Z) \/
     (App.lat (App.direction (App.frame n)) = -1 /\ (-80 < i)%Z)).
Proof.
  induction n as [|n IH].
  - exists 0%Z, 0%Z. simpl. repeat split; try lia. left. split; [reflexivity | lia].
  - destruct IH as (i & j & Hi & Hj & Ri & Rj & Dlon & Dlat).
    rewrite frame_S.
    destruct (App.frame n) as [[la lo] [dla dlo]]. cbn [App.position App.direction
      App.lat App.lon] in *. subst la lo dlo.
    assert (Bi : -80 <= IZR i <= 80) by (split; apply IZR_le; lia).
    assert (Bj : -180 <= IZR j <= 179) by (split; apply IZR_le; lia).
    (* the longitude *)
    assert (Hlon : exists j' : Z,
      App.lon (App.newPosition (App.mk_latlon dla 1)
                 (App.mk_latlon (IZR i) (IZR j))) = IZR j' /\
      App.lat (App.newPosition (App.mk_latlon dla 1)
                 (App.mk_latlon (IZR i) (IZR j))) = IZR i + dla /\
      (-180 <= j' <= 179)%Z).
    { unfold App.newPosition. cbn [App.lat App.lon].
      replace (IZR j + 1 <=? -180) with false
        by (symmetry; apply leb_false; lra).
      destruct (Z.eq_dec j 179%Z) as [-> | Hne].
      - replace (179 + 1 >=? 180) with true
          by (symmetry; apply geb_true; lra).
        exists (-180)%Z. cbn [App.lat App.lon].
        split; [lra|]. split; [reflexivity | lia].
      - assert (IZR j <= 178) by (apply IZR_le; lia).
        replace (IZR j + 1 >=? 180) with false
          by (symmetry; apply geb_false; lra).
        exists (j + 1)%Z. cbn [App.lat App.lon].
        split; [now rewrite plus_IZR|]. split; [reflexivity | lia]. }
    destruct Hlon as (j' & Ej & Ei & Rj').
    destruct Dlat as [[-> Hlt] | [-> Hgt]];
      [exists (i + 1)%Z, j' | exists (i - 1)%Z, j'];
      unfold App.tick; cbn [App.position App.direction];
      rewrite Ei, Ej; unfold App.hits_edge, App.reverse;
      cbn [App.lat App.lon].
    + split; [now rewrite plus_IZR|]. split; [reflexivity|].
      split; [lia|]. split; [exact Rj'|].
      replace (IZR i + 1 <=? -80) with false
        by (symmetry; apply leb_false; lra).
      destruct (Z.eq_dec i 79%Z) as [-> | Hne].
      * replace (79 + 1 >=? 80) with true
          by (symmetry; apply geb_true; lra).
        cbn [orb App.lat App.lon]. split; [reflexivity|]. right.
        split; [reflexivity | lia].
      * assert (IZR i <= 78) by (apply IZR_le; lia).
        replace (IZR i + 1 >=? 80) with false
          by (symmetry; apply geb_false; lra).
        cbn [orb App.lat App.lon]. split; [reflexivity|]. left.
        split; [reflexivity | lia].
    + split; [now rewrite minus_IZR|]. split; [reflexivity|].
      split; [lia|]. split; [exact Rj'|].
      replace (IZR i + -1 >=? 80) with false
        by (symmetry; apply geb_false; lra).
      rewrite orb_false_r.
      destruct (Z.eq_dec i (-79)%Z) as [-> | Hne].
      * replace (-79 + -1 <=? -80) with true
          by (symmetry; apply leb_true; lra).
        cbn [App.lat App.lon]. split; [reflexivity|]. left.
        split; [lra | lia].
      * assert (-78 <= IZR i) by (apply IZR_le; lia).
        replace (IZR i + -1 <=? -80) with false
          by (symmetry; apply leb_false; lra).
        cbn [App.lat App.lon]. split; [reflexivity|]. right.
        split; [reflexivity | lia].
Qed.



(** X24. The animation keeps the position valid: after any number
    of ticks the latitude is a whole number between -80 and 80, the
    longitude a whole number between -180 and 179, and the direction
    is one degree east and one degree north or south. *)
Theorem animation_position (n : nat) :
  let s := App.frame n in
  (exists i j : Z,
     App.lat (App.position s) = IZR i /\ App.lon (App.position s) = IZR j) /\
  -80 <= App.lat (App.position s) <= 80 /\
  -180 <= App.lon (App.position s) <= 179 /\
  App.lon (App.direction s) = 1 /\
  (App.lat (App.direction s) = 1 \/ App.lat (App.direction s) = -1).
Proof.
  cbv zeta.
  destruct (frame_invariant n) as (i & j & Hi & Hj & Ri & Rj & Dlon & Dlat).
  split; [now exists i, j|].
  rewrite Hi, Hj.
  split; [split; apply IZR_le; lia|].
  split; [split; apply IZR_le; lia|].
  split; [exact Dlon|]. tauto.
Qed.

(** X25. At every tick of the animation, on a viewport of positive
    width, no pole is covered by the footprint of 2000 km, so the
    points are never sorted by [sort_points_x]; the footprint is drawn
    as one line or two, never empty, of 360 vertices together, all
    inside the viewport. *)
Theorem animation_footprint (n : nat) (w h : R) :
  0 < w -> 0 <= h ->
  let s := App.frame n in
  pole_is_covered
    (mk_sat (App.lat (App.position s)) (App.lon (App.position s)) 2000)
    = ret false /\
  exists k : nat, forall fuel : nat, (k <= fuel)%nat ->
    exists (lines : list (list (R * R))) (out : list console),
      App.Map_footprint fuel w h s = (Return lines, out) /\
      (1 <= length lines <= 2)%nat /\
      length (concat lines) = 360%nat /\
      Forall (fun line => line <> []) lines /\
      Forall (Forall (App.in_viewport w h)) lines.
Proof.
  intros Hw Hh. cbv zeta.
  destruct (frame_invariant n) as (i & j & Hi & Hj & Ri & Rj & _).
  assert (Bi : -80 <= IZR i <= 80) by (split; apply IZR_le; lia).
  assert (Bj : -180 <= IZR j <= 179) by (split; apply IZR_le; lia).
  rewrite <- Hi in Bi. rewrite <- Hj in Bj.
  split.
  - set (sat := mk_sat _ _ 2000).
    destruct (pole_tests_by_latitude sat) as (_ & Hn & _ & Hs).
    + unfold valid_lon. subst sat. simpl. lra.
    + subst sat. simpl. lra.
    + unfold pole_is_covered.
      rewrite Hn by (subst sat; simpl; lra). rewrite bind_ret.
      apply Hs. subst sat. simpl. lra.
  - unfold App.Map_footprint.
    apply Footprint_lines; unfold valid_lat, valid_lon; lra.
Qed.

Lemma animation_footprint_witness :
  let s := App.frame 100 in
  pole_is_covered
    (mk_sat (App.lat (App.position s)) (App.lon (App.position s)) 2000)
    = ret false /\
  exists k : nat, forall fuel : nat, (k <= fuel)%nat ->
    exists (lines : list (list (R * R))) (out : list console),
      App.Map_footprint fuel 720 360 s = (Return lines, out) /\
      (1 <= length lines <= 2)%nat /\
      length (concat lines) = 360%nat /\
      Forall (fun line => line <> []) lines /\
      Forall (Forall (App.in_viewport 720 360)) lines.
Proof. apply (animation_footprint 100 720 360); lra. Defined.

(** ** The component [Grid] *)

(** X26. [Footprint] draws the point of a longitude in [-180, 180]
    and of a latitude at the place [scene] of the scene: on the map of
    [App.tsx], of positive width, the projection [lonlat_to_xy]
    followed by the move to the centre of the viewport is linear in
    the longitude and in the latitude, lon * w / 360 and lat * h / 180. *)
Theorem Footprint_projection (w h lon lat : R) :
  0 < w -> -180 <= lon <= 180 ->
  exists n : nat, forall fuel : nat, (n <= fuel)%nat ->
    exists q : R * R,
      lonlat_to_xy fuel (mk_satmap (-180) w h 0 0) lon lat = ret q /\
      App.to_line w h [mk_xy (fst q) (snd q)] = [App.scene w h lon lat].
Proof.
  intros Hw Hlon.
  set (p := mk_satmap (-180) w h 0 0).
  destruct (lonlat_to_xy_terminates p lon lat Hw) as ([qx qy] & o & n & Hn).
  exists n. intros fuel Hf. pose proof (Hn fuel Hf) as Hq.
  pose proof (lonlat_to_xy_app fuel p lon lat _ _ eq_refl eq_refl Hw Hlon Hq)
    as Hx.
  destruct (lonlat_to_xy_range _ _ _ _ _ _ _ Hq) as (_ & Hy & ->).
  exists (qx, qy). split; [exact Hq|].
  cbn [fst snd] in *. subst qx qy.
  unfold App.to_line, App.scene. cbn [map x y y0 height width p].
  do 2 f_equal; field.
Qed.

Lemma Footprint_projection_witness :
  exists n : nat, forall fuel : nat, (n <= fuel)%nat ->
    exists q : R * R,
      lonlat_to_xy fuel (mk_satmap (-180) 720 360 0 0) 19 47 = ret q /\
      App.to_line 720 360 [mk_xy (fst q) (snd q)] = [App.scene 720 360 19 47].
Proof. apply (Footprint_projection 720 360 19 47); lra. Defined.





